(** * crypto.c: a shallow embedding of Tor's cryptographic facade

    The functions of [src/common/crypto.c] that the specification makes
    claims about are rendered here as Rocq functions, one definition per C
    function, and the claims are then proved (or refuted) about them.

    Conventions.
    - A byte is a [Z] in [0, 256); a buffer is a [list Z].  A C string is
      the list of its characters, the terminating NUL being implicit.
    - [size_t] is 64 bits wide, [int] and [unsigned int] are 32 bits wide
      (the LP64 platforms Tor runs on).  Wrap-around is written out where a
      subtraction can go below zero, where a shift can leave the word,
      where a [size_t] is cast to [ssize_t], and where a 32-bit loop
      counter is compared with a [size_t] bound.
    - A C function that returns a length or -1 and fills an output buffer is
      a function into [outcome (list Z)]: [Returns out] stands for "wrote
      [out], returned its length" (or returned 0 where the C function
      returns a status), [Fails] for "returned -1", [Aborts] for a failed
      [tor_assert] and [Undef] for a call that does not come back in a
      defined way: an access outside a buffer, or a loop whose counter can
      never reach its bound.
    - Calls into OpenSSL (RSA, DH, the RNG) are fields of records or
      arguments; SHA-1 is written out after FIPS 180-1 so that digests can
      be computed. *)

From Stdlib Require Import String Ascii.
From Stdlib Require Import ZArith List Lia Bool.
Import ListNotations.
Local Open Scope Z_scope.

(** ** Platform constants and outcomes *)

Definition INT_MAX : Z := 2 ^ 31 - 1.
Definition UINT_MAX : Z := 2 ^ 32 - 1.
(** torint.h: [SIZE_T_CEILING] is [sizeof(char) << (sizeof(size_t)*8 - 1)]. *)
Definition SIZE_T_CEILING : Z := 2 ^ 63.

Definition DIGEST_LEN : Z := 20.
Definition CIPHER_KEY_LEN : Z := 16.
Definition CIPHER_IV_LEN : Z := 16.
Definition FINGERPRINT_LEN : Z := 49.

(** Conversions between C integer types. *)
Definition to_size_t (z : Z) : Z := z mod 2 ^ 64.
Definition to_ssize_t (z : Z) : Z :=
  let u := z mod 2 ^ 64 in if u <? 2 ^ 63 then u else u - 2 ^ 64.
Definition to_uint32 (z : Z) : Z := z mod 2 ^ 32.
Definition to_uint8 (z : Z) : Z := z mod 256.
Definition to_int (z : Z) : Z :=
  let u := z mod 2 ^ 32 in if u <? 2 ^ 31 then u else u - 2 ^ 32.

Inductive outcome (A : Type) : Type :=
| Returns (a : A)
| Fails
| Aborts
| Undef.
Arguments Returns {A} a.
Arguments Fails {A}.
Arguments Aborts {A}.
Arguments Undef {A}.

Definition bind {A B : Type} (m : outcome A) (k : A -> outcome B) : outcome B :=
  match m with
  | Returns a => k a
  | Fails => Fails
  | Aborts => Aborts
  | Undef => Undef
  end.

Notation "x <- m ;; k" := (bind m (fun x => k))
  (at level 61, m at next level, right associativity).

(** [tor_assert(c); k] *)
Definition tor_assert {A : Type} (c : bool) (k : outcome A) : outcome A :=
  if c then k else Aborts.

(** The value a C caller sees in the [int] result. *)
Definition ret_len (r : outcome (list Z)) : option Z :=
  match r with
  | Returns out => Some (Z.of_nat (length out))
  | Fails => Some (-1)
  | _ => None
  end.

Definition len (l : list Z) : Z := Z.of_nat (length l).

Definition is_byte (b : Z) : Prop := 0 <= b < 256.

(** Characters of a Rocq string as bytes, for writing test vectors. *)
Fixpoint bytes_of_string (s : string) : list Z :=
  match s with
  | EmptyString => []
  | String a s' => Z.of_N (N_of_ascii a) :: bytes_of_string s'
  end.

(** ** Base64 decoding ([base64_decode], the table-driven branch) *)

Module B64.
Definition X : Z := 255.
Definition SP : Z := 64.
Definition PAD : Z := 65.
End B64.

Definition base64_decode_table : list Z :=
  let X := B64.X in let SP := B64.SP in let PAD := B64.PAD in
  [ X; X; X; X; X; X; X; X; X; SP; SP; SP; X; SP; X; X;
    X; X; X; X; X; X; X; X; X; X; X; X; X; X; X; X;
    SP; X; X; X; X; X; X; X; X; X; X; 62; X; X; X; 63;
    52; 53; 54; 55; 56; 57; 58; 59; 60; 61; X; X; X; PAD; X; X;
    X; 0; 1; 2; 3; 4; 5; 6; 7; 8; 9; 10; 11; 12; 13; 14;
    15; 16; 17; 18; 19; 20; 21; 22; 23; 24; 25; X; X; X; X; X;
    X; 26; 27; 28; 29; 30; 31; 32; 33; 34; 35; 36; 37; 38; 39; 40;
    41; 42; 43; 44; 45; 46; 47; 48; 49; 50; 51; X; X; X; X; X;
    X; X; X; X; X; X; X; X; X; X; X; X; X; X; X; X;
    X; X; X; X; X; X; X; X; X; X; X; X; X; X; X; X;
    X; X; X; X; X; X; X; X; X; X; X; X; X; X; X; X;
    X; X; X; X; X; X; X; X; X; X; X; X; X; X; X; X;
    X; X; X; X; X; X; X; X; X; X; X; X; X; X; X; X;
    X; X; X; X; X; X; X; X; X; X; X; X; X; X; X; X;
    X; X; X; X; X; X; X; X; X; X; X; X; X; X; X; X;
    X; X; X; X; X; X; X; X; X; X; X; X; X; X; X; X ].

(** [base64_decode_table[(unsigned char) c]] *)
Definition b64_lookup (c : Z) : Z :=
  nth (Z.to_nat (to_uint8 c)) base64_decode_table B64.X.

(** The [for ( ; src < eos; ++src)] loop.  The state is the accumulator [n]
    (a [uint32_t]), the count [n_idx] of sextets in it, and the bytes
    flushed to [dest] so far.  [None] is the [return -1] inside the loop;
    reaching [=] leaves the loop ([goto end_of_loop]). *)
Fixpoint base64_loop (src : list Z) (n n_idx : Z) (dest : list Z)
  : option (Z * Z * list Z) :=
  match src with
  | [] => Some (n, n_idx, dest)
  | c :: rest =>
      let v := b64_lookup c in
      if v =? B64.X then None
      else if v =? B64.SP then base64_loop rest n n_idx dest
      else if v =? B64.PAD then Some (n, n_idx, dest)
      else
        let n' := Z.lor (to_uint32 (Z.shiftl n 6)) v in
        if n_idx + 1 =? 4 then
          base64_loop rest 0 0
            (dest ++ [to_uint8 (Z.shiftr n' 16);
                      Z.land (Z.shiftr n' 8) 255;
                      Z.land n' 255])
        else base64_loop rest n' (n_idx + 1) dest
  end.

(** The [switch (n_idx)] after the loop. *)
Definition base64_leftover (n n_idx : Z) (dest : list Z) : option (list Z) :=
  if n_idx =? 1 then None
  else if n_idx =? 2 then Some (dest ++ [to_uint8 (Z.shiftr n 4)])
  else if n_idx =? 3 then
    Some (dest ++ [to_uint8 (Z.shiftr n 10); to_uint8 (Z.shiftr n 2)])
  else Some dest.

(** [base64_decode(dest, destlen, src, srclen)].  The first assertion
    compares with [(ssize_t)destlen]: the guard before lets
    [destlen = SIZE_T_CEILING] through, and that value is negative as an
    [ssize_t].  The product [srclen*3] is written without wrap-around: it
    is below [2^64] for every input that fits into an address space. *)
Definition base64_decode (destlen : Z) (src : list Z) : outcome (list Z) :=
  let srclen := len src in
  if destlen <? (srclen * 3) / 4 then Fails
  else if destlen >? SIZE_T_CEILING then Fails
  else
    match base64_loop src 0 0 [] with
    | None => Fails
    | Some (n, n_idx, dest) =>
        match base64_leftover n n_idx dest with
        | None => Fails
        | Some out =>
            tor_assert (len out <=? to_ssize_t destlen)
              (tor_assert (len out <=? INT_MAX) (Returns out))
        end
    end.

(** *** The decoder as the specification words it

    Input is read up to the first [=]; whitespace is dropped; every other
    character must be in the alphabet; the sextets are grouped by four. The
    set of whitespace bytes is a parameter, so that the set the
    specification lists and the set the table holds can be compared. *)

Definition b64_claimed_ws : list Z := [9; 10; 11; 12; 13; 32].
Definition b64_table_ws : list Z := [9; 10; 11; 13; 32].

Definition b64_is_ws (ws : list Z) (c : Z) : bool :=
  existsb (Z.eqb (to_uint8 c)) ws.

(** Value of a character of [A-Za-z0-9+/]. *)
Definition b64_sextet (c : Z) : option Z :=
  let u := to_uint8 c in
  if (65 <=? u) && (u <=? 90) then Some (u - 65)
  else if (97 <=? u) && (u <=? 122) then Some (u - 71)
  else if (48 <=? u) && (u <=? 57) then Some (u + 4)
  else if u =? 43 then Some 62
  else if u =? 47 then Some 63
  else None.

(** Sextets of the input up to the first [=]; [None] on a character that
    is neither whitespace nor in the alphabet. *)
Fixpoint b64_spec_sextets (ws : list Z) (src : list Z) : option (list Z) :=
  match src with
  | [] => Some []
  | c :: rest =>
      if to_uint8 c =? 61 then Some []
      else if b64_is_ws ws c then b64_spec_sextets ws rest
      else match b64_sextet c with
           | None => None
           | Some v =>
               match b64_spec_sextets ws rest with
               | None => None
               | Some vs => Some (v :: vs)
               end
           end
  end.

(** Four sextets give three bytes; the leftover rule of the specification. *)
Fixpoint b64_spec_bytes (vs : list Z) : option (list Z) :=
  match vs with
  | a :: b :: c :: d :: rest =>
      let n := ((a * 64 + b) * 64 + c) * 64 + d in
      match b64_spec_bytes rest with
      | None => None
      | Some out => Some (n / 65536 :: (n / 256) mod 256 :: n mod 256 :: out)
      end
  | [] => Some []
  | [a] => None
  | [a; b] => Some [(a * 64 + b) / 16]
  | [a; b; c] =>
      let n := (a * 64 + b) * 64 + c in
      Some [n / 1024; (n / 4) mod 256]
  end.

Definition base64_spec (ws : list Z) (src : list Z) : outcome (list Z) :=
  match b64_spec_sextets ws src with
  | None => Fails
  | Some vs =>
      match b64_spec_bytes vs with
      | None => Fails
      | Some out => Returns out
      end
  end.

(** ** Base32 decoding ([base32_decode]) *)

(** The body of the first loop: a character becomes a 5-bit value.
    Lower-case letters, the digits [2]..[7] and upper-case letters are the
    three accepted ranges; anything else is [return -1]. *)
Definition base32_value (c : Z) : option Z :=
  if (c >? 0x60) && (c <? 0x7B) then Some (c - 0x61)
  else if (c >? 0x31) && (c <? 0x38) then Some (c - 0x18)
  else if (c >? 0x40) && (c <? 0x5B) then Some (c - 0x41)
  else None.

(** The first loop, [for (j = 0; j < srclen; ++j)], over the characters it
    visits.  The counter [j] is an [unsigned int]: [base32_decode] hands
    over the whole input only when [srclen < 2^32], so that [j] reaches
    [srclen] without wrapping. *)
Fixpoint base32_values (src : list Z) : option (list Z) :=
  match src with
  | [] => Some []
  | c :: rest =>
      match base32_value c with
      | None => None
      | Some v =>
          match base32_values rest with
          | None => None
          | Some vs => Some (v :: vs)
          end
      end
  end.

(** [dest[i]] for the output byte that starts at bit [bit] (the
    [switch (bit % 40)]); [tmp[k]] is read as a [uint8_t], the sum is
    stored into a [char]. *)
Definition base32_byte (tmp : list Z) (bit : Z) : Z :=
  let t := fun k => to_uint8 (nth (Z.to_nat k) tmp 0) in
  let q := bit / 5 in
  let r := bit mod 40 in
  if r =? 0 then
    to_uint8 (Z.shiftl (t q) 3 + Z.shiftr (t (q + 1)) 2)
  else if r =? 8 then
    to_uint8 (Z.shiftl (t q) 6 + Z.shiftl (t (q + 1)) 1 + Z.shiftr (t (q + 2)) 4)
  else if r =? 16 then
    to_uint8 (Z.shiftl (t q) 4 + Z.shiftr (t (q + 1)) 1)
  else if r =? 24 then
    to_uint8 (Z.shiftl (t q) 7 + Z.shiftl (t (q + 1)) 2 + Z.shiftr (t (q + 2)) 3)
  else
    to_uint8 (Z.shiftl (t q) 5 + t (q + 1)).

(** The second loop, [for (i = 0, bit = 0; bit < nbits; ++i, bit += 8)],
    for [nbits < 2^32]: the [unsigned int] counters [bit] and [i] then run
    up to [nbits] and [nbits/8] without wrapping, and the loop writes one
    byte for each multiple of 8 below [nbits].  [base32_decode] uses it
    for no other [nbits]. *)
Definition base32_assemble (tmp : list Z) (nbits : Z) : list Z :=
  map (fun i => base32_byte tmp (8 * Z.of_nat i)) (seq 0 (Z.to_nat (nbits / 8))).

(** [base32_decode(dest, destlen, src, srclen)]; [Returns dest] is
    "return 0" with [dest] written.  [nbits] is a [size_t], the counters
    [i], [j] and [bit] are [unsigned int] and are compared with [srclen]
    and [nbits] as [size_t].
    - With [srclen > UINT_MAX] the counter [j] wraps before it reaches
      [srclen]: the first loop returns -1 at a bad character among the
      first [2^32], and otherwise never ends.
    - With [nbits > UINT_MAX] the counter [bit] stays below [nbits] for ever
      ([2^32] is a multiple of 8): the second loop goes on writing
      [dest[i]], past the [nbits/8] bytes asked for, and does not return. *)
Definition base32_decode (destlen : Z) (src : list Z) : outcome (list Z) :=
  let srclen := len src in
  let nbits := to_size_t (srclen * 5) in
  tor_assert (nbits mod 8 =? 0)
    (tor_assert (nbits / 8 <=? destlen)
       (tor_assert (destlen <? SIZE_T_CEILING)
          (if srclen >? UINT_MAX then
             match base32_values (firstn (Z.to_nat (UINT_MAX + 1)) src) with
             | None => Fails
             | Some _ => Undef
             end
           else
             match base32_values src with
             | None => Fails
             | Some tmp =>
                 if nbits >? UINT_MAX then Undef
                 else Returns (base32_assemble tmp nbits)
             end))).

(** The alphabet of the specification, ["abcdefghijklmnopqrstuvwxyz234567"]. *)
Definition BASE32_CHARS : list Z :=
  bytes_of_string "abcdefghijklmnopqrstuvwxyz234567".

Definition in_base32_alphabet (c : Z) : bool := existsb (Z.eqb c) BASE32_CHARS.

Definition is_upper (c : Z) : bool := (65 <=? c) && (c <=? 90).

(** What the decoder takes: the alphabet and the upper-case letters. *)
Definition base32_accepts (c : Z) : bool := in_base32_alphabet c || is_upper c.

Definition to_lower (c : Z) : Z := if is_upper c then c + 32 else c.

(** ** Fingerprint syntax ([crypto_pk_check_fingerprint_syntax]) *)

(** [s[i]] for a C string: the characters, then the terminating NUL. *)
Definition char_at (s : list Z) (i : Z) : Z := nth (Z.to_nat i) s 0.

(** Length of a C string held in a list: characters before the first NUL. *)
Fixpoint strlen (s : list Z) : Z :=
  match s with
  | [] => 0
  | c :: rest => if c =? 0 then 0 else 1 + strlen rest
  end.

Section FingerprintSyntax.
(** [TOR_ISSPACE] and [TOR_ISXDIGIT] are macros of compat.h, which is not
    part of crypto.c; the checker is parametric in them. *)
Variable TOR_ISSPACE TOR_ISXDIGIT : Z -> bool.

(** The [for (i = 0; i < FINGERPRINT_LEN; ++i)] loop from index [i], with
    [todo] iterations left; [false] is the early [return 0]. *)
Fixpoint fingerprint_loop (s : list Z) (i : Z) (todo : nat) : bool :=
  match todo with
  | O => true
  | S todo' =>
      if i mod 5 =? 4 then
        if negb (TOR_ISSPACE (char_at s i)) then false
        else fingerprint_loop s (i + 1) todo'
      else
        if negb (TOR_ISXDIGIT (char_at s i)) then false
        else fingerprint_loop s (i + 1) todo'
  end.

Definition crypto_pk_check_fingerprint_syntax (s : list Z) : bool :=
  if fingerprint_loop s 0 (Z.to_nat FINGERPRINT_LEN) then
    if negb (char_at s FINGERPRINT_LEN =? 0) then false else true
  else false.
End FingerprintSyntax.

(** The C library's classification in the C locale, which the two macros
    wrap: [isspace] is true of space, TAB, LF, VT, FF and CR; [isxdigit] of
    the decimal digits and of the letters a-f in either case. *)
Definition c_isspace (c : Z) : bool := (c =? 32) || ((9 <=? c) && (c <=? 13)).
Definition c_isxdigit (c : Z) : bool :=
  ((48 <=? c) && (c <=? 57)) || ((65 <=? c) && (c <=? 70))
  || ((97 <=? c) && (c <=? 102)).

(** The reading of the specification: upper-case hexadecimal digits only. *)
Definition is_upper_hex (c : Z) : bool :=
  ((48 <=? c) && (c <=? 57)) || ((65 <=? c) && (c <=? 70)).

(** ** Bounded random integers ([crypto_rand_int]) *)

(** The [while (1)] loop over the successive 32-bit values that
    [crypto_rand] stores in [val]; [None] when every value of [draws] was
    rejected, that is, the loop is still running.  The result is converted
    to the function's return type, [int]. *)
Fixpoint crypto_rand_int_loop (max cutoff : Z) (draws : list Z) : option Z :=
  match draws with
  | [] => None
  | val :: rest =>
      if val <? cutoff then Some (to_int (val mod max))
      else crypto_rand_int_loop max cutoff rest
  end.

Definition rand_cutoff (max : Z) : Z := UINT_MAX - (UINT_MAX mod max).

Definition crypto_rand_int (max : Z) (draws : list Z) : outcome (option Z) :=
  tor_assert (max <? UINT_MAX)
    (tor_assert (max >? 0)
       (Returns (crypto_rand_int_loop max (rand_cutoff max) draws))).

(** ** Diffie-Hellman public values ([tor_check_dh_key]) *)

(** [init_dh_param]: the prime of RFC 2409, section 6.2. *)
Definition dh_param_p : Z :=
  0xFFFFFFFFFFFFFFFFC90FDAA22168C234C4C6628B80DC1CD129024E088A67CC74020BBEA63B139B22514A08798E3404DDEF9519B3CD3A431B302B0A6DF25F14374FE1356D6D51C245E485B576625E7EC6F44C42E9A637ED6B0BFF5CB6F406B7EDEE386BFB5A899FA5AE9F24117C4B1FE649286651ECE65381FFFFFFFFFFFFFFFF.
Definition dh_param_g : Z := 2.

(** 0 if the key is accepted, -1 if it is rejected. *)
Definition tor_check_dh_key (bn : Z) : Z :=
  if bn <=? 1 then -1              (* BN_cmp(bn, 1) <= 0 *)
  else if bn >=? dh_param_p - 1 then -1   (* BN_cmp(bn, p - 1) >= 0 *)
  else 0.

(** [crypto_dh_generate_public]: [gens] lists what the successive calls of
    [DH_generate_key] deliver, the public value or [None] where the call
    fails.  The result is [None] while the [again:] loop is still running. *)
Fixpoint crypto_dh_generate_public (gens : list (option Z)) : option (outcome Z) :=
  match gens with
  | [] => None
  | None :: _ => Some Fails
  | Some pub_key :: rest =>
      if tor_check_dh_key pub_key <? 0 then crypto_dh_generate_public rest
      else Some (Returns pub_key)
  end.

(** [BN_bin2bn]: an unsigned big-endian byte string as a number. *)
Definition BN_bin2bn (bytes : list Z) : Z :=
  fold_left (fun acc b => acc * 256 + to_uint8 b) bytes 0.

(** ** SHA-1 (OpenSSL's [SHA1], [SHA1_Init], [SHA1_Update], [SHA1_Final])

    Written out after FIPS 180-1 on 32-bit words held in [Z]. *)

Definition add32 (a b : Z) : Z := to_uint32 (a + b).
Definition rotl32 (n x : Z) : Z :=
  Z.lor (to_uint32 (Z.shiftl x n)) (Z.shiftr x (32 - n)).
Definition not32 (x : Z) : Z := Z.lxor x 0xFFFFFFFF.

Definition sha1_f (t b c d : Z) : Z :=
  if t <? 20 then Z.lor (Z.land b c) (Z.land (not32 b) d)
  else if t <? 40 then Z.lxor b (Z.lxor c d)
  else if t <? 60 then Z.lor (Z.lor (Z.land b c) (Z.land b d)) (Z.land c d)
  else Z.lxor b (Z.lxor c d).

Definition sha1_k (t : Z) : Z :=
  if t <? 20 then 0x5A827999
  else if t <? 40 then 0x6ED9EBA1
  else if t <? 60 then 0x8F1BBCDC
  else 0xCA62C1D6.

(** Big-endian words of a byte string whose length is a multiple of 4. *)
Fixpoint be_words (bytes : list Z) : list Z :=
  match bytes with
  | a :: b :: c :: d :: rest =>
      (((a * 256 + b) * 256 + c) * 256 + d) :: be_words rest
  | _ => []
  end.

Definition be_bytes32 (w : Z) : list Z :=
  [Z.shiftr w 24 mod 256; Z.shiftr w 16 mod 256; Z.shiftr w 8 mod 256; w mod 256].

Definition be_bytes64 (w : Z) : list Z :=
  be_bytes32 (Z.shiftr w 32 mod 2 ^ 32) ++ be_bytes32 (w mod 2 ^ 32).

(** Message padding: a 1 bit, zeros up to 56 mod 64, the bit length. *)
Definition sha1_pad (msg : list Z) : list Z :=
  let l := len msg in
  msg ++ [0x80] ++ repeat 0 (Z.to_nat ((55 - l) mod 64)) ++ be_bytes64 (8 * l).

(** The message schedule: [todo] further words after the ones in [w]. *)
Fixpoint sha1_schedule (todo : nat) (w : list Z) : list Z :=
  match todo with
  | O => w
  | S todo' =>
      let t := length w in
      let at_ := fun k => nth (t - k) w 0 in
      sha1_schedule todo'
        (w ++ [rotl32 1 (Z.lxor (Z.lxor (at_ 3%nat) (at_ 8%nat))
                                (Z.lxor (at_ 14%nat) (at_ 16%nat)))])
  end.

Definition sha1_round (st : Z * Z * Z * Z * Z) (tw : Z * Z) : Z * Z * Z * Z * Z :=
  let '(a, b, c, d, e) := st in
  let '(t, w) := tw in
  let temp := add32 (add32 (add32 (add32 (rotl32 5 a) (sha1_f t b c d)) e) w)
                    (sha1_k t) in
  (temp, a, rotl32 30 b, c, d).

Definition sha1_block (h : Z * Z * Z * Z * Z) (block : list Z) : Z * Z * Z * Z * Z :=
  let w := sha1_schedule 64 (be_words block) in
  let tws := combine (map Z.of_nat (seq 0 80)) w in
  let '(a, b, c, d, e) := fold_left sha1_round tws h in
  let '(h0, h1, h2, h3, h4) := h in
  (add32 h0 a, add32 h1 b, add32 h2 c, add32 h3 d, add32 h4 e).

Fixpoint sha1_blocks (nblocks : nat) (h : Z * Z * Z * Z * Z) (bytes : list Z)
  : Z * Z * Z * Z * Z :=
  match nblocks with
  | O => h
  | S n' => sha1_blocks n' (sha1_block h (firstn 64 bytes)) (skipn 64 bytes)
  end.

Definition sha1_init : Z * Z * Z * Z * Z :=
  (0x67452301, 0xEFCDAB89, 0x98BADCFE, 0x10325476, 0xC3D2E1F0).

Definition SHA1 (msg : list Z) : list Z :=
  let padded := sha1_pad (map to_uint8 msg) in
  let '(h0, h1, h2, h3, h4) :=
    sha1_blocks (length padded / 64) sha1_init padded in
  be_bytes32 h0 ++ be_bytes32 h1 ++ be_bytes32 h2 ++ be_bytes32 h3 ++ be_bytes32 h4.

(** [crypto_digest]: one-shot SHA-1. *)
Definition crypto_digest (m : list Z) : list Z := SHA1 m.

(** ** Incremental digests

    A [SHA_CTX] is represented by the bytes absorbed so far: [SHA1_Update]
    appends, [SHA1_Final] hashes what was absorbed. *)
Record crypto_digest_env_t := { d : list Z }.

Definition crypto_new_digest_env : crypto_digest_env_t := {| d := [] |}.

Definition crypto_digest_add_bytes (digest : crypto_digest_env_t)
           (data : list Z) (n : Z) : crypto_digest_env_t :=
  {| d := d digest ++ firstn (Z.to_nat n) data |}.

Definition crypto_digest_get_digest (digest : crypto_digest_env_t)
           (out_len : Z) : outcome (list Z) :=
  tor_assert (out_len <=? DIGEST_LEN)
    (Returns (firstn (Z.to_nat out_len) (SHA1 (d digest)))).

(** ** RFC 2440 iterated-salted S2K ([secret_to_key]) *)

(** [count] as computed from the ninth byte of the specifier. *)
Definition s2k_count (c : Z) : Z :=
  to_uint32 (Z.shiftl (16 + Z.land c 15) (Z.shiftr c 4 + 6)).

(** The [while (count)] loop; [secret_len] already includes the salt.
    [None] if [fuel] iterations did not bring [count] to zero. *)
Fixpoint s2k_loop (fuel : nat) (dg : crypto_digest_env_t) (tmp : list Z)
         (secret_len count : Z) : option crypto_digest_env_t :=
  if count =? 0 then Some dg
  else
    match fuel with
    | O => None
    | S fuel' =>
        if count >=? secret_len then
          s2k_loop fuel' (crypto_digest_add_bytes dg tmp secret_len) tmp
                   secret_len (count - secret_len)
        else
          s2k_loop fuel' (crypto_digest_add_bytes dg tmp count) tmp
                   secret_len 0
    end.

(** [None] inside [Returns] would mean the loop did not finish within
    [count] iterations; [secret_to_key_total] shows this never happens. *)
Definition secret_to_key (key_out_len : Z) (secret : list Z)
           (s2k_specifier : list Z) : outcome (option (list Z)) :=
  tor_assert (key_out_len <? SIZE_T_CEILING)
    (if len s2k_specifier <? 9 then Undef
     else
       let c := to_uint8 (nth 8 s2k_specifier 0) in
       let count := s2k_count c in
       tor_assert (key_out_len <=? DIGEST_LEN)
         (let dg := crypto_new_digest_env in
          let tmp := firstn 8 s2k_specifier ++ secret in
          let secret_len := len secret + 8 in
          match s2k_loop (Z.to_nat count) dg tmp secret_len count with
          | None => Returns None
          | Some dg' =>
              key_out <- crypto_digest_get_digest dg' key_out_len ;;
              Returns (Some key_out)
          end)).

(** The [i]-th byte of the endless repetition of [input]. *)
Definition cycle_byte (input : list Z) (i : nat) : Z :=
  nth (i mod length input) input 0.

(** ** Key expansion ([crypto_expand_key_material]) *)

Definition crypto_expand_key_material (key_in : list Z) (key_out_len : Z)
  : outcome (list Z) :=
  tor_assert (key_out_len <=? DIGEST_LEN * 256)
    (let rounds := Z.to_nat ((key_out_len + DIGEST_LEN - 1) / DIGEST_LEN) in
     Returns
       (flat_map
          (fun i =>
             let digest := crypto_digest (key_in ++ [to_uint8 (Z.of_nat i)]) in
             firstn (Z.to_nat (Z.min DIGEST_LEN
                                 (key_out_len - DIGEST_LEN * Z.of_nat i)))
                    digest)
          (seq 0 rounds))).

(** ** Shared secrets ([crypto_dh_compute_secret]) *)

Section DHSecret.
(** OpenSSL's [DH_compute_key] on our DH object: the shared secret for a
    peer value, or [None] where it returns a negative number. *)
Variable DH_compute_key : Z -> option (list Z).

Definition crypto_dh_compute_secret (pubkey : list Z) (secret_bytes_out : Z)
  : outcome (list Z) :=
  tor_assert (secret_bytes_out / DIGEST_LEN <=? 255)
    (tor_assert (len pubkey <? INT_MAX)
       (let pubkey_bn := BN_bin2bn pubkey in
        if tor_check_dh_key pubkey_bn <? 0 then Fails
        else
          match DH_compute_key pubkey_bn with
          | None => Fails
          | Some secret_tmp =>
              crypto_expand_key_material secret_tmp secret_bytes_out
          end)).
End DHSecret.

(** ** The AES counter-mode stream (aes.h) *)

(** Modelled from the spec: the counter-mode stream object of aes.c, which
    is not part of crypto.c.  The specification gives it four operations:
    new, set-key-bits, set-IV and keystream-xor into a buffer, every byte
    processed advancing the stream.  The keystream itself (AES of the
    counter blocks) is the parameter [AES_keystream key iv pos]. *)
Record aes_cnt_cipher_t := {
  aes_key : list Z;
  aes_iv : list Z;
  aes_pos : Z
}.

Section SymmetricCipher.
Variable AES_keystream : list Z -> list Z -> Z -> Z.

(** Modelled from the spec: [aes_new_cipher], a stream with no key yet. *)
Definition aes_new_cipher : aes_cnt_cipher_t :=
  {| aes_key := []; aes_iv := repeat 0 16; aes_pos := 0 |}.

(** Modelled from the spec: [aes_set_key] installs the first [key_bits]
    bits of the key and starts the stream at counter zero. *)
Definition aes_set_key (c : aes_cnt_cipher_t) (key : list Z) (key_bits : Z)
  : aes_cnt_cipher_t :=
  {| aes_key := firstn (Z.to_nat (key_bits / 8)) key;
     aes_iv := repeat 0 16; aes_pos := 0 |}.

(** Modelled from the spec: [aes_set_iv] installs a 16-byte counter block
    and starts the stream at its first byte. *)
Definition aes_set_iv (c : aes_cnt_cipher_t) (iv : list Z) : aes_cnt_cipher_t :=
  {| aes_key := aes_key c; aes_iv := firstn 16 iv; aes_pos := 0 |}.

(** Modelled from the spec: keystream xor, one stream byte per data byte. *)
Fixpoint xor_keystream (ks : Z -> Z) (pos : Z) (input : list Z) : list Z :=
  match input with
  | [] => []
  | b :: rest => Z.lxor b (ks pos) :: xor_keystream ks (pos + 1) rest
  end.

(** Modelled from the spec: [aes_crypt] xors the keystream onto the input
    and advances the stream by the bytes processed. *)
Definition aes_crypt (c : aes_cnt_cipher_t) (input : list Z)
  : aes_cnt_cipher_t * list Z :=
  ({| aes_key := aes_key c; aes_iv := aes_iv c;
      aes_pos := aes_pos c + len input |},
   xor_keystream (AES_keystream (aes_key c) (aes_iv c)) (aes_pos c) input).

(** *** [crypto_cipher_env_t] and its operations *)

Record crypto_cipher_env_t := {
  key : list Z;
  cipher : aes_cnt_cipher_t
}.

Definition crypto_new_cipher_env : crypto_cipher_env_t :=
  {| key := repeat 0 (Z.to_nat CIPHER_KEY_LEN); cipher := aes_new_cipher |}.

(** [crypto_cipher_generate_key]: [rand] is what [crypto_rand] delivered
    for the 16 key bytes, [None] if it failed. *)
Definition crypto_cipher_generate_key (env : crypto_cipher_env_t)
           (rand : option (list Z)) : outcome crypto_cipher_env_t :=
  match rand with
  | None => Fails
  | Some k => Returns {| key := firstn (Z.to_nat CIPHER_KEY_LEN) k;
                         cipher := cipher env |}
  end.

Definition crypto_cipher_set_key (env : crypto_cipher_env_t) (k : list Z)
  : crypto_cipher_env_t :=
  {| key := firstn (Z.to_nat CIPHER_KEY_LEN) k; cipher := cipher env |}.

Definition crypto_cipher_set_iv (env : crypto_cipher_env_t) (iv : list Z)
  : crypto_cipher_env_t :=
  {| key := key env; cipher := aes_set_iv (cipher env) iv |}.

Definition crypto_cipher_encrypt_init_cipher (env : crypto_cipher_env_t)
  : crypto_cipher_env_t :=
  {| key := key env;
     cipher := aes_set_key (cipher env) (key env) (CIPHER_KEY_LEN * 8) |}.

Definition crypto_cipher_decrypt_init_cipher (env : crypto_cipher_env_t)
  : crypto_cipher_env_t :=
  {| key := key env;
     cipher := aes_set_key (cipher env) (key env) (CIPHER_KEY_LEN * 8) |}.

(** [crypto_create_init_cipher(key, encrypt_mode)] *)
Definition crypto_create_init_cipher (k : list Z) (encrypt_mode : bool)
  : crypto_cipher_env_t :=
  let crypto := crypto_cipher_set_key crypto_new_cipher_env k in
  if encrypt_mode then crypto_cipher_encrypt_init_cipher crypto
  else crypto_cipher_decrypt_init_cipher crypto.

(** [crypto_cipher_encrypt(env, to, from, fromlen)]; [fromlen] is passed
    apart from the bytes because the hybrid code computes it by a
    subtraction that can wrap.  [tor_assert(fromlen)] is the third
    assertion of the function. *)
Definition crypto_cipher_encrypt (env : crypto_cipher_env_t) (from : list Z)
           (fromlen : Z) : outcome (crypto_cipher_env_t * list Z) :=
  tor_assert (negb (fromlen =? 0))
    (if fromlen >? len from then Undef
     else
       let '(c, out) := aes_crypt (cipher env) (firstn (Z.to_nat fromlen) from) in
       Returns ({| key := key env; cipher := c |}, out)).

(** [crypto_cipher_decrypt]: the same without the assertion on [fromlen]. *)
Definition crypto_cipher_decrypt (env : crypto_cipher_env_t) (from : list Z)
           (fromlen : Z) : outcome (crypto_cipher_env_t * list Z) :=
  if fromlen >? len from then Undef
  else
    let '(c, out) := aes_crypt (cipher env) (firstn (Z.to_nat fromlen) from) in
    Returns ({| key := key env; cipher := c |}, out).

(** [crypto_cipher_decrypt_with_iv(cipher, to, tolen, from, fromlen)] *)
Definition crypto_cipher_decrypt_with_iv (env : crypto_cipher_env_t)
           (tolen : Z) (from : list Z)
  : outcome (crypto_cipher_env_t * list Z) :=
  let fromlen := len from in
  tor_assert (fromlen <? INT_MAX)
    (if fromlen <=? CIPHER_IV_LEN then Fails
     else if tolen <? to_size_t (fromlen - CIPHER_IV_LEN) then Fails
     else
       let env1 := crypto_cipher_set_iv env from in
       r <- crypto_cipher_encrypt env1 (skipn (Z.to_nat CIPHER_IV_LEN) from)
              (to_size_t (fromlen - CIPHER_IV_LEN)) ;;
       Returns r).
End SymmetricCipher.

(** ** RSA keys and the public-key object *)

Inductive pk_padding := PK_NO_PADDING | PK_PKCS1_PADDING | PK_PKCS1_OAEP_PADDING.
Inductive rsa_padding := RSA_NO_PADDING | RSA_PKCS1_PADDING | RSA_PKCS1_OAEP_PADDING.

(** The two [switch] statements; the [default: tor_assert(0)] arms are
    unreachable for the values of the enumerations. *)
Definition crypto_get_rsa_padding_overhead (padding : rsa_padding) : Z :=
  match padding with
  | RSA_NO_PADDING => 0
  | RSA_PKCS1_OAEP_PADDING => 42
  | RSA_PKCS1_PADDING => 11
  end.

Definition crypto_get_rsa_padding (padding : pk_padding) : rsa_padding :=
  match padding with
  | PK_NO_PADDING => RSA_NO_PADDING
  | PK_PKCS1_PADDING => RSA_PKCS1_PADDING
  | PK_PKCS1_OAEP_PADDING => RSA_PKCS1_OAEP_PADDING
  end.

Definition is_no_padding (padding : pk_padding) : bool :=
  match padding with PK_NO_PADDING => true | _ => false end.

(** OpenSSL's [RSA] object with the operations crypto.c calls on it:
    [RSA_size] is the length of the modulus in bytes, [rsa_p] tells whether
    the private prime is present, and the two operations return the bytes
    written, or [None] for a negative return value. *)
Record RSA := {
  RSA_size : Z;
  rsa_n : Z;
  rsa_p : bool;
  RSA_public_encrypt : list Z -> rsa_padding -> option (list Z);
  RSA_private_decrypt : list Z -> rsa_padding -> option (list Z)
}.

Record crypto_pk_env_t := {
  refs : Z;
  pk_key : RSA
}.

Definition crypto_pk_keysize (env : crypto_pk_env_t) : Z := RSA_size (pk_key env).

Definition crypto_pk_public_encrypt (env : crypto_pk_env_t) (from : list Z)
           (fromlen : Z) (padding : pk_padding) : outcome (list Z) :=
  tor_assert (fromlen <? INT_MAX)
    (if fromlen >? len from then Undef
     else
       match RSA_public_encrypt (pk_key env) (firstn (Z.to_nat fromlen) from)
                                (crypto_get_rsa_padding padding) with
       | None => Fails
       | Some c => Returns c
       end).

Definition crypto_pk_private_decrypt (env : crypto_pk_env_t) (from : list Z)
           (fromlen : Z) (padding : pk_padding) : outcome (list Z) :=
  tor_assert (fromlen <? INT_MAX)
    (if negb (rsa_p (pk_key env)) then Fails
     else if fromlen >? len from then Undef
     else
       match RSA_private_decrypt (pk_key env) (firstn (Z.to_nat fromlen) from)
                                 (crypto_get_rsa_padding padding) with
       | None => Fails
       | Some m => Returns m
       end).

(** ** Hybrid encryption *)

Section Hybrid.
Variable AES_keystream : list Z -> list Z -> Z -> Z.

(** [cipher->key[0] &= 0x7f] *)
Definition clear_high_bit (k : list Z) : list Z :=
  match k with
  | [] => []
  | b :: rest => Z.land b 0x7f :: rest
  end.

(** [crypto_pk_public_hybrid_encrypt(env, to, from, fromlen, padding,
    force)]; [rand] is the outcome of the one [crypto_rand] call. *)
Definition crypto_pk_public_hybrid_encrypt (env : crypto_pk_env_t)
           (rand : option (list Z)) (from : list Z) (padding : pk_padding)
           (force : bool) : outcome (list Z) :=
  let fromlen := len from in
  let overhead := crypto_get_rsa_padding_overhead (crypto_get_rsa_padding padding) in
  let pkeylen := crypto_pk_keysize env in
  if is_no_padding padding && (fromlen <? pkeylen) then Fails
  else if negb force && (to_size_t (fromlen + overhead) <=? pkeylen) then
    crypto_pk_public_encrypt env from fromlen padding
  else
    cipher0 <- crypto_cipher_generate_key crypto_new_cipher_env rand ;;
    let cipher1 :=
      if is_no_padding padding
      then {| key := clear_high_bit (key cipher0); cipher := cipher cipher0 |}
      else cipher0 in
    let cipher2 := crypto_cipher_encrypt_init_cipher cipher1 in
    let prefix := to_size_t (pkeylen - overhead - CIPHER_KEY_LEN) in
    if prefix >? fromlen then Undef   (* memcpy reads past from[fromlen] *)
    else
      let buf := key cipher2 ++ firstn (Z.to_nat prefix) from in
      let symlen := to_size_t (fromlen - prefix) in
      match crypto_pk_public_encrypt env buf (to_size_t (pkeylen - overhead))
                                     padding with
      | Returns block =>
          if negb (len block =? to_int pkeylen) then Fails
          else
            r <- crypto_cipher_encrypt AES_keystream cipher2
                   (skipn (Z.to_nat prefix) from) symlen ;;
            tor_assert (to_size_t (len block + symlen) <? INT_MAX)
              (Returns (block ++ snd r))
      | Fails => Fails
      | Aborts => Aborts
      | Undef => Undef
      end.

(** [crypto_pk_private_hybrid_decrypt(env, to, from, fromlen, padding,
    warnOnFailure)] *)
Definition crypto_pk_private_hybrid_decrypt (env : crypto_pk_env_t)
           (from : list Z) (padding : pk_padding) : outcome (list Z) :=
  let fromlen := len from in
  let pkeylen := crypto_pk_keysize env in
  if fromlen <=? pkeylen then crypto_pk_private_decrypt env from fromlen padding
  else
    buf <- crypto_pk_private_decrypt env from pkeylen padding ;;
    let outlen := len buf in
    if outlen <? CIPHER_KEY_LEN then Fails
    else
      let cipher := crypto_create_init_cipher buf false in
      let head := skipn (Z.to_nat CIPHER_KEY_LEN) buf in
      let outlen := outlen - CIPHER_KEY_LEN in
      r <- crypto_cipher_decrypt AES_keystream cipher
             (skipn (Z.to_nat pkeylen) from) (to_size_t (fromlen - pkeylen)) ;;
      tor_assert (to_size_t (outlen + fromlen) <? INT_MAX)
        (Returns (head ++ snd r)).
End Hybrid.

(** What the hybrid functions rely on from OpenSSL's RSA: a ciphertext is
    one modulus long, decryption with the private key inverts encryption,
    padded encryption succeeds when the padded message fits, and raw
    encryption succeeds on a modulus-sized message below the modulus. *)
Record RSA_laws (k : RSA) : Prop := {
  rsa_enc_len : forall m pad c,
    RSA_public_encrypt k m pad = Some c -> len c = RSA_size k;
  rsa_dec_enc : forall m pad c,
    RSA_public_encrypt k m pad = Some c -> RSA_private_decrypt k c pad = Some m;
  rsa_enc_padded : forall m pad,
    pad <> RSA_NO_PADDING ->
    len m + crypto_get_rsa_padding_overhead pad <= RSA_size k ->
    RSA_public_encrypt k m pad <> None;
  rsa_enc_raw : forall m,
    len m = RSA_size k -> Forall is_byte m -> BN_bin2bn m < rsa_n k ->
    RSA_public_encrypt k m RSA_NO_PADDING <> None
}.

(** A stand-in key on which the functions can be run: not RSA, but an
    invertible encoding with RSA's size behaviour.  Raw "encryption"
    reverses a modulus-sized block below the modulus; padded "encryption"
    stores the length, the message and zero fill. *)
Definition toy_encrypt (K n : Z) (m : list Z) (pad : rsa_padding)
  : option (list Z) :=
  match pad with
  | RSA_NO_PADDING =>
      if (len m =? K) && (BN_bin2bn m <? n) then Some (rev m) else None
  | _ =>
      if len m + crypto_get_rsa_padding_overhead pad <=? K
      then Some (len m :: m ++ repeat 0 (Z.to_nat (K - 1 - len m)))
      else None
  end.

Definition toy_decrypt (K : Z) (c : list Z) (pad : rsa_padding)
  : option (list Z) :=
  match pad with
  | RSA_NO_PADDING => if len c =? K then Some (rev c) else None
  | _ =>
      match c with
      | [] => None
      | l :: rest => Some (firstn (Z.to_nat l) rest)
      end
  end.

Definition toy_rsa (K : Z) : RSA :=
  {| RSA_size := K;
     rsa_n := 2 ^ (8 * K) - 1;
     rsa_p := true;
     RSA_public_encrypt := toy_encrypt K (2 ^ (8 * K) - 1);
     RSA_private_decrypt := toy_decrypt K |}.

Definition toy_pk (K : Z) : crypto_pk_env_t := {| refs := 1; pk_key := toy_rsa K |}.

(** A stand-in keystream: the key bytes repeated, offset by the position. *)
Definition toy_keystream (k iv : list Z) (pos : Z) : Z :=
  (nth (Z.to_nat (pos mod 16)) k 0 + pos) mod 256.

(** ** Library initialisation ([crypto_global_init], [crypto_seed_rng]) *)

(** What a call does to the outside world, in order; each event is logged
    with the value [_crypto_global_initialized] had when it happened. *)
Inductive init_event :=
| ERR_load_crypto_strings
| OpenSSL_add_all_algorithms
| setup_openssl_threading
| ENGINE_load_builtin_engines
| ENGINE_register_all_complete
| log_engine
| RAND_poll
| open_entropy_file
| RAND_seed.

Record global_state := {
  _crypto_global_initialized : bool;
  trace : list (init_event * bool)
}.

Definition emit (e : init_event) (st : global_state) : global_state :=
  {| _crypto_global_initialized := _crypto_global_initialized st;
     trace := trace st ++ [(e, _crypto_global_initialized st)] |}.

(** What the operating system and OpenSSL answer during one call. *)
Inductive entropy_file := open_fails | reads (n : Z).

Record init_answers := {
  engines_registered : bool;          (* ENGINE_register_all_complete() != 0 *)
  rand_poll_status : Z;               (* RAND_poll() *)
  entropy_files : list entropy_file   (* /dev/srandom, /dev/urandom, /dev/random *)
}.

Definition ADD_ENTROPY : Z := 32.

(** The [for (i = 0; filenames[i]; ++i)] loop of [crypto_seed_rng]. *)
Fixpoint seed_from_files (files : list entropy_file) (poll : Z)
         (st : global_state) : Z * global_state :=
  match files with
  | [] => ((if poll =? 0 then -1 else 0), st)
  | open_fails :: rest => seed_from_files rest poll (emit open_entropy_file st)
  | reads n :: _ =>
      let st := emit open_entropy_file st in
      if negb (n =? ADD_ENTROPY) then (-1, st)
      else (0, emit RAND_seed st)
  end.

(** [crypto_seed_rng(startup)] on a Unix host with an OpenSSL that has
    [RAND_poll]; [poll_safe] is [RAND_POLL_IS_SAFE]. *)
Definition crypto_seed_rng (startup : bool) (poll_safe : bool)
           (ans : init_answers) (st : global_state) : Z * global_state :=
  let '(poll, st) :=
    if startup || poll_safe then (rand_poll_status ans, emit RAND_poll st)
    else (0, st) in
  seed_from_files (entropy_files ans) poll st.

Definition crypto_global_init (useAccel : Z) (poll_safe : bool)
           (ans : init_answers) (st : global_state) : Z * global_state :=
  if negb (_crypto_global_initialized st) then
    let st := emit ERR_load_crypto_strings st in
    let st := emit OpenSSL_add_all_algorithms st in
    let st := {| _crypto_global_initialized := true; trace := trace st |} in
    let st := emit setup_openssl_threading st in
    if useAccel >? 0 then
      let st := emit ENGINE_load_builtin_engines st in
      let st := emit ENGINE_register_all_complete st in
      if negb (engines_registered ans) then (-1, st)
      else
        let st := Nat.iter 6 (emit log_engine) st in
        crypto_seed_rng true poll_safe ans st
    else crypto_seed_rng true poll_safe ans st
  else (0, st).

Definition fresh_state : global_state :=
  {| _crypto_global_initialized := false; trace := [] |}.

(** The steps that can make the first call fail. *)
Definition is_fallible_step (e : init_event) : bool :=
  match e with
  | ENGINE_register_all_complete | RAND_poll | open_entropy_file | RAND_seed => true
  | _ => false
  end.

(** The accumulator [n] holding the pending sextets [pend]. *)
Definition b64_acc (pend : list Z) : Z := fold_left (fun a v => a * 64 + v) pend 0.

(** The loop followed by the [switch]. *)
Definition base64_finish (r : option (Z * Z * list Z)) : option (list Z) :=
  match r with
  | None => None
  | Some (n, n_idx, dest) => base64_leftover n n_idx dest
  end.

(** One entry of the table against the character classes. *)
Definition b64_table_entry_ok (k : nat) : bool :=
  let u := Z.of_nat k in
  nth k base64_decode_table B64.X =?
  (if u =? 61 then B64.PAD
   else if b64_is_ws b64_table_ws u then B64.SP
   else match b64_sextet u with Some v => v | None => B64.X end).

(** The class that position [i] of a fingerprint asks for. *)
Definition fp_position_ok (TOR_ISSPACE TOR_ISXDIGIT : Z -> bool)
           (s : list Z) (i : Z) : bool :=
  if i mod 5 =? 4 then TOR_ISSPACE (char_at s i) else TOR_ISXDIGIT (char_at s i).

(** [st'] continues the trace of [st], and every fallible step it adds was
    taken with the initialised flag already set. *)
Definition grows (st st' : global_state) : Prop :=
  exists new, trace st' = trace st ++ new
              /\ forall e b, In (e, b) new -> is_fallible_step e = true -> b = true.

(** The symmetric key as the hybrid envelope uses it: the high bit of its
    first byte is cleared when there is no padding. *)
Definition hybrid_key (padding : pk_padding) (k : list Z) : list Z :=
  if is_no_padding padding then clear_high_bit k else k.


(** * Further functions of crypto.c *)

From Stdlib Require Import Permutation.

(** ** Base32 encoding ([base32_encode]) *)

(** The 5-bit value [u] that the loop body computes for the character that
    starts at bit [bit]: [v] holds [src[bit/8]] in its high byte and, unless
    this is the last character, [src[bit/8 + 1]] in its low byte. *)
Definition base32_u (src : list Z) (nbits bit : Z) : Z :=
  let v0 := Z.shiftl (to_uint8 (nth (Z.to_nat (bit / 8)) src 0)) 8 in
  let v := if bit + 5 <? nbits
           then v0 + to_uint8 (nth (Z.to_nat (bit / 8 + 1)) src 0)
           else v0 in
  Z.land (Z.shiftr v (11 - bit mod 8)) 0x1F.

(** [dest[i] = BASE32_CHARS[u]] *)
Definition base32_char (src : list Z) (nbits bit : Z) : Z :=
  nth (Z.to_nat (base32_u src nbits bit)) BASE32_CHARS 0.

(** [base32_encode(dest, destlen, src, srclen)]: [Returns] the characters
    written before the terminating NUL.  [nbits] is a [size_t]; the
    counters [i] and [bit] are [unsigned int] and [bit < nbits] is a
    [size_t] comparison.
    - With [nbits <= UINT_MAX], [bit] runs through the multiples of 5 below
      [nbits] and reaches [nbits] without wrapping ([bit + 5] included),
      and [i] counts the [nbits/5] characters.
    - With [nbits > UINT_MAX], [bit] wraps before it reaches [nbits] and
      stays below it for ever: the loop goes on writing [dest[i]], past
      the [nbits/5 + 1] bytes asked for, and does not return. *)
Definition base32_encode (destlen : Z) (src : list Z) : outcome (list Z) :=
  let nbits := to_size_t (len src * 8) in
  tor_assert (nbits mod 5 =? 0)
    (tor_assert (nbits / 5 + 1 <=? destlen)
       (tor_assert (destlen <? SIZE_T_CEILING)
          (if nbits >? UINT_MAX then Undef
           else
             Returns (map (fun i => base32_char src nbits (5 * Z.of_nat i))
                          (seq 0 (Z.to_nat (nbits / 5))))))).

(** [src[j]] read as a [uint8_t]. *)
Definition byte_at (src : list Z) (j : Z) : Z := to_uint8 (nth (Z.to_nat j) src 0).

(** The five bits of the 16-bit window [B N] that start [off] bits in. *)
Definition u_of (B N off : Z) : Z :=
  Z.land (Z.shiftr (Z.shiftl B 8 + N) (11 - off)) 0x1F.

(** ** Random host names ([crypto_random_hostname]) *)

(** Storing [data] at offset [off] of a buffer; [Undef] if it does not fit. *)
Definition write_at (buf : list Z) (off : Z) (data : list Z) : outcome (list Z) :=
  if (off <? 0) || (len buf <? off + len data) then Undef
  else Returns (firstn (Z.to_nat off) buf ++ data
                ++ skipn (Z.to_nat (off + len data)) buf).

(** The C string that starts a buffer: the bytes before the first NUL. *)
Definition cstring (buf : list Z) : list Z := firstn (Z.to_nat (strlen buf)) buf.

(** What [strlcpy(dst, src, size)] stores at [dst]: at most [size - 1]
    characters of [src] and a NUL, nothing if [size] is 0. *)
Definition strlcpy (src : list Z) (size : Z) : list Z :=
  if size <=? 0 then []
  else firstn (Z.to_nat (Z.min (strlen src) (size - 1))) src ++ [0].

(** [rand_bytes_len]: [ceil(randlen*5/8)] rounded up to a multiple of 5,
    in C's truncating [int] arithmetic. *)
Definition hostname_rand_bytes_len (randlen : Z) : Z :=
  let n := Z.quot (randlen * 5 + 7) 8 in
  if negb (Z.rem n 5 =? 0) then n + (5 - Z.rem n 5) else n.

(** [crypto_random_hostname(min_rand_len, max_rand_len, prefix, suffix)].
    [draws] are the 32-bit values [crypto_rand_int] sees, [rand n] is what
    [crypto_rand] leaves in an [n]-byte buffer, and [heap i] is the byte
    that [tor_malloc] happens to return at offset [i] of the result.  The
    value returned is the C string at [result]; [None] means that
    [crypto_rand_int] is still drawing. *)
Definition crypto_random_hostname (min_rand_len max_rand_len : Z)
           (prefix suffix : list Z) (draws : list Z) (rand : Z -> list Z)
           (heap : Z -> Z) : outcome (option (list Z)) :=
  tor_assert (max_rand_len >=? min_rand_len)
    (drawn <- crypto_rand_int (to_uint32 (max_rand_len - min_rand_len + 1)) draws ;;
     match drawn with
     | None => Returns None
     | Some r =>
         let randlen := min_rand_len + r in
         let prefixlen := strlen prefix in
         let resultlen := to_size_t (prefixlen + strlen suffix + randlen + 16) in
         let rand_bytes_len := hostname_rand_bytes_len randlen in
         let rand_bytes := rand rand_bytes_len in
         let result := map (fun i => heap (Z.of_nat i)) (seq 0 (Z.to_nat resultlen)) in
         b1 <- write_at result 0 (firstn (Z.to_nat prefixlen) prefix) ;;
         enc <- base32_encode (to_size_t (resultlen - prefixlen)) rand_bytes ;;
         b2 <- write_at b1 prefixlen (enc ++ [0]) ;;
         b3 <- write_at b2 (prefixlen + randlen)
                 (strlcpy suffix (to_size_t (resultlen - (prefixlen + randlen)))) ;;
         Returns (Some (cstring b3))
     end).

(** ** Base64: whitespace, padding and short digests *)

(** The input with the decoder's whitespace characters removed. *)
Definition b64_strip_ws (src : list Z) : list Z :=
  filter (fun c => negb (b64_is_ws b64_table_ws c)) src.

(** [digest_from_base64(digest, d64)], the table-driven branch: the C
    string [d64] is decoded into a buffer of [DIGEST_LEN] bytes, and the
    call succeeds only if exactly [DIGEST_LEN] bytes came out. *)
Definition digest_from_base64 (d64 : list Z) : outcome (list Z) :=
  out <- base64_decode DIGEST_LEN (cstring d64) ;;
  if len out =? DIGEST_LEN then Returns out else Fails.

(** ** Fingerprints with spaces ([add_spaces_to_fp]) *)

(** The [while] loop, which runs while [in] points at a character and
    [out < end]: [inp] is what is left of the C
    string [in], [n] counts the characters since the last space and [room]
    is [end - out].  The result is what was stored and the room left. *)
Fixpoint add_spaces_loop (inp : list Z) (n room : Z) : list Z * Z :=
  match inp with
  | [] => ([], room)
  | c :: rest =>
      if (c =? 0) || (room <=? 0) then ([], room)
      else
        if (n + 1 =? 4) && negb (char_at rest 0 =? 0) && (0 <? room - 1) then
          let '(out, room') := add_spaces_loop rest 0 (room - 2) in
          (c :: 32 :: out, room')
        else
          let '(out, room') := add_spaces_loop rest (n + 1) (room - 1) in
          (c :: out, room')
  end.

(** [add_spaces_to_fp(out, outlen, in)]: the string stored in [out]. *)
Definition add_spaces_to_fp (outlen : Z) (inp : list Z) : outcome (list Z) :=
  let '(out, room') := add_spaces_loop inp 0 outlen in
  tor_assert (0 <? room') (Returns out).

(** ** Comparing public keys ([crypto_pk_cmp_keys]) *)

(** OpenSSL's [BN_cmp] on two numbers: -1, 0 or 1. *)
Definition BN_cmp (a b : Z) : Z :=
  if a <? b then -1 else if a =? b then 0 else 1.

(** The public part of an [RSA] object; the modulus may not be set yet. *)
Record RSA_public := {
  pub_n : option Z;
  pub_e : Z
}.

(** A [crypto_pk_env_t] whose [key] pointer may be NULL. *)
Record pk_handle := {
  handle_key : option RSA_public
}.

(** [crypto_pk_cmp_keys(a, b)]; [None] is a NULL pointer.  The two
    assertions are [PUBLIC_KEY_OK(a)] and [PUBLIC_KEY_OK(b)]. *)
Definition crypto_pk_cmp_keys (a b : option pk_handle) : outcome Z :=
  match a, b with
  | Some a', Some b' =>
      match handle_key a', handle_key b' with
      | Some ka, Some kb =>
          match pub_n ka with
          | None => Aborts
          | Some na =>
              match pub_n kb with
              | None => Aborts
              | Some nb =>
                  let result := BN_cmp na nb in
                  if negb (result =? 0) then Returns result
                  else Returns (BN_cmp (pub_e ka) (pub_e kb))
              end
          end
      | _, _ => Returns (-1)
      end
  | _, _ => Returns (-1)
  end.

(** A handle on a key with modulus [n] and exponent [e]. *)
Definition public_key (n e : Z) : option pk_handle :=
  Some {| handle_key := Some {| pub_n := Some n; pub_e := e |} |}.

(** ** 64-bit random integers ([crypto_rand_uint64]) *)

Definition UINT64_MAX : Z := 2 ^ 64 - 1.

(** The [while (1)] loop over the 64-bit values drawn; the result type is
    [uint64_t], so the reduced value is returned as it is. *)
Fixpoint crypto_rand_uint64_loop (max cutoff : Z) (draws : list Z) : option Z :=
  match draws with
  | [] => None
  | val :: rest =>
      if val <? cutoff then Some (val mod max)
      else crypto_rand_uint64_loop max cutoff rest
  end.

Definition rand_cutoff64 (max : Z) : Z := UINT64_MAX - (UINT64_MAX mod max).

Definition crypto_rand_uint64 (max : Z) (draws : list Z) : outcome (option Z) :=
  tor_assert (max <? UINT64_MAX)
    (tor_assert (max >? 0)
       (Returns (crypto_rand_uint64_loop max (rand_cutoff64 max) draws))).

(** ** Choosing from and shuffling a list ([smartlist_choose],
    [smartlist_shuffle]) *)

(** The draws that [crypto_rand_int] leaves unread: those after the first
    one below the cutoff. *)
Fixpoint crypto_rand_int_rest (cutoff : Z) (draws : list Z) : list Z :=
  match draws with
  | [] => []
  | val :: rest =>
      if val <? cutoff then rest else crypto_rand_int_rest cutoff rest
  end.

(** Modelled from the spec: a smartlist (container.h) is an ordered
    sequence with indexed get, set and swap; here a list, and [list_set]
    replaces the element at an index. *)
Fixpoint list_set {A : Type} (l : list A) (i : nat) (x : A) : list A :=
  match l, i with
  | [], _ => []
  | _ :: t, O => x :: t
  | h :: t, S i' => h :: list_set t i' x
  end.

(** Modelled from the spec: [smartlist_get], [None] outside the list. *)
Definition smartlist_get {A : Type} (sl : list A) (idx : Z) : option A :=
  if idx <? 0 then None else nth_error sl (Z.to_nat idx).

(** Modelled from the spec: [smartlist_swap] exchanges two positions of
    the list (and leaves it alone if either is outside). *)
Definition smartlist_swap {A : Type} (sl : list A) (idx1 idx2 : Z) : list A :=
  match smartlist_get sl idx1, smartlist_get sl idx2 with
  | Some a, Some b =>
      list_set (list_set sl (Z.to_nat idx1) b) (Z.to_nat idx2) a
  | _, _ => sl
  end.

(** [smartlist_choose(sl)]: inside [Returns], [None] means that
    [crypto_rand_int] is still drawing, [Some None] is the NULL returned for
    an empty list, [Some (Some x)] an element. *)
Definition smartlist_choose {A : Type} (sl : list A) (draws : list Z)
  : outcome (option (option A)) :=
  let n := Z.of_nat (length sl) in
  if negb (n =? 0) then
    drawn <- crypto_rand_int (to_uint32 n) draws ;;
    match drawn with
    | None => Returns None
    | Some idx => Returns (Some (smartlist_get sl idx))
    end
  else Returns (Some None).

(** The [for (i = smartlist_len(sl)-1; i > 0; --i)] loop of
    [smartlist_shuffle], from index [i] down; [None] inside [Returns] means
    that a [crypto_rand_int] call is still drawing. *)
Fixpoint smartlist_shuffle_from {A : Type} (i : nat) (sl : list A)
         (draws : list Z) : outcome (option (list A)) :=
  match i with
  | O => Returns (Some sl)
  | S i' =>
      let max := to_uint32 (Z.of_nat i + 1) in
      drawn <- crypto_rand_int max draws ;;
      match drawn with
      | None => Returns None
      | Some j =>
          smartlist_shuffle_from i' (smartlist_swap sl (Z.of_nat i) j)
            (crypto_rand_int_rest (rand_cutoff max) draws)
      end
  end.

Definition smartlist_shuffle {A : Type} (sl : list A) (draws : list Z)
  : outcome (option (list A)) :=
  smartlist_shuffle_from (length sl - 1) sl draws.

(** ** Key expansion, as its comment describes it *)

(** The stream named in the comment of [crypto_expand_key_material],
    [H(K | [00]) | H(K | [01]) | ...], up to the last one-byte counter. *)
Definition key_stream (key_in : list Z) : list Z :=
  flat_map (fun i => crypto_digest (key_in ++ [Z.of_nat i])) (seq 0 256).


(** ** Encrypting with a fresh IV ([crypto_cipher_encrypt_with_iv]) *)


(** ** Signatures ([crypto_pk_private_sign], [crypto_pk_public_checksig]) *)

Section Signatures.
(** OpenSSL's [RSA_private_encrypt] and [RSA_public_decrypt] on a key: the
    bytes written, or [None] for a negative return value. *)
Variable RSA_private_encrypt : RSA -> list Z -> rsa_padding -> option (list Z).
Variable RSA_public_decrypt : RSA -> list Z -> rsa_padding -> option (list Z).

Definition crypto_pk_public_checksig (env : crypto_pk_env_t) (from : list Z)
           (fromlen : Z) : outcome (list Z) :=
  tor_assert (fromlen <? INT_MAX)
    (if fromlen >? len from then Undef
     else
       match RSA_public_decrypt (pk_key env) (firstn (Z.to_nat fromlen) from)
                                RSA_PKCS1_PADDING with
       | None => Fails
       | Some m => Returns m
       end).

(** [crypto_pk_public_checksig_digest(env, data, datalen, sig, siglen)]:
    [Returns tt] is the return value 0.  The buffer holds what
    [crypto_pk_public_checksig] wrote; [memcmp] looks at its first
    [DIGEST_LEN] bytes. *)
Definition crypto_pk_public_checksig_digest (env : crypto_pk_env_t)
           (data sig : list Z) : outcome unit :=
  let digest := crypto_digest data in
  match crypto_pk_public_checksig env sig (len sig) with
  | Returns buf =>
      if negb (len buf =? DIGEST_LEN) then Fails
      else if list_eq_dec Z.eq_dec (firstn (Z.to_nat DIGEST_LEN) buf) digest
           then Returns tt
           else Fails
  | Fails => Fails
  | Aborts => Aborts
  | Undef => Undef
  end.

Definition crypto_pk_private_sign (env : crypto_pk_env_t) (from : list Z)
           (fromlen : Z) : outcome (list Z) :=
  tor_assert (fromlen <? INT_MAX)
    (if negb (rsa_p (pk_key env)) then Fails
     else if fromlen >? len from then Undef
     else
       match RSA_private_encrypt (pk_key env) (firstn (Z.to_nat fromlen) from)
                                 RSA_PKCS1_PADDING with
       | None => Fails
       | Some s => Returns s
       end).

Definition crypto_pk_private_sign_digest (env : crypto_pk_env_t) (from : list Z)
  : outcome (list Z) :=
  let digest := crypto_digest from in
  crypto_pk_private_sign env digest DIGEST_LEN.
End Signatures.

(** Stand-ins for the two signature operations, to run the functions on:
    a "signature" is the message behind a marker byte. *)
Definition toy_private_encrypt (k : RSA) (m : list Z) (pad : rsa_padding)
  : option (list Z) := Some (1 :: m).

Definition toy_public_decrypt (k : RSA) (s : list Z) (pad : rsa_padding)
  : option (list Z) :=
  match s with
  | 1 :: m => Some m
  | _ => None
  end.

(** ** Writing the public value ([crypto_dh_get_public]) *)

(** Modelled from the spec: OpenSSL's [BN_num_bytes], the length of the
    shortest big-endian form of a non-negative number, and [BN_bn2bin],
    which writes that form. *)
Definition BN_num_bytes (bn : Z) : Z :=
  if bn <=? 0 then 0 else (Z.log2 bn + 8) / 8.

Fixpoint big_endian (n : nat) (bn : Z) : list Z :=
  match n with
  | O => []
  | S k => big_endian k (bn / 256) ++ [bn mod 256]
  end.

Definition BN_bn2bin (bn : Z) : list Z :=
  big_endian (Z.to_nat (BN_num_bytes bn)) bn.

Definition DH_BYTES : Z := 1024 / 8.

(** [crypto_dh_get_public(dh, pubkey, pubkey_len)]: [pub_key] is
    [dh->dh->pub_key], [None] for NULL, and [gens] are the deliveries of
    [DH_generate_key] as in [crypto_dh_generate_public].  The result is
    the buffer [pubkey] afterwards. *)
Definition crypto_dh_get_public (pub_key : option Z) (gens : list (option Z))
           (pubkey_len : Z) : option (outcome (list Z)) :=
  let write (k : Z) : outcome (list Z) :=
    let bytes := BN_num_bytes k in
    tor_assert (bytes >=? 0)
      (if pubkey_len <? bytes then Fails
       else Returns (repeat 0 (Z.to_nat (pubkey_len - bytes)) ++ BN_bn2bin k)) in
  match pub_key with
  | Some k => Some (write k)
  | None =>
      match crypto_dh_generate_public gens with
      | None => None
      | Some (Returns k) => Some (write k)
      | Some Fails => Some Fails
      | Some Aborts => Some Aborts
      | Some Undef => Some Undef
      end
  end.

(** ** Seeding, seen from outside *)

(** What the first entropy file that opens delivers: the number of bytes
    read from it, [None] if no file opens. *)
Fixpoint first_opened (files : list entropy_file) : option Z :=
  match files with
  | [] => None
  | open_fails :: rest => first_opened rest
  | reads n :: _ => Some n
  end.

Definition is_RAND_seed (e : init_event) : bool :=
  match e with RAND_seed => true | _ => false end.

(** How often [RAND_seed] occurs in a trace. *)
Definition seedings (t : list (init_event * bool)) : nat :=
  length (filter (fun eb => is_RAND_seed (fst eb)) t).

(** ** The base64 text of RFC 4648, for comparison with the decoder *)

(** The character of a sextet in the alphabet [A-Za-z0-9+/]. *)
Definition b64_char (v : Z) : Z :=
  if v <? 26 then v + 65
  else if v <? 52 then v + 71
  else if v <? 62 then v - 4
  else if v =? 62 then 43
  else 47.

(** Three bytes give four sextets; one or two bytes at the end give two or
    three, the unused low bits zero. *)
Fixpoint b64_sextets_of (bytes : list Z) : list Z :=
  match bytes with
  | a :: b :: c :: rest =>
      a / 4 :: (a mod 4) * 16 + b / 16 :: (b mod 16) * 4 + c / 64 :: c mod 64
        :: b64_sextets_of rest
  | [] => []
  | [a] => [a / 4; (a mod 4) * 16]
  | [a; b] => [a / 4; (a mod 4) * 16 + b / 16; (b mod 16) * 4]
  end.

(** The encoding without the trailing [=] signs, and with them. *)
Definition rfc4648_unpadded (bytes : list Z) : list Z :=
  map b64_char (b64_sextets_of bytes).

Definition rfc4648_encode (bytes : list Z) : list Z :=
  rfc4648_unpadded bytes ++ repeat 61 ((3 - length bytes mod 3) mod 3).

(** ** Reference counts ([crypto_pk_dup_key], [crypto_free_pk_env]) *)







(** * Proofs *)

(** ** Bytes and lengths *)

Lemma to_uint8_range c : 0 <= to_uint8 c < 256.
Proof. unfold to_uint8. apply Z.mod_pos_bound. lia. Qed.

Lemma to_uint8_idem c : to_uint8 (to_uint8 c) = to_uint8 c.
Proof. unfold to_uint8. apply Z.mod_mod. lia. Qed.

Lemma to_uint8_small c : 0 <= c < 256 -> to_uint8 c = c.
Proof. intros. unfold to_uint8. apply Z.mod_small. lia. Qed.

Lemma len_app (a b : list Z) : len (a ++ b) = len a + len b.
Proof. unfold len. rewrite length_app. lia. Qed.

Lemma len_nonneg (a : list Z) : 0 <= len a.
Proof. unfold len. lia. Qed.

Lemma len_cons (x : Z) (a : list Z) : len (x :: a) = 1 + len a.
Proof. unfold len. cbn [length]. lia. Qed.

(** ** Base64 *)

Lemma b64_table_checked : forallb b64_table_entry_ok (seq 0 256) = true.
Proof. vm_compute. reflexivity. Qed.

Lemma b64_lookup_classes c :
  b64_lookup c =
  if to_uint8 c =? 61 then B64.PAD
  else if b64_is_ws b64_table_ws c then B64.SP
  else match b64_sextet c with Some v => v | None => B64.X end.
Proof.
  pose proof (to_uint8_range c) as Hu.
  pose proof b64_table_checked as Hall.
  rewrite forallb_forall in Hall.
  specialize (Hall (Z.to_nat (to_uint8 c))).
  assert (Hin : In (Z.to_nat (to_uint8 c)) (seq 0 256)) by (apply in_seq; lia).
  apply Hall in Hin. unfold b64_table_entry_ok in Hin.
  rewrite Z2Nat.id in Hin by lia.
  apply Z.eqb_eq in Hin.
  unfold b64_lookup. rewrite Hin.
  unfold b64_is_ws, b64_sextet. rewrite !to_uint8_idem. reflexivity.
Qed.

Lemma b64_sextet_range c v : b64_sextet c = Some v -> 0 <= v < 64.
Proof.
  unfold b64_sextet. pose proof (to_uint8_range c).
  repeat match goal with
         | |- context [if ?b then _ else _] => destruct b eqn:?
         end; intros E; inversion E; subst; lia.
Qed.

Lemma b64_acc_snoc pend v : b64_acc (pend ++ [v]) = b64_acc pend * 64 + v.
Proof. unfold b64_acc. rewrite fold_left_app. reflexivity. Qed.

Lemma b64_acc_bound pend :
  Forall (fun v => 0 <= v < 64) pend -> 0 <= b64_acc pend < 64 ^ Z.of_nat (length pend).
Proof.
  induction pend as [|v pend IH] using rev_ind; intros HF.
  - cbn. lia.
  - apply Forall_app in HF. destruct HF as [HF Hv].
    inversion Hv; subst. specialize (IH HF).
    rewrite b64_acc_snoc, length_app. cbn [length].
    replace (Z.of_nat (length pend + 1)) with (Z.succ (Z.of_nat (length pend))) by lia.
    rewrite Z.pow_succ_r by lia. nia.
Qed.

Lemma land_shiftl6_low n v :
  0 <= v < 64 -> Z.land (Z.shiftl n 6) v = 0.
Proof.
  intros Hv.
  replace v with (v mod 2 ^ 6) by (apply Z.mod_small; lia).
  rewrite <- Z.land_ones by lia.
  apply Z.bits_inj'. intros i Hi.
  rewrite !Z.land_spec, Z.bits_0.
  destruct (Z.ltb_spec i 6).
  - rewrite Z.shiftl_spec_low by lia. reflexivity.
  - rewrite Z.ones_spec_high by lia. rewrite !andb_false_r. reflexivity.
Qed.

(** Appending a sextet to the accumulator: shift, truncate, or. *)
Lemma b64_push n v :
  0 <= n < 2 ^ 18 -> 0 <= v < 64 ->
  Z.lor (to_uint32 (Z.shiftl n 6)) v = n * 64 + v.
Proof.
  intros Hn Hv. unfold to_uint32.
  assert (Hs : Z.shiftl n 6 = n * 64) by (rewrite Z.shiftl_mul_pow2; lia).
  rewrite Z.mod_small by lia.
  rewrite <- Z.lxor_lor by (apply land_shiftl6_low; exact Hv).
  rewrite <- Z.add_nocarry_lxor by (apply land_shiftl6_low; exact Hv).
  lia.
Qed.

Lemma land_255 x : 0 <= x -> Z.land x 255 = x mod 256.
Proof. intros. change 255 with (Z.ones 8). rewrite Z.land_ones by lia. reflexivity. Qed.

(** The bytes flushed for four sextets. *)
Lemma b64_flush n :
  0 <= n < 2 ^ 24 ->
  [to_uint8 (Z.shiftr n 16); Z.land (Z.shiftr n 8) 255; Z.land n 255]
  = [n / 65536; (n / 256) mod 256; n mod 256].
Proof.
  intros Hn. rewrite !Z.shiftr_div_pow2 by lia.
  change (2 ^ 16) with 65536. change (2 ^ 8) with 256.
  rewrite to_uint8_small.
  2:{ split; [apply Z.div_pos; lia | apply Z.div_lt_upper_bound; lia]. }
  rewrite !land_255; try lia. 2:{ apply Z.div_pos; lia. }
  reflexivity.
Qed.

(** The [switch (n_idx)] on the pending sextets agrees with the leftover
    rule of the specification. *)
Lemma base64_leftover_spec pend dest :
  (length pend < 4)%nat -> Forall (fun v => 0 <= v < 64) pend ->
  base64_leftover (b64_acc pend) (len pend) dest =
  match b64_spec_bytes pend with
  | None => None
  | Some o => Some (dest ++ o)
  end.
Proof.
  intros Hlen HF.
  destruct pend as [|a [|b [|c [|e pend]]]]; cbn [length] in Hlen; try lia.
  - cbn. rewrite app_nil_r. reflexivity.
  - reflexivity.
  - inversion HF as [|? ? Ha HF1]; subst. inversion HF1 as [|? ? Hb HF2]; subst.
    unfold base64_leftover, len, b64_acc. cbn [length fold_left Z.of_nat].
    cbn [b64_spec_bytes]. change (Z.pos (Pos.of_succ_nat 1) =? 1) with false.
    change (Z.pos (Pos.of_succ_nat 1) =? 2) with true. cbv iota.
    rewrite Z.shiftr_div_pow2 by lia. change (2 ^ 4) with 16.
    rewrite to_uint8_small.
    2:{ split; [apply Z.div_pos; lia | apply Z.div_lt_upper_bound; lia]. }
    replace (0 * 64 + a) with a by lia. reflexivity.
  - inversion HF as [|? ? Ha HF1]; subst. inversion HF1 as [|? ? Hb HF2]; subst.
    inversion HF2 as [|? ? Hc HF3]; subst.
    unfold base64_leftover, len, b64_acc. cbn [length fold_left Z.of_nat].
    cbn [b64_spec_bytes].
    change (Z.pos (Pos.of_succ_nat 2) =? 1) with false.
    change (Z.pos (Pos.of_succ_nat 2) =? 2) with false.
    change (Z.pos (Pos.of_succ_nat 2) =? 3) with true. cbv iota.
    rewrite !Z.shiftr_div_pow2 by lia. change (2 ^ 10) with 1024. change (2 ^ 2) with 4.
    rewrite (to_uint8_small (_ / 1024)).
    2:{ split; [apply Z.div_pos; lia | apply Z.div_lt_upper_bound; lia]. }
    replace (0 * 64 + a) with a by lia. reflexivity.
Qed.

Lemma b64_spec_bytes_flush a b c e vs :
  b64_spec_bytes (a :: b :: c :: e :: vs) =
  match b64_spec_bytes vs with
  | None => None
  | Some out =>
      let n := ((a * 64 + b) * 64 + c) * 64 + e in
      Some (n / 65536 :: (n / 256) mod 256 :: n mod 256 :: out)
  end.
Proof. reflexivity. Qed.

(** The loop and the [switch] together compute what the specification
    says, from any state whose accumulator holds fewer than four sextets. *)
Lemma base64_loop_spec src : forall pend dest,
  (length pend < 4)%nat -> Forall (fun v => 0 <= v < 64) pend ->
  base64_finish (base64_loop src (b64_acc pend) (len pend) dest) =
  match b64_spec_sextets b64_table_ws src with
  | None => None
  | Some vs =>
      match b64_spec_bytes (pend ++ vs) with
      | None => None
      | Some o => Some (dest ++ o)
      end
  end.
Proof.
  induction src as [|ch rest IH]; intros pend dest Hlen HF.
  - cbn [base64_loop b64_spec_sextets base64_finish]. rewrite app_nil_r.
    apply base64_leftover_spec; assumption.
  - cbn [base64_loop b64_spec_sextets]. rewrite b64_lookup_classes.
    destruct (to_uint8 ch =? 61) eqn:Hpad.
    + cbn [base64_finish]. change (B64.PAD =? B64.X) with false.
      change (B64.PAD =? B64.SP) with false. change (B64.PAD =? B64.PAD) with true.
      cbv iota. cbn [base64_finish]. rewrite app_nil_r.
      apply base64_leftover_spec; assumption.
    + destruct (b64_is_ws b64_table_ws ch) eqn:Hws.
      * change (B64.SP =? B64.X) with false. change (B64.SP =? B64.SP) with true.
        cbv iota. apply IH; assumption.
      * destruct (b64_sextet ch) as [v|] eqn:Hv.
        2:{ rewrite Z.eqb_refl. reflexivity. }
        pose proof (b64_sextet_range _ _ Hv) as Hr.
        assert (Hx : (v =? B64.X) = false) by (apply Z.eqb_neq; unfold B64.X; lia).
        assert (Hs : (v =? B64.SP) = false) by (apply Z.eqb_neq; unfold B64.SP; lia).
        assert (Hp : (v =? B64.PAD) = false) by (apply Z.eqb_neq; unfold B64.PAD; lia).
        rewrite Hx, Hs, Hp.
        pose proof (b64_acc_bound pend HF) as Hb.
        assert (Hb18 : 0 <= b64_acc pend < 2 ^ 18).
        { split; [lia|]. eapply Z.lt_le_trans; [apply Hb|].
          change (2 ^ 18) with (64 ^ 3). apply Z.pow_le_mono_r; lia. }
        cbv zeta. rewrite (b64_push _ _ Hb18 Hr), <- b64_acc_snoc.
        destruct (len pend + 1 =? 4) eqn:H4.
        -- apply Z.eqb_eq in H4. unfold len in H4.
           destruct pend as [|a [|b [|c [|e pend]]]]; cbn [length] in H4, Hlen; try lia.
           specialize (IH [] (dest ++ [to_uint8 (Z.shiftr (b64_acc ([a; b; c] ++ [v])) 16);
                                       Z.land (Z.shiftr (b64_acc ([a; b; c] ++ [v])) 8) 255;
                                       Z.land (b64_acc ([a; b; c] ++ [v])) 255])).
           change (b64_acc []) with 0 in IH. change (len []) with 0 in IH.
           rewrite IH by (cbn; auto).
           destruct (b64_spec_sextets b64_table_ws rest) as [vs|]; [|reflexivity].
           cbn [app]. rewrite b64_spec_bytes_flush.
           destruct (b64_spec_bytes vs) as [o|]; [|reflexivity].
           cbv zeta. rewrite <- app_assoc. f_equal. f_equal.
           assert (HF4 : Forall (fun v => 0 <= v < 64) ([a; b; c] ++ [v])).
           { apply Forall_app. split; auto. }
           pose proof (b64_acc_bound _ HF4) as Hb4. cbn [length app] in Hb4.
           rewrite b64_flush.
           2:{ change (2 ^ 24) with (64 ^ Z.of_nat 4). exact Hb4. }
           unfold b64_acc. cbn [fold_left app].
           replace (0 * 64 + a) with a by lia. reflexivity.
        -- apply Z.eqb_neq in H4.
           replace (len pend + 1) with (len (pend ++ [v])) by (rewrite len_app; reflexivity).
           rewrite IH.
           ++ destruct (b64_spec_sextets b64_table_ws rest) as [vs|]; [|reflexivity].
              rewrite <- app_assoc. reflexivity.
           ++ rewrite length_app. cbn [length]. unfold len in H4. lia.
           ++ apply Forall_app. split; auto.
Qed.

(** Sizes: the sextets are no more than the characters, and the bytes are
    three quarters of the sextets. *)
Lemma b64_spec_sextets_len ws src vs :
  b64_spec_sextets ws src = Some vs -> len vs <= len src.
Proof.
  revert vs. induction src as [|c rest IH]; intros vs; cbn [b64_spec_sextets].
  - intros E; inversion E; subst. lia.
  - rewrite len_cons. pose proof (len_nonneg rest).
    destruct (to_uint8 c =? 61).
    + intros E; inversion E; subst. unfold len in *. cbn [length] in *. lia.
    + destruct (b64_is_ws ws c).
      * intros E. specialize (IH _ E). lia.
      * destruct (b64_sextet c); [|discriminate].
        destruct (b64_spec_sextets ws rest) as [vs'|]; [|discriminate].
        intros E; inversion E; subst. specialize (IH _ eq_refl).
        rewrite len_cons. lia.
Qed.

Lemma b64_spec_bytes_len : forall (k : nat) vs o,
  (length vs <= k)%nat -> b64_spec_bytes vs = Some o -> 4 * len o <= 3 * len vs.
Proof.
  induction k as [|k IH]; intros vs o Hk.
  - destruct vs; cbn [length] in Hk; [|lia]. cbn. intros E; inversion E. cbn. lia.
  - destruct vs as [|a [|b [|c [|e vs]]]].
    + cbn. intros E; inversion E. cbn. lia.
    + discriminate.
    + cbn. intros E; inversion E. cbn. lia.
    + cbn. intros E; inversion E. cbn. lia.
    + rewrite b64_spec_bytes_flush.
      destruct (b64_spec_bytes vs) as [o'|] eqn:Ho; [|discriminate].
      intros E; inversion E; subst.
      assert (Hk' : (length vs <= k)%nat) by (cbn [length] in Hk; lia).
      specialize (IH vs o' Hk' Ho).
      rewrite !len_cons. lia.
Qed.

Lemma to_ssize_t_small z : 0 <= z < SIZE_T_CEILING -> to_ssize_t z = z.
Proof.
  unfold SIZE_T_CEILING. intros H.
  assert (E : 2 ^ 64 = 2 * 2 ^ 63) by reflexivity.
  unfold to_ssize_t. rewrite Z.mod_small by lia.
  destruct (Z.ltb_spec z (2 ^ 63)); [reflexivity | lia].
Qed.

Lemma to_ssize_t_ceiling : to_ssize_t SIZE_T_CEILING = - SIZE_T_CEILING.
Proof. reflexivity. Qed.

(** With room in the destination, the decoder computes the specification's
    function, with the whitespace set of the table; only that a
    destination of exactly [SIZE_T_CEILING] bytes, negative as an
    [ssize_t], turns every result into a failed assertion. *)
Lemma base64_decode_runs destlen src :
  len src * 3 / 4 <= destlen <= SIZE_T_CEILING ->
  len src <= INT_MAX ->
  base64_decode destlen src =
  match base64_spec b64_table_ws src with
  | Returns out => if destlen <? SIZE_T_CEILING then Returns out else Aborts
  | r => r
  end.
Proof.
  intros [Hlo Hhi] Hmax. unfold base64_decode, base64_spec.
  pose proof (len_nonneg src) as Hnn.
  assert (Hd0 : 0 <= destlen).
  { eapply Z.le_trans; [|exact Hlo]. apply Z.div_pos; lia. }
  destruct (destlen <? len src * 3 / 4) eqn:H1; [apply Z.ltb_lt in H1; lia|].
  destruct (destlen >? SIZE_T_CEILING) eqn:H2; [apply Z.gtb_lt in H2; lia|].
  pose proof (base64_loop_spec src [] []) as Hspec.
  change (b64_acc []) with 0 in Hspec. change (len []) with 0 in Hspec.
  specialize (Hspec ltac:(cbn; lia) ltac:(constructor)).
  unfold base64_finish in Hspec. cbn [app] in Hspec.
  destruct (b64_spec_sextets b64_table_ws src) as [vs|] eqn:Hvs.
  - destruct (b64_spec_bytes vs) as [o|] eqn:Ho.
    + destruct (base64_loop src 0 0 []) as [[[n i] dd]|]; [|discriminate].
      rewrite Hspec.
      pose proof (b64_spec_sextets_len _ _ _ Hvs) as L1.
      pose proof (b64_spec_bytes_len _ _ _ (le_n _) Ho) as L2.
      assert (Hol : len o <= len src * 3 / 4).
      { apply Z.div_le_lower_bound; lia. }
      assert (Hos : len o <= len src).
      { pose proof (len_nonneg o). lia. }
      pose proof (len_nonneg o) as Ho0.
      unfold tor_assert.
      destruct (Z.ltb_spec destlen SIZE_T_CEILING) as [Hlt|Hge].
      * rewrite to_ssize_t_small by lia.
        destruct (len o <=? destlen) eqn:A1; [|apply Z.leb_gt in A1; lia].
        destruct (len o <=? INT_MAX) eqn:A2; [|apply Z.leb_gt in A2; lia].
        reflexivity.
      * assert (destlen = SIZE_T_CEILING) by lia. subst destlen.
        rewrite to_ssize_t_ceiling.
        destruct (Z.leb_spec (len o) (- SIZE_T_CEILING)) as [A1|A1];
          [unfold SIZE_T_CEILING in A1; lia | reflexivity].
    + destruct (base64_loop src 0 0 []) as [[[n i] dd]|]; [|reflexivity].
      rewrite Hspec. reflexivity.
  - destruct (base64_loop src 0 0 []) as [[[n i] dd]|]; [|reflexivity].
    rewrite Hspec. reflexivity.
Qed.

(** Below [SIZE_T_CEILING] the decoder is the specification's function. *)
Lemma base64_decode_refines destlen src :
  len src * 3 / 4 <= destlen < SIZE_T_CEILING ->
  len src <= INT_MAX ->
  base64_decode destlen src = base64_spec b64_table_ws src.
Proof.
  intros [Hlo Hhi] Hmax. rewrite base64_decode_runs by (try split; lia).
  destruct (Z.ltb_spec destlen SIZE_T_CEILING); [|lia].
  destruct (base64_spec b64_table_ws src); reflexivity.
Qed.

(** C6 (amended): for an input of at most [INT_MAX] bytes and an output
    buffer of at least [srclen*3/4] and fewer than [SIZE_T_CEILING] bytes,
    [base64_decode] is the function of the specification (input read up
    to the first [=], whitespace skipped, any other byte outside the
    alphabet an error, leftover of 0, 2 and 3 sextets giving 0, 1 and 2
    bytes and a leftover of 1 an error) where the whitespace bytes are
    TAB, LF, VT, CR and SP; a form feed is rejected like any other byte
    outside the alphabet.  Padding is not verified: ["YQ=="], ["YQ"] and
    ["YQ==="] all decode to ["a"].  A buffer of exactly [SIZE_T_CEILING]
    bytes passes the length guard but trips the assertion on every input
    that decodes. *)
Theorem C6_base64_decode_spec :
  (forall destlen src,
      len src * 3 / 4 <= destlen < SIZE_T_CEILING ->
      len src <= INT_MAX ->
      base64_decode destlen src = base64_spec b64_table_ws src)
  /\ base64_decode 3 (bytes_of_string "YQ==") = Returns (bytes_of_string "a")
  /\ base64_decode 3 (bytes_of_string "YQ") = Returns (bytes_of_string "a")
  /\ base64_decode 3 (bytes_of_string "YQ===") = Returns (bytes_of_string "a")
  /\ (forall destlen pre post,
         ~ In 61 (map to_uint8 pre) ->
         base64_spec b64_table_ws (pre ++ 12 :: post) = Fails
         /\ (len (pre ++ 12 :: post) * 3 / 4 <= destlen <= SIZE_T_CEILING ->
             len (pre ++ 12 :: post) <= INT_MAX ->
             base64_decode destlen (pre ++ 12 :: post) = Fails))
  /\ (forall src out,
         len src <= INT_MAX ->
         base64_spec b64_table_ws src = Returns out ->
         base64_decode SIZE_T_CEILING src = Aborts).
Proof.
  split; [exact base64_decode_refines|].
  split; [reflexivity|]. split; [reflexivity|]. split; [reflexivity|].
  split.
  - intros destlen pre post Hnopad.
    assert (Hspec : base64_spec b64_table_ws (pre ++ 12 :: post) = Fails).
    { unfold base64_spec.
      assert (Hs : b64_spec_sextets b64_table_ws (pre ++ 12 :: post) = None).
      { clear destlen. induction pre as [|c pre IH].
        - reflexivity.
        - cbn [app b64_spec_sextets] in *.
          destruct (to_uint8 c =? 61) eqn:Hc.
          + exfalso. apply Hnopad. left. apply Z.eqb_eq in Hc. exact Hc.
          + assert (Hn' : ~ In 61 (map to_uint8 pre)).
            { intros Hin. apply Hnopad. right. exact Hin. }
            destruct (b64_is_ws b64_table_ws c).
            * apply IH; assumption.
            * destruct (b64_sextet c); [|reflexivity].
              rewrite IH by assumption. reflexivity. }
      rewrite Hs. reflexivity. }
    split; [exact Hspec|].
    intros Hd Hl. rewrite base64_decode_runs by assumption.
    rewrite Hspec. reflexivity.
  - intros src out Hl Hspec.
    rewrite base64_decode_runs; [rewrite Hspec; reflexivity | | exact Hl].
    pose proof (len_nonneg src) as Hnn.
    assert (HI : INT_MAX < 2 ^ 62) by reflexivity.
    assert (E : SIZE_T_CEILING = 2 * 2 ^ 62) by reflexivity.
    split; [|lia].
    apply Z.div_le_upper_bound; lia.
Qed.

Lemma C6_base64_decode_spec_witness :
  base64_decode 3 (bytes_of_string "YQ==")
  = base64_spec b64_table_ws (bytes_of_string "YQ==").
Proof.
  apply (proj1 C6_base64_decode_spec).
  - vm_compute. split; [discriminate | reflexivity].
  - vm_compute. discriminate.
Defined.

(** C6 as stated fails on a form feed: were FF a no-op like the other five
    whitespace bytes, ["YQ\f=="] would decode to ["a"]; the code returns -1. *)
Lemma C6_counterexample_form_feed :
  base64_spec b64_claimed_ws [89; 81; 12; 61; 61] = Returns [97]
  /\ base64_decode 3 [89; 81; 12; 61; 61] = Fails
  /\ base64_decode 3 [89; 81; 11; 61; 61] = Returns [97].
Proof. repeat split; reflexivity. Qed.

(** ** Base32 *)

Lemma BASE32_CHARS_ranges :
  BASE32_CHARS = map Z.of_nat (seq 97 26) ++ map Z.of_nat (seq 50 6).
Proof. reflexivity. Qed.

Lemma in_base32_alphabet_iff c :
  in_base32_alphabet c = true <-> (97 <= c <= 122 \/ 50 <= c <= 55).
Proof.
  unfold in_base32_alphabet. rewrite existsb_exists, BASE32_CHARS_ranges.
  split.
  - intros [x [Hin Hx]]. apply Z.eqb_eq in Hx. subst x.
    apply in_app_or in Hin.
    destruct Hin as [Hin|Hin]; apply in_map_iff in Hin;
      destruct Hin as [k [Hk Hin]]; apply in_seq in Hin; lia.
  - intros H. exists c. split; [|apply Z.eqb_refl].
    apply in_or_app.
    destruct H as [H|H]; [left|right]; apply in_map_iff;
      exists (Z.to_nat c); (split; [lia | apply in_seq; lia]).
Qed.

Lemma base32_accepts_iff c :
  base32_accepts c = true <-> (97 <= c <= 122 \/ 50 <= c <= 55 \/ 65 <= c <= 90).
Proof.
  unfold base32_accepts. rewrite orb_true_iff, in_base32_alphabet_iff.
  unfold is_upper. rewrite andb_true_iff, !Z.leb_le. tauto.
Qed.

Lemma base32_value_accepts c :
  base32_value c <> None <-> base32_accepts c = true.
Proof.
  rewrite base32_accepts_iff. unfold base32_value.
  destruct (Z.gtb_spec c 0x60), (Z.ltb_spec c 0x7B),
           (Z.gtb_spec c 0x31), (Z.ltb_spec c 0x38),
           (Z.gtb_spec c 0x40), (Z.ltb_spec c 0x5B);
    cbn [andb]; split; intros; try discriminate; try lia; try congruence.
Qed.

Lemma base32_value_range c v : base32_value c = Some v -> 0 <= v < 32.
Proof.
  unfold base32_value.
  destruct (Z.gtb_spec c 0x60), (Z.ltb_spec c 0x7B),
           (Z.gtb_spec c 0x31), (Z.ltb_spec c 0x38),
           (Z.gtb_spec c 0x40), (Z.ltb_spec c 0x5B);
    cbn [andb]; intros E; inversion E; subst; lia.
Qed.

Lemma base32_value_to_lower c : base32_value (to_lower c) = base32_value c.
Proof.
  unfold to_lower, is_upper.
  destruct (Z.leb_spec 65 c), (Z.leb_spec c 90); cbn [andb]; try reflexivity.
  unfold base32_value.
  destruct (Z.gtb_spec (c + 32) 0x60), (Z.ltb_spec (c + 32) 0x7B); try lia.
  destruct (Z.gtb_spec c 0x60), (Z.ltb_spec c 0x7B),
           (Z.gtb_spec c 0x31), (Z.ltb_spec c 0x38),
           (Z.gtb_spec c 0x40), (Z.ltb_spec c 0x5B);
    cbn [andb]; try lia. f_equal. lia.
Qed.

Lemma base32_values_to_lower src :
  base32_values (map to_lower src) = base32_values src.
Proof.
  induction src as [|c rest IH]; [reflexivity|].
  cbn [map base32_values]. rewrite base32_value_to_lower, IH. reflexivity.
Qed.

Lemma base32_values_none src :
  base32_values src = None <-> exists c, In c src /\ base32_accepts c = false.
Proof.
  induction src as [|c rest IH]; cbn [base32_values].
  - split; [discriminate | intros [c [[] _]]].
  - destruct (base32_value c) as [v|] eqn:Hv.
    + assert (Hacc : base32_accepts c = true).
      { apply base32_value_accepts. congruence. }
      destruct (base32_values rest) as [vs|].
      * split; [discriminate|].
        intros [x [[Hx|Hx] Hf]]; [subst; congruence|].
        assert (Hno : Some vs = None) by (apply IH; exists x; auto).
        discriminate.
      * split; [|reflexivity]. intros _.
        destruct (proj1 IH eq_refl) as [x [Hx Hf]]. exists x. split; [right|]; auto.
    + split; [|reflexivity]. intros _. exists c. split; [left; reflexivity|].
      destruct (base32_accepts c) eqn:Hacc; [|reflexivity].
      apply base32_value_accepts in Hacc. congruence.
Qed.

Lemma base32_assemble_len tmp nbits :
  0 <= nbits -> len (base32_assemble tmp nbits) = nbits / 8.
Proof.
  intros H. unfold base32_assemble, len. rewrite length_map, length_seq.
  apply Z2Nat.id. apply Z.div_pos; lia.
Qed.

(** C9 (amended): given the assertions on lengths, and an input short
    enough for the 32-bit loop counters ([srclen*5 <= UINT_MAX]),
    [base32_decode] fails exactly on the inputs holding a character
    outside [a-z], [2-7] and [A-Z]; on all other inputs it returns 0 with
    [srclen*5/8] bytes written, and upper-case letters decode like their
    lower-case forms. *)
Theorem C9_base32_decode_accepts (destlen : Z) (src : list Z)
        (Hbits : (len src * 5) mod 8 = 0)
        (Hdest : len src * 5 / 8 <= destlen < SIZE_T_CEILING)
        (Hsize : len src * 5 <= UINT_MAX) :
  (base32_decode destlen src = Fails
   <-> exists c, In c src /\ base32_accepts c = false)
  /\ (forallb base32_accepts src = true ->
      exists out, base32_decode destlen src = Returns out
                  /\ len out = len src * 5 / 8
                  /\ base32_decode destlen (map to_lower src) = Returns out).
Proof.
  assert (Hrun : forall s, len s = len src ->
            base32_decode destlen s =
            match base32_values s with
            | None => Fails
            | Some tmp => Returns (base32_assemble tmp (len src * 5))
            end).
  { intros s Hs. unfold base32_decode, tor_assert. rewrite Hs.
    pose proof (len_nonneg src) as Hnn.
    assert (HU : UINT_MAX < 2 ^ 64) by reflexivity.
    assert (Hprod : to_size_t (len src * 5) = len src * 5).
    { unfold to_size_t. apply Z.mod_small. lia. }
    rewrite Hprod.
    destruct (Z.eqb_spec (len src * 5 mod 8) 0) as [_|Hn]; [|contradiction].
    destruct (Z.leb_spec (len src * 5 / 8) destlen); [|lia].
    destruct (Z.ltb_spec destlen SIZE_T_CEILING); [|lia].
    destruct (Z.gtb_spec (len src) UINT_MAX); [lia|].
    destruct (Z.gtb_spec (len src * 5) UINT_MAX); [lia|].
    reflexivity. }
  split.
  - rewrite (Hrun src eq_refl), <- base32_values_none.
    destruct (base32_values src); split; intros; congruence.
  - intros Hall.
    destruct (base32_values src) as [tmp|] eqn:Htmp.
    + exists (base32_assemble tmp (len src * 5)).
      split; [rewrite (Hrun src eq_refl), Htmp; reflexivity|].
      split; [apply base32_assemble_len; pose proof (len_nonneg src); lia|].
      rewrite Hrun.
      * rewrite base32_values_to_lower, Htmp. reflexivity.
      * unfold len. rewrite length_map. reflexivity.
    + exfalso. apply base32_values_none in Htmp.
      destruct Htmp as [c [Hin Hf]].
      rewrite forallb_forall in Hall. specialize (Hall c Hin). congruence.
Qed.

Lemma C9_base32_decode_accepts_witness :
  (base32_decode 5 (bytes_of_string "MFRGGZDF") = Fails
   <-> exists c, In c (bytes_of_string "MFRGGZDF") /\ base32_accepts c = false)
  /\ (forallb base32_accepts (bytes_of_string "MFRGGZDF") = true ->
      exists out, base32_decode 5 (bytes_of_string "MFRGGZDF") = Returns out
                  /\ len out = len (bytes_of_string "MFRGGZDF") * 5 / 8
                  /\ base32_decode 5 (map to_lower (bytes_of_string "MFRGGZDF"))
                     = Returns out).
Proof.
  apply (C9_base32_decode_accepts 5 (bytes_of_string "MFRGGZDF")).
  - reflexivity.
  - vm_compute. split; [discriminate | reflexivity].
  - vm_compute. discriminate.
Defined.

(** C9 as stated fails on upper-case input: ["MFRGGZDF"] has no character
    of the lower-case alphabet, yet it decodes (to ["abcde"]) and the
    function returns 0. *)
Lemma C9_counterexample_upper_case :
  forallb in_base32_alphabet (bytes_of_string "MFRGGZDF") = false
  /\ existsb in_base32_alphabet (bytes_of_string "MFRGGZDF") = false
  /\ base32_decode 5 (bytes_of_string "MFRGGZDF")
     = Returns (bytes_of_string "abcde").
Proof. repeat split; reflexivity. Qed.

(** ** Fingerprint syntax *)

Lemma char_at_cons c rest i :
  0 < i -> char_at (c :: rest) i = char_at rest (i - 1).
Proof.
  intros Hi. unfold char_at.
  replace (Z.to_nat i) with (S (Z.to_nat (i - 1))) by lia. reflexivity.
Qed.

Lemma strlen_nonneg s : 0 <= strlen s.
Proof.
  induction s as [|c rest IH]; cbn [strlen]; [lia|].
  destruct (c =? 0); lia.
Qed.

(** [strlen] is the index of the first NUL. *)
Lemma strlen_iff s : forall n, 0 <= n ->
  strlen s = n <->
  (forall i, 0 <= i < n -> char_at s i <> 0) /\ char_at s n = 0.
Proof.
  induction s as [|c rest IH]; intros n Hn.
  - cbn [strlen]. split.
    + intros <-. split; [intros i Hi; lia|]. reflexivity.
    + intros [Hall _]. destruct (Z.eq_dec n 0) as [->|Hne]; [reflexivity|].
      exfalso. apply (Hall 0); [lia|]. reflexivity.
  - cbn [strlen]. pose proof (strlen_nonneg rest) as Hr.
    destruct (Z.eqb_spec c 0) as [->|Hc].
    + split.
      * intros <-. split; [intros i Hi; lia | reflexivity].
      * intros [Hall _]. destruct (Z.eq_dec n 0) as [->|Hne]; [reflexivity|].
        exfalso. apply (Hall 0); [lia|]. reflexivity.
    + destruct (Z.eq_dec n 0) as [->|Hne].
      * split; [lia|]. intros [_ H0]. exfalso. apply Hc. exact H0.
      * rewrite char_at_cons by lia.
        assert (Hn1 : 0 <= n - 1) by lia.
        specialize (IH (n - 1) Hn1).
        split.
        -- intros E. assert (E' : strlen rest = n - 1) by lia.
           apply IH in E'. destruct E' as [Hall Hend]. split; [|exact Hend].
           intros i Hi. destruct (Z.eq_dec i 0) as [->|Hi0]; [exact Hc|].
           rewrite char_at_cons by lia. apply Hall. lia.
        -- intros [Hall Hend].
           assert (E' : strlen rest = n - 1).
           { apply IH. split; [|exact Hend]. intros i Hi.
             specialize (Hall (i + 1)). rewrite char_at_cons in Hall by lia.
             replace (i + 1 - 1) with i in Hall by lia. apply Hall. lia. }
           lia.
Qed.

Section FingerprintFacts.
Variable TOR_ISSPACE TOR_ISXDIGIT : Z -> bool.

Lemma fingerprint_loop_iff s : forall todo i,
  fingerprint_loop TOR_ISSPACE TOR_ISXDIGIT s i todo = true
  <-> forall j, i <= j < i + Z.of_nat todo ->
                fp_position_ok TOR_ISSPACE TOR_ISXDIGIT s j = true.
Proof.
  induction todo as [|todo IH]; intros i.
  - cbn. split; [intros _ j Hj; lia | reflexivity].
  - cbn [fingerprint_loop].
    assert (Hstep : forall b : bool,
               (if negb b then false
                else fingerprint_loop TOR_ISSPACE TOR_ISXDIGIT s (i + 1) todo) = true
               <-> b = true /\ forall j, i + 1 <= j < i + 1 + Z.of_nat todo ->
                     fp_position_ok TOR_ISSPACE TOR_ISXDIGIT s j = true).
    { intros b. rewrite <- IH. destruct b; cbn; intuition discriminate. }
    assert (Hsplit : forall b : bool,
               fp_position_ok TOR_ISSPACE TOR_ISXDIGIT s i = b ->
               (b = true /\ forall j, i + 1 <= j < i + 1 + Z.of_nat todo ->
                     fp_position_ok TOR_ISSPACE TOR_ISXDIGIT s j = true)
               <-> forall j, i <= j < i + Z.of_nat (S todo) ->
                     fp_position_ok TOR_ISSPACE TOR_ISXDIGIT s j = true).
    { intros b Hb. split.
      - intros [H1 H2] j Hj. destruct (Z.eq_dec j i) as [->|Hne].
        + congruence.
        + apply H2. lia.
      - intros H. split.
        + rewrite <- Hb. apply H. lia.
        + intros j Hj. apply H. lia. }
    unfold fp_position_ok in Hsplit at 1.
    destruct (i mod 5 =? 4); rewrite Hstep; apply Hsplit; reflexivity.
Qed.
End FingerprintFacts.

(** C8 (amended): for character classes that reject NUL,
    [crypto_pk_check_fingerprint_syntax s] is true exactly when [s] is 49
    characters long, every position [i] with [i mod 5 = 4] holds a
    character for which [TOR_ISSPACE] is true and every other position one
    for which [TOR_ISXDIGIT] is true (a hexadecimal digit of either case,
    not only upper case). *)
Theorem C8_fingerprint_syntax (TOR_ISSPACE TOR_ISXDIGIT : Z -> bool)
        (Hspace0 : TOR_ISSPACE 0 = false) (Hxdigit0 : TOR_ISXDIGIT 0 = false)
        (s : list Z) :
  crypto_pk_check_fingerprint_syntax TOR_ISSPACE TOR_ISXDIGIT s = true
  <-> strlen s = 49
      /\ forall i, 0 <= i < 49 ->
           (if i mod 5 =? 4 then TOR_ISSPACE (char_at s i)
            else TOR_ISXDIGIT (char_at s i)) = true.
Proof.
  unfold crypto_pk_check_fingerprint_syntax.
  pose proof (fingerprint_loop_iff TOR_ISSPACE TOR_ISXDIGIT s
                (Z.to_nat FINGERPRINT_LEN) 0) as Hloop.
  change (Z.of_nat (Z.to_nat FINGERPRINT_LEN)) with 49 in Hloop.
  change (0 + 49) with 49 in Hloop. unfold fp_position_ok in Hloop.
  change FINGERPRINT_LEN with 49 in *.
  rewrite (strlen_iff s 49) by lia.
  assert (Hnz : (forall j, 0 <= j < 49 ->
                   (if j mod 5 =? 4 then TOR_ISSPACE (char_at s j)
                    else TOR_ISXDIGIT (char_at s j)) = true) ->
                forall i, 0 <= i < 49 -> char_at s i <> 0).
  { intros Hall i Hi E. specialize (Hall i Hi). rewrite E in Hall.
    destruct (i mod 5 =? 4); congruence. }
  destruct (fingerprint_loop TOR_ISSPACE TOR_ISXDIGIT s 0 (Z.to_nat 49)).
  - assert (Hall := proj1 Hloop eq_refl).
    destruct (Z.eqb_spec (char_at s 49) 0) as [E|E]; cbn [negb].
    + split; [|reflexivity]. intros _. split; [split|]; auto.
    + split; [discriminate|]. intros [[_ E'] _]. contradiction.
  - split; [discriminate|]. intros [_ Hall].
    apply Hloop in Hall. discriminate.
Qed.

Lemma C8_fingerprint_syntax_witness :
  crypto_pk_check_fingerprint_syntax c_isspace c_isxdigit
    (bytes_of_string "ABCD EF01 2345 6789 ABCD EF01 2345 6789 ABCD EF01") = true
  <-> strlen (bytes_of_string "ABCD EF01 2345 6789 ABCD EF01 2345 6789 ABCD EF01") = 49
      /\ forall i, 0 <= i < 49 ->
           (if i mod 5 =? 4
            then c_isspace (char_at (bytes_of_string
                   "ABCD EF01 2345 6789 ABCD EF01 2345 6789 ABCD EF01") i)
            else c_isxdigit (char_at (bytes_of_string
                   "ABCD EF01 2345 6789 ABCD EF01 2345 6789 ABCD EF01") i)) = true.
Proof.
  apply (C8_fingerprint_syntax c_isspace c_isxdigit); reflexivity.
Defined.

(** C8 as stated fails on lower-case digits: with the C library's
    character classes behind the two macros, a fingerprint written in lower
    case passes the check although none of its letters is an upper-case
    hexadecimal digit. *)
Lemma C8_counterexample_lower_case :
  crypto_pk_check_fingerprint_syntax c_isspace c_isxdigit
    (bytes_of_string "abcd ef01 2345 6789 abcd ef01 2345 6789 abcd ef01") = true
  /\ is_upper_hex (char_at (bytes_of_string
       "abcd ef01 2345 6789 abcd ef01 2345 6789 abcd ef01") 0) = false.
Proof. split; reflexivity. Qed.

(** ** Bounded random integers *)

Lemma rand_cutoff_multiple max :
  0 < max -> rand_cutoff max = max * (UINT_MAX / max).
Proof.
  intros H. unfold rand_cutoff.
  pose proof (Z.div_mod UINT_MAX max ltac:(lia)). lia.
Qed.

(** The loop returns the first draw below the cutoff, reduced. *)
Lemma crypto_rand_int_loop_first max cutoff rejected val rest :
  Forall (fun v => cutoff <= v) rejected -> val < cutoff ->
  crypto_rand_int_loop max cutoff (rejected ++ val :: rest)
  = Some (to_int (val mod max)).
Proof.
  intros Hrej Hval. induction Hrej as [|v rejected Hv Hrej IH]; cbn [app crypto_rand_int_loop].
  - destruct (Z.ltb_spec val cutoff); [reflexivity | lia].
  - destruct (Z.ltb_spec v cutoff); [lia | exact IH].
Qed.

Lemma crypto_rand_int_loop_rejects max cutoff draws :
  Forall (fun v => cutoff <= v) draws ->
  crypto_rand_int_loop max cutoff draws = None.
Proof.
  intros H. induction H as [|v draws Hv H IH]; cbn [crypto_rand_int_loop]; [reflexivity|].
  destruct (Z.ltb_spec v cutoff); [lia | exact IH].
Qed.

Lemma to_int_small z : 0 <= z < 2 ^ 31 -> to_int z = z.
Proof.
  intros H. unfold to_int. rewrite Z.mod_small by lia.
  destruct (Z.ltb_spec z (2 ^ 31)); lia.
Qed.

(** For [max] up to [INT_MAX + 1] the result lies in [0, max). *)
Lemma crypto_rand_int_in_range max draws r :
  0 < max <= INT_MAX + 1 ->
  crypto_rand_int max draws = Returns (Some r) -> 0 <= r < max.
Proof.
  intros Hmax. unfold crypto_rand_int, tor_assert.
  destruct (Z.ltb_spec max UINT_MAX); [|discriminate].
  destruct (Z.gtb_spec max 0); [|discriminate].
  intros E. inversion E as [E']. clear E.
  induction draws as [|v draws IH]; cbn [crypto_rand_int_loop] in E'; [discriminate|].
  destruct (v <? rand_cutoff max).
  - inversion E'; subst. pose proof (Z.mod_pos_bound v max ltac:(lia)).
    rewrite to_int_small; [lia|]. unfold INT_MAX in Hmax. lia.
  - apply IH. exact E'.
Qed.

(** No modulo bias: the accepted draws that reduce to [r] are the
    [cutoff / max] values [r + max * k]. *)
Lemma crypto_rand_int_no_bias max r v :
  0 < max -> 0 <= r < max ->
  (0 <= v < rand_cutoff max /\ v mod max = r)
  <-> exists k, 0 <= k < rand_cutoff max / max /\ v = r + max * k.
Proof.
  intros Hmax Hr. rewrite (rand_cutoff_multiple max Hmax).
  replace (max * (UINT_MAX / max) / max) with (UINT_MAX / max).
  2:{ rewrite Z.mul_comm, Z.div_mul; lia. }
  split.
  - intros [Hv Hmod]. exists (v / max).
    pose proof (Z.div_mod v max ltac:(lia)) as Hdm.
    split; [|lia].
    split; [apply Z.div_pos; lia|].
    apply Z.div_lt_upper_bound; lia.
  - intros [k [Hk ->]]. split; [nia|].
    replace (r + max * k) with (r + k * max) by lia.
    rewrite Z.mod_add by lia. apply Z.mod_small. lia.
Qed.

(** C5, the failing input: for [max = 2^32 - 2], which both assertions
    admit, the draw [2^31] is accepted and returned as [INT_MIN], a value
    outside [0, max). *)
Theorem C5_crypto_rand_int_negative :
  0 < 4294967294 < UINT_MAX
  /\ rand_cutoff 4294967294 = 4294967294
  /\ crypto_rand_int 4294967294 [2147483648] = Returns (Some (-2147483648)).
Proof. repeat split; reflexivity. Qed.

(** ** Diffie-Hellman public values *)

Lemma tor_check_dh_key_iff bn :
  tor_check_dh_key bn = 0 <-> 2 <= bn <= dh_param_p - 2.
Proof.
  unfold tor_check_dh_key.
  destruct (Z.leb_spec bn 1); [split; [discriminate | lia]|].
  destruct (Z.geb_spec bn (dh_param_p - 1)); [split; [discriminate | lia]|].
  split; [lia | reflexivity].
Qed.

Lemma tor_check_dh_key_rejects bn :
  tor_check_dh_key bn = -1 <-> ~ (2 <= bn <= dh_param_p - 2).
Proof.
  rewrite <- tor_check_dh_key_iff. unfold tor_check_dh_key.
  destruct (bn <=? 1); [split; [discriminate | reflexivity]|].
  destruct (bn >=? dh_param_p - 1); [split; [discriminate | reflexivity]|].
  split; [discriminate | intros H; exfalso; apply H; reflexivity].
Qed.

(** C4: [tor_check_dh_key] accepts [bn] exactly when [2 <= bn <= p - 2] for
    the 1024-bit prime of RFC 2409; 0, 1, p-1, p and p+1 are rejected; and
    [crypto_dh_compute_secret] fails on every peer value that the check
    rejects, whatever [DH_compute_key] would do; a value that
    [crypto_dh_generate_public] settles on has passed the same check. *)
Theorem C4_dh_public_value_check :
  Z.log2 dh_param_p = 1023
  /\ (forall bn, tor_check_dh_key bn = 0 <-> 2 <= bn <= dh_param_p - 2)
  /\ (forall bn, tor_check_dh_key bn = -1 <-> ~ (2 <= bn <= dh_param_p - 2))
  /\ tor_check_dh_key 0 = -1
  /\ tor_check_dh_key 1 = -1
  /\ tor_check_dh_key (dh_param_p - 1) = -1
  /\ tor_check_dh_key dh_param_p = -1
  /\ tor_check_dh_key (dh_param_p + 1) = -1
  /\ (forall DH_compute_key pubkey secret_bytes_out,
         secret_bytes_out / DIGEST_LEN <= 255 ->
         len pubkey < INT_MAX ->
         ~ (2 <= BN_bin2bn pubkey <= dh_param_p - 2) ->
         crypto_dh_compute_secret DH_compute_key pubkey secret_bytes_out = Fails)
  /\ (forall gens pub_key,
         crypto_dh_generate_public gens = Some (Returns pub_key) ->
         2 <= pub_key <= dh_param_p - 2).
Proof.
  split; [reflexivity|].
  split; [exact tor_check_dh_key_iff|].
  split; [exact tor_check_dh_key_rejects|].
  repeat (split; [reflexivity|]).
  split.
  - intros compute pubkey n Hn Hlen Hbad.
    unfold crypto_dh_compute_secret, tor_assert.
    destruct (Z.leb_spec (n / DIGEST_LEN) 255); [|lia].
    destruct (Z.ltb_spec (len pubkey) INT_MAX); [|lia].
    apply tor_check_dh_key_rejects in Hbad. rewrite Hbad. reflexivity.
  - induction gens as [|g gens IH]; intros pub_key; cbn [crypto_dh_generate_public].
    + discriminate.
    + destruct g as [candidate|]; [|discriminate].
      destruct (tor_check_dh_key candidate <? 0) eqn:Hc; [apply IH|].
      intros E. inversion E; subst.
      apply tor_check_dh_key_iff. apply Z.ltb_ge in Hc.
      unfold tor_check_dh_key in *.
      destruct (pub_key <=? 1); [lia|].
      destruct (pub_key >=? dh_param_p - 1); [lia | reflexivity].
Qed.

Lemma C4_dh_public_value_check_witness :
  crypto_dh_compute_secret (fun _ => Some [1; 2; 3]) [0; 1] 20 = Fails.
Proof.
  refine (proj1 (proj2 (proj2 (proj2 (proj2 (proj2 (proj2 (proj2 (proj2
            C4_dh_public_value_check))))))))
          (fun _ => Some [1; 2; 3]) [0; 1] 20 _ _ _).
  - vm_compute. discriminate.
  - vm_compute. reflexivity.
  - vm_compute. intros [H _]. apply H. reflexivity.
Defined.

(** ** The IV-prefixed envelope *)

Lemma xor_keystream_length ks : forall input pos,
  length (xor_keystream ks pos input) = length input.
Proof.
  induction input as [|b rest IH]; intros pos; cbn [xor_keystream length];
    [reflexivity | rewrite IH; reflexivity].
Qed.

Lemma len_skipn (n : nat) (l : list Z) : len (skipn n l) = len l - Z.of_nat (Nat.min n (length l)).
Proof. unfold len. rewrite length_skipn. lia. Qed.

Lemma to_size_t_small z : 0 <= z < 2 ^ 64 -> to_size_t z = z.
Proof. intros. unfold to_size_t. apply Z.mod_small. lia. Qed.

(** C7: for an input shorter than [INT_MAX] (the function's assertion),
    [crypto_cipher_decrypt_with_iv] returns -1 exactly when the input is
    shorter than 17 bytes or the output buffer is shorter than the input
    less 16; otherwise it installs the first 16 input bytes as the counter
    IV, decrypts the rest from stream position 0 and returns the input
    length less 16. *)
Theorem C7_decrypt_with_iv (AES_keystream : list Z -> list Z -> Z -> Z)
        (env : crypto_cipher_env_t) (tolen : Z) (from : list Z)
        (Hfrom : len from < INT_MAX) (Hto : 0 <= tolen) :
  (crypto_cipher_decrypt_with_iv AES_keystream env tolen from = Fails
   <-> len from < 17 \/ tolen < len from - 16)
  /\ (~ (len from < 17 \/ tolen < len from - 16) ->
      let out := xor_keystream
                   (AES_keystream (aes_key (cipher env)) (firstn 16 from)) 0
                   (skipn 16 from) in
      crypto_cipher_decrypt_with_iv AES_keystream env tolen from
      = Returns ({| key := key env;
                    cipher := {| aes_key := aes_key (cipher env);
                                 aes_iv := firstn 16 from;
                                 aes_pos := len from - 16 |} |}, out)
      /\ ret_len (Returns out) = Some (len from - 16)).
Proof.
  unfold crypto_cipher_decrypt_with_iv, tor_assert.
  destruct (Z.ltb_spec (len from) INT_MAX); [|lia].
  change CIPHER_IV_LEN with 16.
  destruct (Z.leb_spec (len from) 16) as [Hshort|Hlong].
  { split; [split; [lia | reflexivity] | intros Hn; exfalso; apply Hn; lia]. }
  assert (HI : INT_MAX < 2 ^ 64) by reflexivity.
  rewrite to_size_t_small by lia.
  destruct (Z.ltb_spec tolen (len from - 16)) as [Hsmall|Hroom].
  { split; [split; [lia | reflexivity] | intros Hn; exfalso; apply Hn; lia]. }
  assert (Hskip : len (skipn (Z.to_nat 16) from) = len from - 16).
  { rewrite len_skipn. unfold len in *. lia. }
  assert (Hrun : crypto_cipher_encrypt AES_keystream (crypto_cipher_set_iv env from)
                   (skipn (Z.to_nat 16) from) (len from - 16)
                 = Returns ({| key := key env;
                               cipher := {| aes_key := aes_key (cipher env);
                                            aes_iv := firstn 16 from;
                                            aes_pos := len from - 16 |} |},
                            xor_keystream
                              (AES_keystream (aes_key (cipher env)) (firstn 16 from)) 0
                              (skipn 16 from))).
  { unfold crypto_cipher_encrypt, tor_assert.
    destruct (Z.eqb_spec (len from - 16) 0); [lia|]. cbn [negb].
    rewrite Hskip. destruct (Z.gtb_spec (len from - 16) (len from - 16)); [lia|].
    rewrite firstn_all2.
    2:{ unfold len in *. lia. }
    unfold aes_crypt, crypto_cipher_set_iv, aes_set_iv. cbn [cipher key aes_key aes_iv aes_pos].
    rewrite Hskip. reflexivity. }
  rewrite Hrun. cbn [bind].
  split.
  - split; [discriminate | lia].
  - intros _. cbv zeta. split; [reflexivity|].
    cbn [ret_len]. rewrite xor_keystream_length. f_equal.
    change (skipn 16 from) with (skipn (Z.to_nat 16) from). exact Hskip.
Qed.

Lemma C7_decrypt_with_iv_witness :
  crypto_cipher_decrypt_with_iv toy_keystream
    (crypto_create_init_cipher (repeat 7 16) false) 4
    (map Z.of_nat (seq 0 20))
  = Returns ({| key := repeat 7 16;
                cipher := {| aes_key := repeat 7 16;
                             aes_iv := map Z.of_nat (seq 0 16);
                             aes_pos := 4 |} |},
             [23; 25; 27; 25]).
Proof.
  refine (proj1 (proj2 (C7_decrypt_with_iv toy_keystream
           (crypto_create_init_cipher (repeat 7 16) false) 4
           (map Z.of_nat (seq 0 20)) _ _) _)).
  - vm_compute. reflexivity.
  - vm_compute. discriminate.
  - vm_compute. intros [H|H]; discriminate H.
Defined.

(** ** Library initialisation *)

Lemma grows_refl st : grows st st.
Proof. exists []. split; [rewrite app_nil_r; reflexivity | intros e b []]. Qed.

Lemma grows_trans st1 st2 st3 : grows st1 st2 -> grows st2 st3 -> grows st1 st3.
Proof.
  intros [n1 [E1 H1]] [n2 [E2 H2]]. exists (n1 ++ n2). split.
  - rewrite E2, E1, app_assoc. reflexivity.
  - intros e b Hin. apply in_app_or in Hin. destruct Hin; eauto.
Qed.

Lemma grows_emit e st :
  is_fallible_step e = false \/ _crypto_global_initialized st = true ->
  grows st (emit e st).
Proof.
  intros H. exists [(e, _crypto_global_initialized st)]. split; [reflexivity|].
  intros e' b [E|[]]. inversion E; subst. intros Hf.
  destruct H as [H|H]; congruence.
Qed.

Lemma emit_flag e st :
  _crypto_global_initialized (emit e st) = _crypto_global_initialized st.
Proof. reflexivity. Qed.

Lemma seed_from_files_grows files poll : forall st,
  _crypto_global_initialized st = true ->
  _crypto_global_initialized (snd (seed_from_files files poll st)) = true
  /\ grows st (snd (seed_from_files files poll st)).
Proof.
  induction files as [|f files IH]; intros st Hst; cbn [seed_from_files].
  - split; [exact Hst | apply grows_refl].
  - destruct f as [|n].
    + destruct (IH (emit open_entropy_file st) Hst) as [Hf Hg].
      split; [exact Hf|].
      eapply grows_trans; [apply grows_emit; right; exact Hst | exact Hg].
    + destruct (negb (n =? ADD_ENTROPY)); cbn [snd].
      * split; [exact Hst | apply grows_emit; right; exact Hst].
      * split; [exact Hst|].
        eapply grows_trans; apply grows_emit; right; exact Hst.
Qed.

Lemma crypto_seed_rng_grows startup poll_safe ans st :
  _crypto_global_initialized st = true ->
  _crypto_global_initialized (snd (crypto_seed_rng startup poll_safe ans st)) = true
  /\ grows st (snd (crypto_seed_rng startup poll_safe ans st)).
Proof.
  intros Hst. unfold crypto_seed_rng.
  destruct (startup || poll_safe).
  - destruct (seed_from_files_grows (entropy_files ans) (rand_poll_status ans)
                (emit RAND_poll st) Hst) as [Hf Hg].
    split; [exact Hf|].
    eapply grows_trans; [apply grows_emit; right; exact Hst | exact Hg].
  - apply seed_from_files_grows. exact Hst.
Qed.

(** C10: the first call of [crypto_global_init] sets the initialised flag
    before engine registration and before seeding, whatever their result,
    so every later call returns 0 at once and does nothing; this includes
    first calls that returned -1. *)
Theorem C10_global_init_flag_first :
  (forall useAccel poll_safe ans st,
      _crypto_global_initialized st = false ->
      let st1 := snd (crypto_global_init useAccel poll_safe ans st) in
      _crypto_global_initialized st1 = true
      /\ grows st st1
      /\ forall useAccel' poll_safe' ans',
           crypto_global_init useAccel' poll_safe' ans' st1 = (0, st1))
  /\ fst (crypto_global_init 1 true
            {| engines_registered := false; rand_poll_status := 1;
               entropy_files := [reads 32] |} fresh_state) = -1
  /\ fst (crypto_global_init 0 true
            {| engines_registered := true; rand_poll_status := 0;
               entropy_files := [open_fails; open_fails; open_fails] |}
            fresh_state) = -1.
Proof.
  split; [|split; reflexivity].
  intros useAccel poll_safe ans st Hst st1.
  assert (H : _crypto_global_initialized st1 = true /\ grows st st1).
  { subst st1. unfold crypto_global_init. rewrite Hst. cbn [negb].
    set (sa := emit ERR_load_crypto_strings st).
    set (sb := emit OpenSSL_add_all_algorithms sa).
    set (sc := {| _crypto_global_initialized := true; trace := trace sb |}).
    set (sd := emit setup_openssl_threading sc).
    assert (Ga : grows st sa) by (apply grows_emit; left; reflexivity).
    assert (Gb : grows sa sb) by (apply grows_emit; left; reflexivity).
    assert (Gc : grows sb sc) by (exists []; split;
      [cbn; rewrite app_nil_r; reflexivity | intros e b []]).
    assert (Gd : grows sc sd) by (apply grows_emit; left; reflexivity).
    assert (G : grows st sd) by (repeat (eapply grows_trans; eauto)).
    assert (Fd : _crypto_global_initialized sd = true) by reflexivity.
    destruct (useAccel >? 0).
    - set (se := emit ENGINE_load_builtin_engines sd).
      set (sf := emit ENGINE_register_all_complete se).
      assert (Ge : grows sd se) by (apply grows_emit; right; exact Fd).
      assert (Gf : grows se sf) by (apply grows_emit; right; reflexivity).
      destruct (negb (engines_registered ans)); cbn [snd].
      + split; [reflexivity|]. repeat (eapply grows_trans; eauto).
      + set (sg := Nat.iter 6 (emit log_engine) sf).
        assert (Gg : grows sf sg).
        { subst sg. cbn [Nat.iter].
          repeat (eapply grows_trans;
                  [|apply grows_emit; left; reflexivity]).
          apply grows_refl. }
        destruct (crypto_seed_rng_grows true poll_safe ans sg eq_refl) as [Fh Gh].
        split; [exact Fh|]. repeat (eapply grows_trans; eauto).
    - destruct (crypto_seed_rng_grows true poll_safe ans sd Fd) as [Fh Gh].
      split; [exact Fh|]. eapply grows_trans; eauto. }
  destruct H as [Hflag Hgrows]. split; [exact Hflag|]. split; [exact Hgrows|].
  intros useAccel' poll_safe' ans'. unfold crypto_global_init.
  rewrite Hflag. reflexivity.
Qed.

Lemma C10_global_init_flag_first_witness :
  let st1 := snd (crypto_global_init 1 true
                    {| engines_registered := false; rand_poll_status := 1;
                       entropy_files := [reads 32] |} fresh_state) in
  _crypto_global_initialized st1 = true
  /\ grows fresh_state st1
  /\ forall useAccel' poll_safe' ans',
       crypto_global_init useAccel' poll_safe' ans' st1 = (0, st1).
Proof.
  apply (proj1 C10_global_init_flag_first). reflexivity.
Defined.

(** ** SHA-1 *)

(** The test vectors of FIPS 180-1, appendix A, and the empty message. *)
Lemma SHA1_test_vectors :
  SHA1 (bytes_of_string "abc")
  = [0xa9; 0x99; 0x3e; 0x36; 0x47; 0x06; 0x81; 0x6a; 0xba; 0x3e;
     0x25; 0x71; 0x78; 0x50; 0xc2; 0x6c; 0x9c; 0xd0; 0xd8; 0x9d]
  /\ SHA1 (bytes_of_string "abcdbcdecdefdefgefghfghighijhijkijkljklmklmnlmnomnopnopq")
     = [0x84; 0x98; 0x3e; 0x44; 0x1c; 0x3b; 0xd2; 0x6e; 0xba; 0xae;
        0x4a; 0xa1; 0xf9; 0x51; 0x29; 0xe5; 0xe5; 0x46; 0x70; 0xf1]
  /\ SHA1 []
     = [0xda; 0x39; 0xa3; 0xee; 0x5e; 0x6b; 0x4b; 0x0d; 0x32; 0x55;
        0xbf; 0xef; 0x95; 0x60; 0x18; 0x90; 0xaf; 0xd8; 0x07; 0x09].
Proof. repeat split; vm_compute; reflexivity. Qed.

(** ** S2K *)

Lemma SHA1_length msg : length (SHA1 msg) = 20%nat.
Proof.
  unfold SHA1.
  destruct (sha1_blocks _ sha1_init _) as [[[[h0 h1] h2] h3] h4]. reflexivity.
Qed.

(** The 32-bit shift never leaves the word: [count] is the plain value. *)
Lemma s2k_count_no_wrap c :
  0 <= c < 256 ->
  s2k_count c = Z.shiftl (16 + Z.land c 15) (Z.shiftr c 4 + 6)
  /\ 1024 <= s2k_count c.
Proof.
  intros Hc. unfold s2k_count, to_uint32.
  change 15 with (Z.ones 4). rewrite Z.land_ones by lia.
  rewrite Z.shiftr_div_pow2 by lia. change (2 ^ 4) with 16.
  assert (Hq : 0 <= c / 16 <= 15).
  { split; [apply Z.div_pos; lia|]. apply Z.lt_succ_r. apply Z.div_lt_upper_bound; lia. }
  pose proof (Z.mod_pos_bound c 16 ltac:(lia)) as Hm.
  rewrite Z.shiftl_mul_pow2 by lia.
  assert (Hp : 2 ^ 6 <= 2 ^ (c / 16 + 6) <= 2 ^ 21).
  { split; apply Z.pow_le_mono_r; lia. }
  change (2 ^ 6) with 64 in Hp. change (2 ^ 21) with 2097152 in Hp.
  rewrite Z.mod_small; [split; [reflexivity | nia]|].
  change (2 ^ 32) with 4294967296. nia.
Qed.

Lemma s2k_loop_done fuel dg tmp secret_len :
  s2k_loop fuel dg tmp secret_len 0 = Some dg.
Proof. destruct fuel; reflexivity. Qed.

Lemma cycle_byte_small input i :
  (i < length input)%nat -> cycle_byte input i = nth i input 0.
Proof. intros H. unfold cycle_byte. rewrite Nat.mod_small by exact H. reflexivity. Qed.

Lemma cycle_byte_shift input i :
  (length input <= i)%nat -> cycle_byte input i = cycle_byte input (i - length input).
Proof.
  intros H. unfold cycle_byte. f_equal.
  replace i with (i - length input + 1 * length input)%nat at 1 by lia.
  apply Nat.Div0.mod_add.
Qed.

(** The loop absorbs exactly [count] bytes of the repetition of [tmp], and
    [count] iterations are always enough. *)
Lemma s2k_loop_spec tmp : (0 < length tmp)%nat ->
  forall fuel dg count,
    0 <= count -> (Z.to_nat count <= fuel)%nat ->
    exists x,
      s2k_loop fuel dg tmp (len tmp) count = Some {| d := d dg ++ x |}
      /\ len x = count
      /\ forall i, (i < length x)%nat -> nth i x 0 = cycle_byte tmp i.
Proof.
  intros Htmp. induction fuel as [|fuel IH]; intros dg count Hc Hfuel.
  - assert (count = 0) by lia. subst count. exists []. cbn [s2k_loop].
    rewrite app_nil_r. destruct dg. repeat split. intros i Hi. cbn in Hi. lia.
  - cbn [s2k_loop]. destruct (Z.eqb_spec count 0) as [->|Hnz].
    { exists []. rewrite app_nil_r. destruct dg. repeat split.
      intros i Hi. cbn in Hi. lia. }
    destruct (Z.geb_spec count (len tmp)) as [Hge|Hlt].
    + destruct (IH (crypto_digest_add_bytes dg tmp (len tmp)) (count - len tmp))
        as [x [Hrun [Hlen Hnth]]]; [lia | unfold len in *; lia |].
      exists (tmp ++ x). split; [|split].
      * rewrite Hrun. unfold crypto_digest_add_bytes. cbn [d].
        unfold len at 1. rewrite Nat2Z.id, firstn_all, <- app_assoc. reflexivity.
      * rewrite len_app. lia.
      * intros i Hi. destruct (Nat.lt_ge_cases i (length tmp)) as [Hs|Hl].
        -- rewrite app_nth1 by exact Hs. symmetry. apply cycle_byte_small. exact Hs.
        -- rewrite app_nth2 by exact Hl. rewrite cycle_byte_shift by exact Hl.
           apply Hnth. rewrite length_app in Hi. lia.
    + exists (firstn (Z.to_nat count) tmp). split; [|split].
      * rewrite s2k_loop_done. reflexivity.
      * unfold len in *. rewrite length_firstn. lia.
      * intros i Hi. rewrite length_firstn in Hi.
        rewrite nth_firstn.
        destruct (Nat.ltb_spec i (Z.to_nat count)); [|lia].
        symmetry. apply cycle_byte_small. lia.
Qed.

(** The function never runs out of the iterations it is given. *)
Lemma secret_to_key_total key_out_len secret s2k_specifier :
  secret_to_key key_out_len secret s2k_specifier <> Returns None.
Proof.
  unfold secret_to_key, tor_assert.
  destruct (key_out_len <? SIZE_T_CEILING); [|discriminate].
  destruct (len s2k_specifier <? 9) eqn:H9; [discriminate|].
  destruct (key_out_len <=? DIGEST_LEN); [|discriminate].
  set (c := to_uint8 (nth 8 s2k_specifier 0)).
  set (tmp := firstn 8 s2k_specifier ++ secret).
  apply Z.ltb_ge in H9.
  assert (Hl : len tmp = len secret + 8).
  { subst tmp. rewrite len_app. unfold len in *. rewrite length_firstn. lia. }
  assert (Hpos : (0 < length tmp)%nat) by (unfold len in Hl; lia).
  destruct (s2k_count_no_wrap c (to_uint8_range _)) as [_ Hcnt].
  destruct (s2k_loop_spec tmp Hpos (Z.to_nat (s2k_count c)) crypto_new_digest_env
              (s2k_count c) ltac:(lia) (le_n _)) as [x [Hrun _]].
  rewrite <- Hl, Hrun. unfold crypto_digest_get_digest, tor_assert.
  destruct (key_out_len <=? DIGEST_LEN); cbn [bind]; discriminate.
Qed.

(** C3 (amended): with a specifier of at least 9 bytes and [key_out_len]
    at most 20, [secret_to_key] computes
    [count = (16 + (c & 15)) << ((c >> 4) + 6)], absorbs exactly the first
    [count] bytes of the endless repetition of [salt || secret] into one
    SHA-1 context and writes the first [key_out_len] bytes of the digest.
    With an all-zero salt, [c = 0] and an empty secret the 20 bytes are the
    SHA-1 of 1024 zero bytes, which is [60 ca cb f3 ... 40 e8]. *)
Theorem C3_secret_to_key_spec :
  (forall key_out_len secret s2k_specifier,
      9 <= len s2k_specifier ->
      0 <= key_out_len <= 20 ->
      let c := to_uint8 (nth 8 s2k_specifier 0) in
      let count := Z.shiftl (16 + Z.land c 15) (Z.shiftr c 4 + 6) in
      let input := firstn 8 s2k_specifier ++ secret in
      exists absorbed,
        len absorbed = count
        /\ (forall i, (i < length absorbed)%nat ->
                      nth i absorbed 0 = cycle_byte input i)
        /\ secret_to_key key_out_len secret s2k_specifier
           = Returns (Some (firstn (Z.to_nat key_out_len) (SHA1 absorbed)))
        /\ len (firstn (Z.to_nat key_out_len) (SHA1 absorbed)) = key_out_len)
  /\ secret_to_key 20 [] (repeat 0 9)
     = Returns (Some [0x60; 0xca; 0xcb; 0xf3; 0xd7; 0x2e; 0x1e; 0x78; 0x34; 0x20;
                      0x3d; 0xa6; 0x08; 0x03; 0x7b; 0x1b; 0xf8; 0x3b; 0x40; 0xe8])
  /\ SHA1 (repeat 0 1024)
     = [0x60; 0xca; 0xcb; 0xf3; 0xd7; 0x2e; 0x1e; 0x78; 0x34; 0x20;
        0x3d; 0xa6; 0x08; 0x03; 0x7b; 0x1b; 0xf8; 0x3b; 0x40; 0xe8].
Proof.
  split; [|split; vm_compute; reflexivity].
  intros key_out_len secret spec H9 Hout c count input.
  destruct (s2k_count_no_wrap c (to_uint8_range _)) as [Hcount Hbig].
  fold count in Hcount.
  assert (Hl : len input = len secret + 8).
  { subst input. rewrite len_app. unfold len in *. rewrite length_firstn. lia. }
  assert (Hpos : (0 < length input)%nat) by (unfold len in Hl; lia).
  destruct (s2k_loop_spec input Hpos (Z.to_nat (s2k_count c)) crypto_new_digest_env
              (s2k_count c) ltac:(lia) (le_n _)) as [x [Hrun [Hlen Hnth]]].
  exists x. split; [lia|]. split; [exact Hnth|].
  split.
  - unfold secret_to_key, tor_assert.
    change SIZE_T_CEILING with (2 ^ 63). change DIGEST_LEN with 20.
    destruct (Z.ltb_spec key_out_len (2 ^ 63)); [|lia].
    destruct (Z.ltb_spec (len spec) 9); [lia|].
    destruct (Z.leb_spec key_out_len 20); [|lia].
    fold c. fold input. rewrite <- Hl, Hrun.
    unfold crypto_digest_get_digest, tor_assert. change DIGEST_LEN with 20.
    destruct (Z.leb_spec key_out_len 20); [|lia].
    reflexivity.
  - unfold len. rewrite length_firstn, SHA1_length. lia.
Qed.

Lemma C3_secret_to_key_spec_witness :
  exists absorbed,
    len absorbed = 1024
    /\ (forall i, (i < length absorbed)%nat ->
                  nth i absorbed 0 = cycle_byte (repeat 0 8 ++ [1; 2]) i)
    /\ secret_to_key 20 [1; 2] (repeat 0 9)
       = Returns (Some (firstn 20 (SHA1 absorbed)))
    /\ len (firstn 20 (SHA1 absorbed)) = 20.
Proof.
  refine (proj1 C3_secret_to_key_spec 20 [1; 2] (repeat 0 9) _ _).
  - vm_compute. discriminate.
  - split; vm_compute; discriminate.
Defined.

(** C3 as stated fails on its test vector: the 20 bytes the specification
    gives for the all-zero salt, [c = 0] and the empty secret are not the
    SHA-1 of 1024 zero bytes, and not what [secret_to_key] writes. *)
Lemma C3_counterexample_test_vector :
  secret_to_key 20 [] (repeat 0 9)
  <> Returns (Some [0x1e; 0x41; 0x38; 0x4b; 0xef; 0xf8; 0x2b; 0xb2; 0x0a; 0x89;
                    0x4d; 0x8a; 0x6d; 0x2b; 0x4b; 0xab; 0xed; 0x57; 0x90; 0xc6])
  /\ SHA1 (repeat 0 1024)
     <> [0x1e; 0x41; 0x38; 0x4b; 0xef; 0xf8; 0x2b; 0xb2; 0x0a; 0x89;
         0x4d; 0x8a; 0x6d; 0x2b; 0x4b; 0xab; 0xed; 0x57; 0x90; 0xc6].
Proof. split; vm_compute; discriminate. Qed.

(** ** Hybrid encryption *)

Lemma firstn_len (l : list Z) : firstn (Z.to_nat (len l)) l = l.
Proof. unfold len. rewrite Nat2Z.id. apply firstn_all. Qed.

Lemma len_firstn (n : Z) (l : list Z) :
  0 <= n <= len l -> len (firstn (Z.to_nat n) l) = n.
Proof. intros H. unfold len in *. rewrite length_firstn. lia. Qed.

Lemma len_skipn_Z (n : Z) (l : list Z) :
  0 <= n <= len l -> len (skipn (Z.to_nat n) l) = len l - n.
Proof. intros H. unfold len in *. rewrite length_skipn. lia. Qed.

Lemma len_xor_keystream ks pos input : len (xor_keystream ks pos input) = len input.
Proof. unfold len. rewrite xor_keystream_length. reflexivity. Qed.

(** Counter mode is an involution: the same keystream, from the same
    position, undoes itself. *)
Lemma xor_keystream_involutive ks : forall input pos,
  xor_keystream ks pos (xor_keystream ks pos input) = input.
Proof.
  induction input as [|b rest IH]; intros pos; cbn [xor_keystream]; [reflexivity|].
  rewrite IH, Z.lxor_assoc, Z.lxor_nilpotent, Z.lxor_0_r. reflexivity.
Qed.

Lemma to_int_of_small z : 0 <= z < 2 ^ 31 -> to_int z = z.
Proof. apply to_int_small. Qed.

Section HybridFacts.
Variable AES_keystream : list Z -> list Z -> Z -> Z.
Variable env : crypto_pk_env_t.
Variable padding : pk_padding.

Lemma hybrid_key_len k : len (hybrid_key padding k) = len k.
Proof.
  unfold hybrid_key. destruct (is_no_padding padding); [|reflexivity].
  destruct k; reflexivity.
Qed.

(** The long branch, step by step: the output is the RSA block followed
    by the tail under the keystream of the symmetric key. *)
Lemma hybrid_encrypt_long k from force blk :
  let K := crypto_pk_keysize env in
  let O := crypto_get_rsa_padding_overhead (crypto_get_rsa_padding padding) in
  is_no_padding padding && (len from <? K) = false ->
  negb force && (to_size_t (len from + O) <=? K) = false ->
  len k = 16 ->
  16 <= K - O ->
  K - O - 16 < len from ->
  len from + K < INT_MAX ->
  RSA_public_encrypt (pk_key env)
    (hybrid_key padding k ++ firstn (Z.to_nat (K - O - 16)) from)
    (crypto_get_rsa_padding padding) = Some blk ->
  len blk = K ->
  crypto_pk_public_hybrid_encrypt AES_keystream env (Some k) from padding force
  = Returns (blk ++ xor_keystream (AES_keystream (hybrid_key padding k) (repeat 0 16)) 0
                     (skipn (Z.to_nat (K - O - 16)) from)).
Proof.
  intros K O.
  intros Hguard Hbranch Hk HT Hpre Hmax Henc Hblk.
  assert (HO : 0 <= O) by (subst O; destruct padding; cbn; lia).
  assert (HI : INT_MAX = 2 ^ 31 - 1) by reflexivity.
  assert (H31 : 2 ^ 31 < 2 ^ 64) by reflexivity.
  pose proof (len_nonneg from) as HN.
  unfold crypto_pk_public_hybrid_encrypt.
  fold K. fold O. rewrite Hguard, Hbranch.
  unfold crypto_cipher_generate_key. cbn [bind key cipher].
  change CIPHER_KEY_LEN with 16.
  replace (firstn (Z.to_nat 16) k) with k
    by (rewrite <- Hk; symmetry; apply firstn_len).
  rewrite (to_size_t_small (K - O - 16)) by lia.
  destruct (Z.gtb_spec (K - O - 16) (len from)); [lia|].
  rewrite (to_size_t_small (len from - (K - O - 16))) by lia.
  rewrite (to_size_t_small (K - O)) by lia.
  set (cipher2 := crypto_cipher_encrypt_init_cipher
                    (if is_no_padding padding
                     then {| key := clear_high_bit k;
                             cipher := cipher crypto_new_cipher_env |}
                     else {| key := k; cipher := cipher crypto_new_cipher_env |})).
  assert (Hkey2 : key cipher2 = hybrid_key padding k).
  { subst cipher2. unfold hybrid_key. destruct (is_no_padding padding); reflexivity. }
  assert (Hcipher2 : cipher cipher2
                     = {| aes_key := hybrid_key padding k; aes_iv := repeat 0 16; aes_pos := 0 |}).
  { subst cipher2. unfold hybrid_key, crypto_cipher_encrypt_init_cipher, aes_set_key.
    change (Z.to_nat (CIPHER_KEY_LEN * 8 / 8)) with (Z.to_nat 16).
    destruct (is_no_padding padding) eqn:Hnp; cbn [key cipher]; f_equal.
    - rewrite <- Hk. destruct k; [reflexivity|].
      change (clear_high_bit (z :: k)) with (Z.land z 127 :: k).
      replace (len (z :: k)) with (len (Z.land z 127 :: k)) by reflexivity.
      apply firstn_len.
    - rewrite <- Hk. apply firstn_len. }
  rewrite Hkey2.
  set (buf := hybrid_key padding k ++ firstn (Z.to_nat (K - O - 16)) from) in *.
  assert (Hbuf : len buf = K - O).
  { subst buf. rewrite len_app, hybrid_key_len, Hk, len_firstn by lia. lia. }
  unfold crypto_pk_public_encrypt, tor_assert.
  destruct (Z.ltb_spec (K - O) INT_MAX); [|lia].
  rewrite Hbuf. destruct (Z.gtb_spec (K - O) (K - O)); [lia|].
  replace (firstn (Z.to_nat (K - O)) buf) with buf
    by (rewrite <- Hbuf; symmetry; apply firstn_len).
  rewrite Henc, Hblk.
  rewrite to_int_of_small by lia. rewrite Z.eqb_refl. cbn [negb].
  unfold crypto_cipher_encrypt, tor_assert.
  destruct (Z.eqb_spec (len from - (K - O - 16)) 0); [lia|]. cbn [negb].
  rewrite len_skipn_Z by lia.
  destruct (Z.gtb_spec (len from - (K - O - 16)) (len from - (K - O - 16))); [lia|].
  rewrite (firstn_all2 (n := Z.to_nat (len from - (K - O - 16))))
    by (unfold len in *; rewrite length_skipn; lia).
  unfold aes_crypt. rewrite Hcipher2.
  cbn [aes_key aes_iv aes_pos bind snd].
  rewrite to_size_t_small by lia.
  destruct (Z.ltb_spec (K + (len from - (K - O - 16))) INT_MAX); [|lia].
  reflexivity.
Qed.
End HybridFacts.

Lemma BN_bin2bn_acc : forall l acc,
  fold_left (fun a b => a * 256 + to_uint8 b) l acc
  = acc * 256 ^ len l + BN_bin2bn l.
Proof.
  unfold BN_bin2bn.
  induction l as [|b rest IH]; intros acc; cbn [fold_left].
  - change (len []) with 0. cbn. lia.
  - rewrite IH, (IH (0 * 256 + to_uint8 b)), len_cons.
    pose proof (len_nonneg rest).
    replace (1 + len rest) with (Z.succ (len rest)) by lia.
    rewrite Z.pow_succ_r by lia. ring.
Qed.

Lemma BN_bin2bn_cons b rest :
  BN_bin2bn (b :: rest) = to_uint8 b * 256 ^ len rest + BN_bin2bn rest.
Proof.
  unfold BN_bin2bn at 1. cbn [fold_left]. rewrite BN_bin2bn_acc. lia.
Qed.

Lemma BN_bin2bn_bound l : 0 <= BN_bin2bn l < 256 ^ len l.
Proof.
  induction l as [|b rest IH].
  - cbn. lia.
  - rewrite BN_bin2bn_cons, len_cons. pose proof (len_nonneg rest).
    pose proof (to_uint8_range b).
    replace (1 + len rest) with (Z.succ (len rest)) by lia.
    rewrite Z.pow_succ_r by lia. nia.
Qed.

(** A block whose first byte has its high bit clear is below [2^(8n-1)]. *)
Lemma BN_bin2bn_high_clear b rest :
  0 <= b < 128 -> BN_bin2bn (b :: rest) < 2 ^ (8 * len (b :: rest) - 1).
Proof.
  intros Hb. rewrite BN_bin2bn_cons, len_cons, to_uint8_small by lia.
  pose proof (len_nonneg rest). pose proof (BN_bin2bn_bound rest).
  replace (8 * (1 + len rest) - 1) with (7 + 8 * len rest) by lia.
  rewrite Z.pow_add_r, Z.pow_mul_r by lia.
  change (2 ^ 7) with 128. change (2 ^ 8) with 256. nia.
Qed.

Lemma clear_high_bit_byte b : is_byte b -> 0 <= Z.land b 0x7f < 128.
Proof.
  intros Hb. change 0x7f with (Z.ones 7). rewrite Z.land_ones by lia.
  apply Z.mod_pos_bound. lia.
Qed.

Lemma Forall_bytes_firstn (n : nat) (l : list Z) :
  Forall is_byte l -> Forall is_byte (firstn n l).
Proof.
  intros H. revert n. induction H as [|b rest Hb Hrest IH]; intros [|n];
    cbn [firstn]; constructor; auto.
Qed.

Lemma hybrid_key_bytes padding k :
  Forall is_byte k -> Forall is_byte (hybrid_key padding k).
Proof.
  intros Hk. unfold hybrid_key. destruct (is_no_padding padding); [|exact Hk].
  destruct Hk as [|b rest Hb Hrest]; [constructor|].
  cbn [clear_high_bit]. constructor; [|exact Hrest].
  pose proof (clear_high_bit_byte b Hb). unfold is_byte. lia.
Qed.

Section HybridRoundTrip.
Variable AES_keystream : list Z -> list Z -> Z -> Z.
Variable env : crypto_pk_env_t.
Variable padding : pk_padding.
Hypothesis laws : RSA_laws (pk_key env).

(** RSA accepts the block of the long branch: with padding because it
    fits, without padding because the cleared high bit puts it below a
    modulus whose top bit is set. *)
Lemma hybrid_block_encrypts k from :
  let K := crypto_pk_keysize env in
  let O := crypto_get_rsa_padding_overhead (crypto_get_rsa_padding padding) in
  len k = 16 -> Forall is_byte k -> Forall is_byte from ->
  16 <= K - O -> K - O - 16 <= len from ->
  (padding = PK_NO_PADDING -> 2 ^ (8 * K - 1) <= rsa_n (pk_key env)) ->
  exists blk,
    RSA_public_encrypt (pk_key env)
      (hybrid_key padding k ++ firstn (Z.to_nat (K - O - 16)) from)
      (crypto_get_rsa_padding padding) = Some blk
    /\ len blk = K.
Proof.
  intros K O.
  intros Hk Hkb Hfb HT Hpre Htop.
  set (buf := hybrid_key padding k ++ firstn (Z.to_nat (K - O - 16)) from).
  assert (Hbuf : len buf = K - O).
  { subst buf. rewrite len_app, hybrid_key_len, Hk, len_firstn by lia. lia. }
  assert (Hsome : RSA_public_encrypt (pk_key env) buf (crypto_get_rsa_padding padding)
                  <> None).
  { assert (HOv : O = crypto_get_rsa_padding_overhead (crypto_get_rsa_padding padding))
      by reflexivity.
    assert (HKv : K = RSA_size (pk_key env)) by reflexivity.
    clearbody O K.
    destruct padding eqn:Hp; cbn in HOv.
    - apply (rsa_enc_raw _ laws).
      + lia.
      + subst buf. apply Forall_app. split.
        * apply hybrid_key_bytes. exact Hkb.
        * apply Forall_bytes_firstn. exact Hfb.
      + eapply Z.lt_le_trans; [|apply Htop; reflexivity].
        assert (HK : K = len buf) by lia.
        rewrite HK. subst buf. unfold hybrid_key. cbn [is_no_padding].
        destruct k as [|b rest]; [discriminate Hk|].
        cbn [clear_high_bit app]. apply BN_bin2bn_high_clear.
        inversion Hkb; subst. apply clear_high_bit_byte. assumption.
    - apply (rsa_enc_padded _ laws); [discriminate|].
      cbn [crypto_get_rsa_padding_overhead crypto_get_rsa_padding]. lia.
    - apply (rsa_enc_padded _ laws); [discriminate|].
      cbn [crypto_get_rsa_padding_overhead crypto_get_rsa_padding]. lia. }
  destruct (RSA_public_encrypt (pk_key env) buf (crypto_get_rsa_padding padding))
    as [blk|] eqn:Henc; [|congruence].
  exists blk. split; [reflexivity|]. apply (rsa_enc_len _ laws _ _ _ Henc).
Qed.

(** The long branch of decryption on a block followed by a tail. *)
Lemma hybrid_decrypt_long blk sym k prefix :
  let K := crypto_pk_keysize env in
  let O := crypto_get_rsa_padding_overhead (crypto_get_rsa_padding padding) in
  rsa_p (pk_key env) = true ->
  len blk = K -> 0 < len sym -> len k = 16 ->
  len prefix + K + len sym < INT_MAX ->
  RSA_private_decrypt (pk_key env) blk (crypto_get_rsa_padding padding)
  = Some (k ++ prefix) ->
  crypto_pk_private_hybrid_decrypt AES_keystream env (blk ++ sym) padding
  = Returns (prefix ++ xor_keystream (AES_keystream k (repeat 0 16)) 0 sym).
Proof.
  intros K O.
  intros Hpriv Hblk Hsym Hk Hmax Hdec.
  pose proof (len_nonneg prefix) as Hp0. pose proof (len_nonneg blk) as Hb0.
  assert (HI : INT_MAX = 2 ^ 31 - 1) by reflexivity.
  assert (H31 : 2 ^ 31 < 2 ^ 64) by reflexivity.
  unfold crypto_pk_private_hybrid_decrypt. fold K.
  rewrite len_app, Hblk.
  destruct (Z.leb_spec (K + len sym) K); [lia|].
  unfold crypto_pk_private_decrypt, tor_assert.
  destruct (Z.ltb_spec K INT_MAX); [|lia].
  rewrite Hpriv. cbn [negb]. rewrite len_app, Hblk.
  destruct (Z.gtb_spec K (K + len sym)); [lia|].
  assert (Hfirst : firstn (Z.to_nat K) (blk ++ sym) = blk).
  { rewrite <- Hblk. unfold len. rewrite Nat2Z.id, firstn_app, Nat.sub_diag.
    cbn [firstn]. rewrite firstn_all, app_nil_r. reflexivity. }
  assert (Hskip : skipn (Z.to_nat K) (blk ++ sym) = sym).
  { rewrite <- Hblk. unfold len. rewrite Nat2Z.id, skipn_app, Nat.sub_diag.
    cbn [skipn]. rewrite skipn_all. reflexivity. }
  rewrite Hfirst, Hdec. cbn [bind]. rewrite len_app, Hk.
  change CIPHER_KEY_LEN with 16.
  destruct (Z.ltb_spec (16 + len prefix) 16); [lia|].
  rewrite Hskip.
  replace (K + len sym - K) with (len sym) by lia.
  rewrite (to_size_t_small (len sym)) by lia.
  unfold crypto_cipher_decrypt.
  destruct (Z.gtb_spec (len sym) (len sym)); [lia|].
  rewrite firstn_len.
  assert (Hk16 : firstn (Z.to_nat 16) (k ++ prefix) = k).
  { rewrite <- Hk. unfold len. rewrite Nat2Z.id, firstn_app, Nat.sub_diag.
    cbn [firstn]. rewrite firstn_all, app_nil_r. reflexivity. }
  assert (Hs16 : skipn (Z.to_nat 16) (k ++ prefix) = prefix).
  { rewrite <- Hk. unfold len. rewrite Nat2Z.id, skipn_app, Nat.sub_diag.
    cbn [skipn]. rewrite skipn_all. reflexivity. }
  unfold crypto_create_init_cipher, crypto_cipher_decrypt_init_cipher,
    crypto_cipher_set_key, aes_crypt, aes_set_key.
  cbn [key cipher aes_key aes_iv aes_pos bind snd].
  change CIPHER_KEY_LEN with 16. change (Z.to_nat (16 * 8 / 8)) with (Z.to_nat 16).
  rewrite Hk16, Hs16.
  replace (firstn (Z.to_nat 16) k) with k by (rewrite <- Hk; symmetry; apply firstn_len).
  rewrite to_size_t_small by lia.
  destruct (Z.ltb_spec (16 + len prefix - 16 + (K + len sym)) INT_MAX); [|lia].
  reflexivity.
Qed.
End HybridRoundTrip.

(** The stand-in key obeys the laws assumed of RSA. *)
Lemma toy_rsa_laws K : RSA_laws (toy_rsa K).
Proof.
  constructor; cbn [toy_rsa RSA_size rsa_n RSA_public_encrypt RSA_private_decrypt].
  - intros m pad c. unfold toy_encrypt.
    destruct pad; cbn [crypto_get_rsa_padding_overhead].
    + destruct (Z.eqb_spec (len m) K); cbn [andb]; [|discriminate].
      destruct (BN_bin2bn m <? 2 ^ (8 * K) - 1); [|discriminate].
      intros E; inversion E; subst. unfold len. rewrite length_rev. reflexivity.
    + destruct (Z.leb_spec (len m + 11) K); [|discriminate].
      intros E; inversion E; subst.
      rewrite len_cons, len_app. unfold len in *. rewrite repeat_length. lia.
    + destruct (Z.leb_spec (len m + 42) K); [|discriminate].
      intros E; inversion E; subst.
      rewrite len_cons, len_app. unfold len in *. rewrite repeat_length. lia.
  - intros m pad c. unfold toy_encrypt, toy_decrypt.
    destruct pad; cbn [crypto_get_rsa_padding_overhead].
    + destruct (Z.eqb_spec (len m) K); cbn [andb]; [|discriminate].
      destruct (BN_bin2bn m <? 2 ^ (8 * K) - 1); [|discriminate].
      intros E; inversion E; subst. unfold len. rewrite length_rev.
      fold (len m). rewrite Z.eqb_refl, rev_involutive. reflexivity.
    + destruct (len m + 11 <=? K); [|discriminate].
      intros E; inversion E; subst.
      rewrite firstn_app, firstn_len. unfold len. rewrite Nat2Z.id, Nat.sub_diag.
      cbn [firstn]. rewrite app_nil_r. reflexivity.
    + destruct (len m + 42 <=? K); [|discriminate].
      intros E; inversion E; subst.
      rewrite firstn_app, firstn_len. unfold len. rewrite Nat2Z.id, Nat.sub_diag.
      cbn [firstn]. rewrite app_nil_r. reflexivity.
  - intros m pad Hpad Hfit. unfold toy_encrypt.
    destruct pad; [contradiction| |]; cbn [crypto_get_rsa_padding_overhead] in *.
    + destruct (Z.leb_spec (len m + 11) K); [discriminate | lia].
    + destruct (Z.leb_spec (len m + 42) K); [discriminate | lia].
  - intros m Hlen _ Hn. unfold toy_encrypt. rewrite Hlen, Z.eqb_refl. cbn [andb].
    destruct (Z.ltb_spec (BN_bin2bn m) (2 ^ (8 * K) - 1)); [discriminate | lia].
Qed.

Lemma Forall_bytes_repeat b n : is_byte b -> Forall is_byte (repeat b n).
Proof. intros Hb. induction n; cbn [repeat]; constructor; auto. Qed.

Lemma overhead_nonneg padding :
  0 <= crypto_get_rsa_padding_overhead (crypto_get_rsa_padding padding).
Proof. destruct padding; cbn; lia. Qed.

Lemma is_no_padding_true padding :
  is_no_padding padding = true <-> padding = PK_NO_PADDING.
Proof. destruct padding; cbn; split; congruence. Qed.

Section HybridTheorems.
Variable AES_keystream : list Z -> list Z -> Z -> Z.
Variable env : crypto_pk_env_t.
Variable padding : pk_padding.
Hypothesis laws : RSA_laws (pk_key env).

(** The long branch succeeds and has the advertised length. *)
Lemma hybrid_encrypt_long_ok k from force :
  let K := crypto_pk_keysize env in
  let O := crypto_get_rsa_padding_overhead (crypto_get_rsa_padding padding) in
  len k = 16 -> Forall is_byte k -> Forall is_byte from ->
  ~ (padding = PK_NO_PADDING /\ len from < K) ->
  force = true \/ K < len from + O ->
  16 <= K - O -> K - O - 16 < len from -> len from + K < INT_MAX ->
  (padding = PK_NO_PADDING -> 2 ^ (8 * K - 1) <= rsa_n (pk_key env)) ->
  exists blk,
    RSA_public_encrypt (pk_key env)
      (hybrid_key padding k ++ firstn (Z.to_nat (K - O - 16)) from)
      (crypto_get_rsa_padding padding) = Some blk
    /\ len blk = K
    /\ crypto_pk_public_hybrid_encrypt AES_keystream env (Some k) from padding force
       = Returns (blk ++ xor_keystream
                    (AES_keystream (hybrid_key padding k) (repeat 0 16)) 0
                    (skipn (Z.to_nat (K - O - 16)) from)).
Proof.
  intros K O.
  intros Hk Hkb Hfb Hguard Hbranch HT Hpre Hmax Htop.
  pose proof (overhead_nonneg padding) as HO. fold O in HO.
  pose proof (len_nonneg from) as HN.
  assert (HI : INT_MAX = 2 ^ 31 - 1) by reflexivity.
  assert (H31 : 2 ^ 31 < 2 ^ 64) by reflexivity.
  destruct (hybrid_block_encrypts env padding laws k from Hk Hkb Hfb HT
              ltac:(fold K O; lia) Htop) as [blk [Henc Hblk]].
  exists blk. split; [exact Henc|]. split; [exact Hblk|].
  apply hybrid_encrypt_long; try assumption.
  - destruct (is_no_padding padding) eqn:Hnp; [|reflexivity].
    apply is_no_padding_true in Hnp. cbn [andb].
    apply Z.ltb_ge. fold K.
    destruct (Z.lt_ge_cases (len from) K); [exfalso; apply Hguard; auto | lia].
  - destruct Hbranch as [->|Hover]; [reflexivity|].
    fold K O. rewrite to_size_t_small by lia.
    destruct (Z.leb_spec (len from + O) K); [lia|]. apply andb_false_r.
Qed.
End HybridTheorems.

(** C2 (amended): with key size [K], overhead [O] and [T = K - O],
    [crypto_pk_public_hybrid_encrypt] returns -1 when there is no padding
    and [N < K]; otherwise, when [force] is false and [N + O <= K], it
    returns exactly the plain public-encrypt of the message; otherwise, when
    [N > T - 16], the key draw succeeds and RSA behaves, it returns
    [K + (N - T + 16)], which is 527 for [K = 128], [O = 11], [N = 500].
    (With [force] set and [N = T - 16] the tail is empty and the cipher
    call's assertion fails; shorter forced messages are read out of
    bounds.) *)
Theorem C2_hybrid_encrypt_lengths :
  (forall ks env rand from force,
      len from < crypto_pk_keysize env ->
      crypto_pk_public_hybrid_encrypt ks env rand from PK_NO_PADDING force = Fails)
  /\ (forall ks env rand from padding,
         let K := crypto_pk_keysize env in
         let O := crypto_get_rsa_padding_overhead (crypto_get_rsa_padding padding) in
         ~ (padding = PK_NO_PADDING /\ len from < K) ->
         len from + O <= K ->
         crypto_pk_public_hybrid_encrypt ks env rand from padding false
         = crypto_pk_public_encrypt env from (len from) padding)
  /\ (forall ks env k from padding force,
         let K := crypto_pk_keysize env in
         let O := crypto_get_rsa_padding_overhead (crypto_get_rsa_padding padding) in
         let T := K - O in
         RSA_laws (pk_key env) ->
         len k = 16 -> Forall is_byte k -> Forall is_byte from ->
         ~ (padding = PK_NO_PADDING /\ len from < K) ->
         force = true \/ K < len from + O ->
         16 <= T -> T - 16 < len from -> len from + K < INT_MAX ->
         (padding = PK_NO_PADDING -> 2 ^ (8 * K - 1) <= rsa_n (pk_key env)) ->
         exists c,
           crypto_pk_public_hybrid_encrypt ks env (Some k) from padding force
           = Returns c
           /\ ret_len (Returns c) = Some (K + (len from - T + 16)))
  /\ ret_len (crypto_pk_public_hybrid_encrypt toy_keystream (toy_pk 128)
                (Some (repeat 1 16)) (repeat 2 500) PK_PKCS1_PADDING false)
     = Some 527.
Proof.
  split; [|split; [|split]].
  - intros ks env rand from force Hshort.
    unfold crypto_pk_public_hybrid_encrypt. cbn [is_no_padding andb].
    destruct (Z.ltb_spec (len from) (crypto_pk_keysize env)); [reflexivity | lia].
  - intros ks env rand from padding K O Hguard Hfit.
    unfold crypto_pk_public_hybrid_encrypt. fold K O.
    assert (HO : 0 <= O) by exact (overhead_nonneg padding).
    pose proof (len_nonneg from) as HN.
    destruct (is_no_padding padding) eqn:Hnp.
    + apply is_no_padding_true in Hnp. cbn [andb].
      destruct (Z.ltb_spec (len from) K); [exfalso; apply Hguard; auto|].
      cbn [negb andb].
      assert (Hle : to_size_t (len from + O) <= K).
      { unfold to_size_t. pose proof (Z.mod_le (len from + O) (2 ^ 64)). lia. }
      destruct (Z.leb_spec (to_size_t (len from + O)) K); [reflexivity | lia].
    + cbn [negb andb].
      assert (Hle : to_size_t (len from + O) <= K).
      { unfold to_size_t. pose proof (Z.mod_le (len from + O) (2 ^ 64)). lia. }
      destruct (Z.leb_spec (to_size_t (len from + O)) K); [reflexivity | lia].
  - intros ks env k from padding force K O T laws Hk Hkb Hfb Hguard Hbranch HT Hpre
           Hmax Htop.
    destruct (hybrid_encrypt_long_ok ks env padding laws k from force Hk Hkb Hfb
                Hguard Hbranch HT Hpre Hmax Htop) as [blk [_ [Hblk Hrun]]].
    eexists. split; [exact Hrun|].
    cbn [ret_len]. f_equal. fold (len (blk ++ xor_keystream
      (ks (hybrid_key padding k) (repeat 0 16)) 0
      (skipn (Z.to_nat (crypto_pk_keysize env -
                        crypto_get_rsa_padding_overhead (crypto_get_rsa_padding padding)
                        - 16)) from))).
    rewrite len_app, len_xor_keystream, Hblk, len_skipn_Z.
    + subst T K O. lia.
    + pose proof (len_nonneg from). subst T K O. lia.
  - vm_compute. reflexivity.
Qed.

Lemma C2_hybrid_encrypt_lengths_witness :
  exists c,
    crypto_pk_public_hybrid_encrypt toy_keystream (toy_pk 128)
      (Some (repeat 1 16)) (repeat 2 500) PK_PKCS1_PADDING false = Returns c
    /\ ret_len (Returns c) = Some (128 + (500 - (128 - 11) + 16)).
Proof.
  refine (proj1 (proj2 (proj2 C2_hybrid_encrypt_lengths))
            toy_keystream (toy_pk 128) (repeat 1 16) (repeat 2 500)
            PK_PKCS1_PADDING false _ _ _ _ _ _ _ _ _ _).
  - apply toy_rsa_laws.
  - reflexivity.
  - apply Forall_bytes_repeat. unfold is_byte. lia.
  - apply Forall_bytes_repeat. unfold is_byte. lia.
  - intros [E _]. discriminate E.
  - right. vm_compute. reflexivity.
  - vm_compute. discriminate.
  - vm_compute. reflexivity.
  - vm_compute. reflexivity.
  - intros E. discriminate E.
Defined.

(** C2 as stated fails when [force] is set and the message is short: for
    [K = 128], [O = 11] and [N = 101 = T - 16] the claim gives the length
    [128 + (101 - 117 + 16) = 128], but the tail is empty and
    [crypto_cipher_encrypt] asserts that it is not; for [N = 0] the code
    copies 101 bytes out of an empty message. *)
Lemma C2_counterexample_forced_short :
  crypto_pk_public_hybrid_encrypt toy_keystream (toy_pk 128)
    (Some (repeat 1 16)) (repeat 2 101) PK_PKCS1_PADDING true = Aborts
  /\ ret_len (crypto_pk_public_hybrid_encrypt toy_keystream (toy_pk 128)
                (Some (repeat 1 16)) (repeat 2 101) PK_PKCS1_PADDING true)
     <> Some (128 + (101 - (128 - 11) + 16))
  /\ crypto_pk_public_hybrid_encrypt toy_keystream (toy_pk 128)
       (Some (repeat 1 16)) [] PK_PKCS1_PADDING true = Undef.
Proof. split; [|split]; vm_compute; try reflexivity. discriminate. Qed.

(** C1 (amended): for a key that OpenSSL's RSA handles as assumed and that
    has its private part, a 16-byte symmetric key drawn successfully and a
    message [M] of [N] bytes with [N + K < INT_MAX],
    [crypto_pk_private_hybrid_decrypt] applied to the output of
    [crypto_pk_public_hybrid_encrypt] recovers [M] and returns [N], in the
    short and in the long branch, provided that: without padding, [N >= K],
    the modulus has its top bit set and, in the single-block case, [M] is
    below the modulus; and with [force] set, [N > T - 16]. *)
Theorem C1_hybrid_round_trip
        (AES_keystream : list Z -> list Z -> Z -> Z) (env : crypto_pk_env_t)
        (k from : list Z) (padding : pk_padding) (force : bool)
        (laws : RSA_laws (pk_key env))
        (Hpriv : rsa_p (pk_key env) = true)
        (Hk : len k = 16) (Hkb : Forall is_byte k) (Hfb : Forall is_byte from)
        (Hmax : len from + crypto_pk_keysize env < INT_MAX)
        (HT : 16 <= crypto_pk_keysize env
                    - crypto_get_rsa_padding_overhead (crypto_get_rsa_padding padding))
        (Hraw : padding = PK_NO_PADDING ->
                crypto_pk_keysize env <= len from
                /\ 2 ^ (8 * crypto_pk_keysize env - 1) <= rsa_n (pk_key env)
                /\ (force = false -> len from = crypto_pk_keysize env ->
                    BN_bin2bn from < rsa_n (pk_key env)))
        (Hforce : force = true ->
                  crypto_pk_keysize env
                  - crypto_get_rsa_padding_overhead (crypto_get_rsa_padding padding)
                  - 16 < len from) :
  exists c,
    crypto_pk_public_hybrid_encrypt AES_keystream env (Some k) from padding force
    = Returns c
    /\ crypto_pk_private_hybrid_decrypt AES_keystream env c padding = Returns from
    /\ ret_len (crypto_pk_private_hybrid_decrypt AES_keystream env c padding)
       = Some (len from).
Proof.
  set (K := crypto_pk_keysize env) in *.
  set (O := crypto_get_rsa_padding_overhead (crypto_get_rsa_padding padding)) in *.
  pose proof (overhead_nonneg padding) as HO. fold O in HO.
  pose proof (len_nonneg from) as HN.
  assert (HI : INT_MAX = 2 ^ 31 - 1) by reflexivity.
  assert (H31 : 2 ^ 31 < 2 ^ 64) by reflexivity.
  assert (Hguard : ~ (padding = PK_NO_PADDING /\ len from < K)).
  { intros [E Hlt]. destruct (Hraw E) as [Hge _]. lia. }
  assert (Hfinish : forall c,
             crypto_pk_private_hybrid_decrypt AES_keystream env c padding = Returns from ->
             crypto_pk_private_hybrid_decrypt AES_keystream env c padding = Returns from
             /\ ret_len (crypto_pk_private_hybrid_decrypt AES_keystream env c padding)
                = Some (len from)).
  { intros c E. split; [exact E|]. rewrite E. reflexivity. }
  destruct (negb force && (len from + O <=? K)) eqn:Hshort.
  - (* a single RSA block *)
    apply andb_true_iff in Hshort. destruct Hshort as [Hf Hfit].
    apply negb_true_iff in Hf. subst force. apply Z.leb_le in Hfit.
    assert (Henc : RSA_public_encrypt (pk_key env) from (crypto_get_rsa_padding padding)
                   <> None).
    { destruct padding eqn:Hp; cbn [crypto_get_rsa_padding].
      - destruct (Hraw eq_refl) as [Hge [_ Hbelow]].
        assert (O = 0) by reflexivity.
        apply (rsa_enc_raw _ laws); [change (len from = K); lia | exact Hfb|].
        apply Hbelow; [reflexivity | lia].
      - apply (rsa_enc_padded _ laws); [discriminate | exact Hfit].
      - apply (rsa_enc_padded _ laws); [discriminate | exact Hfit]. }
    destruct (RSA_public_encrypt (pk_key env) from (crypto_get_rsa_padding padding))
      as [c|] eqn:Ec; [|congruence].
    pose proof (rsa_enc_len _ laws _ _ _ Ec) as Hc. fold K in Hc.
    pose proof (rsa_dec_enc _ laws _ _ _ Ec) as Hd.
    exists c. split.
    + unfold crypto_pk_public_hybrid_encrypt. fold K O.
      assert (G : is_no_padding padding && (len from <? K) = false).
      { destruct (is_no_padding padding) eqn:Hnp; [|reflexivity].
        apply is_no_padding_true in Hnp. cbn [andb]. apply Z.ltb_ge.
        destruct (Z.lt_ge_cases (len from) K); [exfalso; apply Hguard; auto | lia]. }
      rewrite G, to_size_t_small by lia.
      destruct (Z.leb_spec (len from + O) K); [|lia]. cbn [negb andb].
      unfold crypto_pk_public_encrypt, tor_assert.
      destruct (Z.ltb_spec (len from) INT_MAX); [|lia].
      destruct (Z.gtb_spec (len from) (len from)); [lia|].
      rewrite firstn_len, Ec. reflexivity.
    + apply Hfinish.
      assert (Hc' : len c = K) by exact Hc.
      unfold crypto_pk_private_hybrid_decrypt.
      change (crypto_pk_keysize env) with K.
      destruct (Z.leb_spec (len c) K); [|lia].
      unfold crypto_pk_private_decrypt, tor_assert.
      destruct (Z.ltb_spec (len c) INT_MAX); [|lia].
      rewrite Hpriv. cbn [negb].
      destruct (Z.gtb_spec (len c) (len c)); [lia|].
      rewrite firstn_len, Hd. reflexivity.
  - (* RSA block and AES-CTR tail *)
    assert (Hpre : K - O - 16 < len from).
    { destruct force; [apply Hforce; reflexivity|].
      cbn [negb andb] in Hshort. apply Z.leb_gt in Hshort. lia. }
    assert (Hbranch : force = true \/ K < len from + O).
    { destruct force; [left; reflexivity|].
      cbn [negb andb] in Hshort. apply Z.leb_gt in Hshort. right. lia. }
    assert (Htop : padding = PK_NO_PADDING -> 2 ^ (8 * K - 1) <= rsa_n (pk_key env)).
    { intros E. apply (Hraw E). }
    destruct (hybrid_encrypt_long_ok AES_keystream env padding laws k from force
                Hk Hkb Hfb Hguard Hbranch HT Hpre Hmax Htop)
      as [blk [Henc [Hblk Hrun]]].
    fold K O in Henc, Hrun.
    eexists. split; [exact Hrun|]. apply Hfinish.
    pose proof (rsa_dec_enc _ laws _ _ _ Henc) as Hd.
    rewrite (hybrid_decrypt_long AES_keystream env padding blk _
               (hybrid_key padding k) (firstn (Z.to_nat (K - O - 16)) from)).
    + rewrite xor_keystream_involutive, firstn_skipn. reflexivity.
    + exact Hpriv.
    + exact Hblk.
    + rewrite len_xor_keystream, len_skipn_Z by lia. lia.
    + rewrite hybrid_key_len. exact Hk.
    + rewrite len_xor_keystream, len_skipn_Z, len_firstn by lia. fold K. lia.
    + exact Hd.
Qed.

Lemma C1_hybrid_round_trip_witness :
  exists c,
    crypto_pk_public_hybrid_encrypt toy_keystream (toy_pk 128)
      (Some (repeat 1 16)) (repeat 2 300) PK_PKCS1_OAEP_PADDING true = Returns c
    /\ crypto_pk_private_hybrid_decrypt toy_keystream (toy_pk 128) c
         PK_PKCS1_OAEP_PADDING = Returns (repeat 2 300)
    /\ ret_len (crypto_pk_private_hybrid_decrypt toy_keystream (toy_pk 128) c
                  PK_PKCS1_OAEP_PADDING) = Some (len (repeat 2 300)).
Proof.
  refine (C1_hybrid_round_trip toy_keystream (toy_pk 128) (repeat 1 16)
            (repeat 2 300) PK_PKCS1_OAEP_PADDING true _ _ _ _ _ _ _ _ _).
  - apply toy_rsa_laws.
  - reflexivity.
  - reflexivity.
  - apply Forall_bytes_repeat. unfold is_byte. lia.
  - apply Forall_bytes_repeat. unfold is_byte. lia.
  - vm_compute. reflexivity.
  - vm_compute. discriminate.
  - intros E. discriminate E.
  - intros _. vm_compute. reflexivity.
Defined.

(** C1 as stated fails: without padding a message shorter than the key is
    refused outright, so there is no output to decrypt; and with [force]
    set a message of [T - 16] bytes aborts in the cipher call. *)
Lemma C1_counterexample_no_padding_short :
  crypto_pk_public_hybrid_encrypt toy_keystream (toy_pk 128)
    (Some (repeat 1 16)) (repeat 2 100) PK_NO_PADDING false = Fails
  /\ crypto_pk_public_hybrid_encrypt toy_keystream (toy_pk 128)
       (Some (repeat 1 16)) [] PK_NO_PADDING true = Fails
  /\ crypto_pk_public_hybrid_encrypt toy_keystream (toy_pk 128)
       (Some (repeat 1 16)) (repeat 2 70) PK_PKCS1_OAEP_PADDING true = Aborts.
Proof. split; [|split]; vm_compute; reflexivity. Qed.

(** * Proofs for the further functions *)

(** ** Base32 encoding *)

Lemma nth_map_seq {A : Type} (f : nat -> A) (n k : nat) (d : A) :
  (k < n)%nat -> nth k (map f (seq 0 n)) d = f k.
Proof.
  intros H. rewrite (nth_indep _ d (f 0%nat)) by (rewrite length_map, length_seq; exact H).
  rewrite map_nth, seq_nth by exact H. reflexivity.
Qed.

Lemma base32_u_window src nbits bit :
  base32_u src nbits bit
  = u_of (byte_at src (bit / 8))
         (if bit + 5 <? nbits then byte_at src (bit / 8 + 1) else 0)
         (bit mod 8).
Proof.
  unfold base32_u, u_of, byte_at. destruct (bit + 5 <? nbits); [reflexivity|].
  rewrite Z.add_0_r. reflexivity.
Qed.

Lemma base32_u_range src nbits bit : 0 <= base32_u src nbits bit < 32.
Proof.
  unfold base32_u. change 0x1F with (Z.ones 5).
  set (v := if bit + 5 <? nbits then _ else _).
  destruct (Z.le_gt_cases 0 (Z.shiftr v (11 - bit mod 8))) as [Hv|Hv].
  - rewrite Z.land_ones by lia. apply Z.mod_pos_bound. lia.
  - exfalso. apply Z.shiftr_neg in Hv. subst v.
    pose proof (to_uint8_range (nth (Z.to_nat (bit / 8)) src 0)).
    pose proof (to_uint8_range (nth (Z.to_nat (bit / 8 + 1)) src 0)).
    assert (0 <= Z.shiftl (to_uint8 (nth (Z.to_nat (bit / 8)) src 0)) 8)
      by (apply Z.shiftl_nonneg; lia).
    destruct (bit + 5 <? nbits); lia.
Qed.

(** Every 5-bit value indexes a character that decodes back to it. *)
Lemma BASE32_CHARS_decode u :
  0 <= u < 32 ->
  base32_value (nth (Z.to_nat u) BASE32_CHARS 0) = Some u
  /\ in_base32_alphabet (nth (Z.to_nat u) BASE32_CHARS 0) = true.
Proof.
  intros Hu.
  assert (Hall : forallb (fun k =>
             match base32_value (nth k BASE32_CHARS 0) with
             | Some v => (v =? Z.of_nat k)
             | None => false
             end && in_base32_alphabet (nth k BASE32_CHARS 0)) (seq 0 32) = true)
    by (vm_compute; reflexivity).
  rewrite forallb_forall in Hall.
  specialize (Hall (Z.to_nat u) ltac:(apply in_seq; lia)).
  apply andb_true_iff in Hall. destruct Hall as [Hv Ha]. split; [|exact Ha].
  destruct (base32_value (nth (Z.to_nat u) BASE32_CHARS 0)); [|discriminate].
  apply Z.eqb_eq in Hv. f_equal. lia.
Qed.

Lemma base32_values_map {A : Type} (f g : A -> Z) (l : list A) :
  (forall x, In x l -> base32_value (f x) = Some (g x)) ->
  base32_values (map f l) = Some (map g l).
Proof.
  induction l as [|x l IH]; intros H; cbn [map base32_values]; [reflexivity|].
  rewrite (H x (or_introl eq_refl)), IH; [reflexivity|].
  intros y Hy. apply H. right. exact Hy.
Qed.

(** What [base32_encode] returns when its assertions hold. *)
Lemma base32_encode_runs destlen src :
  (len src * 8) mod 5 = 0 -> len src * 8 / 5 + 1 <= destlen < SIZE_T_CEILING ->
  len src * 8 <= UINT_MAX ->
  base32_encode destlen src
  = Returns (map (fun i => base32_char src (len src * 8) (5 * Z.of_nat i))
                 (seq 0 (Z.to_nat (len src * 8 / 5)))).
Proof.
  intros Hm Hd Hs. unfold base32_encode, tor_assert.
  pose proof (len_nonneg src) as Hnn.
  assert (HU : UINT_MAX < 2 ^ 64) by reflexivity.
  assert (Hprod : to_size_t (len src * 8) = len src * 8).
  { unfold to_size_t. apply Z.mod_small. lia. }
  rewrite Hprod.
  destruct (Z.eqb_spec (len src * 8 mod 5) 0); [|contradiction].
  destruct (Z.leb_spec (len src * 8 / 5 + 1) destlen); [|lia].
  destruct (Z.ltb_spec destlen SIZE_T_CEILING); [|lia].
  destruct (Z.gtb_spec (len src * 8) UINT_MAX); [lia|].
  reflexivity.
Qed.

(** X1: with its assertions met (8*srclen a multiple of 5, room for the
    characters and the NUL) and an input short enough for the 32-bit loop
    counters ([8*srclen <= UINT_MAX]), [base32_encode] writes exactly
    [8*srclen/5] characters, every one of them from the 32-character
    alphabet (so none is NUL and the decoder accepts them all). *)
Theorem X1_base32_encode_alphabet (destlen : Z) (src : list Z)
        (Hbits : (len src * 8) mod 5 = 0)
        (Hdest : len src * 8 / 5 + 1 <= destlen < SIZE_T_CEILING)
        (Hsize : len src * 8 <= UINT_MAX) :
  exists out,
    base32_encode destlen src = Returns out
    /\ len out = len src * 8 / 5
    /\ forallb in_base32_alphabet out = true
    /\ forallb base32_accepts out = true.
Proof.
  rewrite (base32_encode_runs destlen src Hbits Hdest Hsize).
  eexists. split; [reflexivity|].
  pose proof (len_nonneg src) as HN.
  split; [|split].
  - unfold len at 1. rewrite length_map, length_seq.
    apply Z2Nat.id. apply Z.div_pos; lia.
  - apply forallb_forall. intros c Hc. apply in_map_iff in Hc.
    destruct Hc as [i [<- _]]. unfold base32_char.
    apply BASE32_CHARS_decode. apply base32_u_range.
  - apply forallb_forall. intros c Hc. apply in_map_iff in Hc.
    destruct Hc as [i [<- _]]. unfold base32_char, base32_accepts.
    rewrite (proj2 (BASE32_CHARS_decode _ (base32_u_range _ _ _))). reflexivity.
Qed.

Lemma X1_base32_encode_alphabet_witness :
  exists out,
    base32_encode 9 (bytes_of_string "hello") = Returns out
    /\ len out = len (bytes_of_string "hello") * 8 / 5
    /\ forallb in_base32_alphabet out = true
    /\ forallb base32_accepts out = true.
Proof.
  apply (X1_base32_encode_alphabet 9 (bytes_of_string "hello")).
  - reflexivity.
  - vm_compute. split; [discriminate | reflexivity].
  - vm_compute. discriminate.
Defined.

(** *** The round trip, byte by byte *)

Lemma u_of_arith B N off :
  0 <= B -> 0 <= N -> 0 <= off <= 7 ->
  u_of B N off = ((B * 256 + N) / 2 ^ (11 - off)) mod 32.
Proof.
  intros. unfold u_of. rewrite Z.shiftl_mul_pow2, Z.shiftr_div_pow2 by lia.
  change 0x1F with (Z.ones 5). rewrite Z.land_ones by lia. reflexivity.
Qed.

Ltac base32_arith :=
  rewrite !u_of_arith by lia; unfold to_uint8;
  rewrite ?Z.shiftl_mul_pow2, ?Z.shiftr_div_pow2 by lia;
  cbn [Z.sub Z.pow Z.pow_pos Pos.iter Z.mul Pos.mul Z.opp Z.add Z.pos_sub
       Pos.pred_double Z.double Z.succ_double Z.pred_double Pos.add Pos.succ];
  Z.div_mod_to_equations; lia.

Lemma base32_byte0 b0 b1 :
  0 <= b0 < 256 -> 0 <= b1 < 256 ->
  to_uint8 (Z.shiftl (to_uint8 (u_of b0 b1 0)) 3
            + Z.shiftr (to_uint8 (u_of b0 b1 5)) 2) = b0.
Proof. intros. base32_arith. Qed.

Lemma base32_byte1 b0 b1 b2 :
  0 <= b0 < 256 -> 0 <= b1 < 256 -> 0 <= b2 < 256 ->
  to_uint8 (Z.shiftl (to_uint8 (u_of b0 b1 5)) 6
            + Z.shiftl (to_uint8 (u_of b1 b2 2)) 1
            + Z.shiftr (to_uint8 (u_of b1 b2 7)) 4) = b1.
Proof. intros. base32_arith. Qed.

Lemma base32_byte2 b1 b2 b3 :
  0 <= b1 < 256 -> 0 <= b2 < 256 -> 0 <= b3 < 256 ->
  to_uint8 (Z.shiftl (to_uint8 (u_of b1 b2 7)) 4
            + Z.shiftr (to_uint8 (u_of b2 b3 4)) 1) = b2.
Proof. intros. base32_arith. Qed.

Lemma base32_byte3 b2 b3 b4 :
  0 <= b2 < 256 -> 0 <= b3 < 256 -> 0 <= b4 < 256 ->
  to_uint8 (Z.shiftl (to_uint8 (u_of b2 b3 4)) 7
            + Z.shiftl (to_uint8 (u_of b3 b4 1)) 2
            + Z.shiftr (to_uint8 (u_of b3 b4 6)) 3) = b3.
Proof. intros. base32_arith. Qed.

Lemma base32_byte4 b3 b4 nx :
  0 <= b3 < 256 -> 0 <= b4 < 256 -> 0 <= nx < 256 ->
  to_uint8 (Z.shiftl (to_uint8 (u_of b3 b4 6)) 5
            + to_uint8 (u_of b4 nx 3)) = b4.
Proof. intros. base32_arith. Qed.

Lemma byte_at_range src j : 0 <= byte_at src j < 256.
Proof. apply to_uint8_range. Qed.

(** The value of character [8m + j] of block [m]: a window on byte
    [5m + c] and its successor, [off] bits in, where [5j = 8c + off]. *)
Lemma base32_u_block src M m j c off :
  len src = 5 * M -> 0 <= m < M -> 0 <= j <= 7 -> 5 * j = 8 * c + off ->
  0 <= off < 8 ->
  exists nx, 0 <= nx < 256
             /\ (j < 7 -> nx = byte_at src (5 * m + c + 1))
             /\ base32_u src (len src * 8) (5 * (8 * m + j))
                = u_of (byte_at src (5 * m + c)) nx off.
Proof.
  intros Hlen Hm Hj Hc Hoff. rewrite base32_u_window.
  assert (Hdiv : 5 * (8 * m + j) / 8 = 5 * m + c).
  { symmetry. apply Z.div_unique_pos with off; lia. }
  assert (Hmod : 5 * (8 * m + j) mod 8 = off).
  { symmetry. apply Z.mod_unique_pos with (5 * m + c); lia. }
  rewrite Hdiv, Hmod.
  destruct (5 * (8 * m + j) + 5 <? len src * 8) eqn:Hg.
  - exists (byte_at src (5 * m + c + 1)).
    split; [apply byte_at_range|]. split; [reflexivity|]. reflexivity.
  - exists 0. split; [lia|]. split; [|reflexivity].
    intros Hj7. apply Z.ltb_ge in Hg. lia.
Qed.

Lemma base32_roundtrip_byte src M i :
  len src = 5 * M -> 0 <= i < len src ->
  base32_byte
    (map (fun k => base32_u src (len src * 8) (5 * Z.of_nat k))
         (seq 0 (Z.to_nat (len src * 8 / 5))))
    (8 * i)
  = byte_at src i.
Proof.
  intros Hlen Hi.
  set (tmp := map _ _).
  assert (Hn : len src * 8 / 5 = 8 * M).
  { rewrite Hlen. replace (5 * M * 8) with (8 * M * 5) by lia.
    apply Z.div_mul. lia. }
  assert (Ht : forall k, 0 <= k < 8 * M ->
             to_uint8 (nth (Z.to_nat k) tmp 0)
             = to_uint8 (base32_u src (len src * 8) (5 * k))).
  { intros k Hk. subst tmp. rewrite nth_map_seq by (rewrite Hn; lia).
    rewrite Z2Nat.id by lia. reflexivity. }
  set (m := i / 5). set (r := i mod 5).
  assert (Hir : i = 5 * m + r) by (subst m r; apply Z.div_mod; lia).
  assert (Hr : 0 <= r < 5) by (subst r; apply Z.mod_pos_bound; lia).
  assert (Hm : 0 <= m < M) by lia.
  assert (Hq : 8 * i / 5 = 8 * m + 8 * r / 5).
  { rewrite Hir. replace (8 * (5 * m + r)) with (8 * r + 8 * m * 5) by lia.
    rewrite Z.div_add by lia. lia. }
  assert (H40 : 8 * i mod 40 = 8 * r).
  { symmetry. apply Z.mod_unique_pos with m; lia. }
  unfold base32_byte. cbv zeta. rewrite Hq, H40.
  assert (Hcases : r = 0 \/ r = 1 \/ r = 2 \/ r = 3 \/ r = 4) by lia.
  destruct Hcases as [E|[E|[E|[E|E]]]]; rewrite E in *; clear E; rewrite Hir.
  - change (8 * 0 / 5) with 0. change (8 * 0 =? 0) with true. cbv iota.
    rewrite !Ht by lia.
    destruct (base32_u_block src M m 0 0 0 Hlen Hm ltac:(lia) ltac:(lia) ltac:(lia))
      as [n0 [Hn0 [En0 U0]]].
    destruct (base32_u_block src M m 1 0 5 Hlen Hm ltac:(lia) ltac:(lia) ltac:(lia))
      as [n1 [Hn1 [En1 U1]]].
    replace (8 * m + 0 + 1) with (8 * m + 1) by lia.
    rewrite U0, U1, (En0 ltac:(lia)), (En1 ltac:(lia)).
    replace (5 * m + 0 + 1) with (5 * m + 1) by lia.
    replace (5 * m + 0) with (5 * m) by lia.
    apply base32_byte0; apply byte_at_range.
  - change (8 * 1 / 5) with 1. change (8 * 1 =? 0) with false.
    change (8 * 1 =? 8) with true. cbv iota.
    rewrite !Ht by lia.
    destruct (base32_u_block src M m 1 0 5 Hlen Hm ltac:(lia) ltac:(lia) ltac:(lia))
      as [n1 [Hn1 [En1 U1]]].
    destruct (base32_u_block src M m 2 1 2 Hlen Hm ltac:(lia) ltac:(lia) ltac:(lia))
      as [n2 [Hn2 [En2 U2]]].
    destruct (base32_u_block src M m 3 1 7 Hlen Hm ltac:(lia) ltac:(lia) ltac:(lia))
      as [n3 [Hn3 [En3 U3]]].
    replace (8 * m + 1 + 1) with (8 * m + 2) by lia.
    replace (8 * m + 1 + 2) with (8 * m + 3) by lia.
    rewrite U1, U2, U3, (En1 ltac:(lia)), (En2 ltac:(lia)), (En3 ltac:(lia)).
    replace (5 * m + 0 + 1) with (5 * m + 1) by lia.
    replace (5 * m + 1 + 1) with (5 * m + 2) by lia.
    replace (5 * m + 0) with (5 * m) by lia.
    apply base32_byte1; apply byte_at_range.
  - change (8 * 2 / 5) with 3. change (8 * 2 =? 0) with false.
    change (8 * 2 =? 8) with false. change (8 * 2 =? 16) with true. cbv iota.
    rewrite !Ht by lia.
    destruct (base32_u_block src M m 3 1 7 Hlen Hm ltac:(lia) ltac:(lia) ltac:(lia))
      as [n3 [Hn3 [En3 U3]]].
    destruct (base32_u_block src M m 4 2 4 Hlen Hm ltac:(lia) ltac:(lia) ltac:(lia))
      as [n4 [Hn4 [En4 U4]]].
    replace (8 * m + 3 + 1) with (8 * m + 4) by lia.
    rewrite U3, U4, (En3 ltac:(lia)), (En4 ltac:(lia)).
    replace (5 * m + 1 + 1) with (5 * m + 2) by lia.
    replace (5 * m + 2 + 1) with (5 * m + 3) by lia.
    apply base32_byte2; apply byte_at_range.
  - change (8 * 3 / 5) with 4. change (8 * 3 =? 0) with false.
    change (8 * 3 =? 8) with false. change (8 * 3 =? 16) with false.
    change (8 * 3 =? 24) with true. cbv iota.
    rewrite !Ht by lia.
    destruct (base32_u_block src M m 4 2 4 Hlen Hm ltac:(lia) ltac:(lia) ltac:(lia))
      as [n4 [Hn4 [En4 U4]]].
    destruct (base32_u_block src M m 5 3 1 Hlen Hm ltac:(lia) ltac:(lia) ltac:(lia))
      as [n5 [Hn5 [En5 U5]]].
    destruct (base32_u_block src M m 6 3 6 Hlen Hm ltac:(lia) ltac:(lia) ltac:(lia))
      as [n6 [Hn6 [En6 U6]]].
    replace (8 * m + 4 + 1) with (8 * m + 5) by lia.
    replace (8 * m + 4 + 2) with (8 * m + 6) by lia.
    rewrite U4, U5, U6, (En4 ltac:(lia)), (En5 ltac:(lia)), (En6 ltac:(lia)).
    replace (5 * m + 2 + 1) with (5 * m + 3) by lia.
    replace (5 * m + 3 + 1) with (5 * m + 4) by lia.
    apply base32_byte3; apply byte_at_range.
  - change (8 * 4 / 5) with 6. change (8 * 4 =? 0) with false.
    change (8 * 4 =? 8) with false. change (8 * 4 =? 16) with false.
    change (8 * 4 =? 24) with false. cbv iota.
    rewrite !Ht by lia.
    destruct (base32_u_block src M m 6 3 6 Hlen Hm ltac:(lia) ltac:(lia) ltac:(lia))
      as [n6 [Hn6 [En6 U6]]].
    destruct (base32_u_block src M m 7 4 3 Hlen Hm ltac:(lia) ltac:(lia) ltac:(lia))
      as [n7 [Hn7 [En7 U7]]].
    replace (8 * m + 6 + 1) with (8 * m + 7) by lia.
    rewrite U6, U7, (En6 ltac:(lia)).
    replace (5 * m + 3 + 1) with (5 * m + 4) by lia.
    apply base32_byte4; try apply byte_at_range. exact Hn7.
Qed.

(** X2: decoding undoes encoding.  For every byte string whose length
    meets the encoder's assertion and is short enough for the 32-bit loop
    counters of both functions ([8*srclen <= UINT_MAX]), [base32_decode]
    applied to what [base32_encode] wrote returns 0 and restores the
    bytes. *)
Theorem X2_base32_round_trip (destlen destlen' : Z) (src : list Z)
        (Hbits : (len src * 8) mod 5 = 0)
        (Hdest : len src * 8 / 5 + 1 <= destlen < SIZE_T_CEILING)
        (Hdest' : len src <= destlen' < SIZE_T_CEILING)
        (Hsize : len src * 8 <= UINT_MAX) :
  exists enc,
    base32_encode destlen src = Returns enc
    /\ base32_decode destlen' enc = Returns (map to_uint8 src).
Proof.
  rewrite (base32_encode_runs destlen src Hbits Hdest Hsize).
  eexists. split; [reflexivity|].
  pose proof (len_nonneg src) as HN.
  assert (HM : exists M, len src = 5 * M).
  { exists (2 * (len src * 8 / 5) - 3 * len src).
    pose proof (Z.div_mod (len src * 8) 5 ltac:(lia)). lia. }
  destruct HM as [M HM].
  assert (Hn : len src * 8 / 5 = 8 * M).
  { rewrite HM. replace (5 * M * 8) with (8 * M * 5) by lia. apply Z.div_mul. lia. }
  set (enc := map _ _).
  assert (Hlenc : len enc = 8 * M).
  { subst enc. unfold len at 1. rewrite length_map, length_seq, Hn. lia. }
  unfold base32_decode, tor_assert. rewrite Hlenc.
  replace (8 * M * 5) with (len src * 8) by lia.
  assert (HU : UINT_MAX < 2 ^ 64) by reflexivity.
  assert (Hprod : to_size_t (len src * 8) = len src * 8).
  { unfold to_size_t. apply Z.mod_small. lia. }
  rewrite Hprod.
  assert (H8 : len src * 8 mod 8 = 0) by (apply Z.mod_mul; lia).
  assert (Hd8 : len src * 8 / 8 = len src) by (apply Z.div_mul; lia).
  rewrite H8, Hd8. cbn [Z.eqb].
  destruct (Z.leb_spec (len src) destlen'); [|lia].
  destruct (Z.ltb_spec destlen' SIZE_T_CEILING); [|lia].
  destruct (Z.gtb_spec (8 * M) UINT_MAX); [lia|].
  destruct (Z.gtb_spec (len src * 8) UINT_MAX); [lia|].
  assert (Hvals : base32_values enc
                  = Some (map (fun k => base32_u src (len src * 8) (5 * Z.of_nat k))
                              (seq 0 (Z.to_nat (len src * 8 / 5))))).
  { subst enc. apply base32_values_map. intros k _. unfold base32_char.
    apply BASE32_CHARS_decode. apply base32_u_range. }
  rewrite Hvals. f_equal. unfold base32_assemble. rewrite Hd8.
  apply nth_ext with (d := 0) (d' := 0).
  - rewrite !length_map, length_seq. unfold len. lia.
  - intros i Hi. rewrite length_map, length_seq in Hi.
    rewrite nth_map_seq by exact Hi.
    rewrite (base32_roundtrip_byte src M (Z.of_nat i) HM) by (unfold len in *; lia).
    unfold byte_at. rewrite Nat2Z.id.
    change 0 with (to_uint8 0) at 2. rewrite map_nth. reflexivity.
Qed.

Lemma X2_base32_round_trip_witness :
  exists enc,
    base32_encode 17 (bytes_of_string "0123456789") = Returns enc
    /\ base32_decode 10 enc = Returns (map to_uint8 (bytes_of_string "0123456789")).
Proof.
  apply (X2_base32_round_trip 17 10 (bytes_of_string "0123456789")).
  - reflexivity.
  - vm_compute. split; [discriminate | reflexivity].
  - vm_compute. split; [discriminate | reflexivity].
  - vm_compute. discriminate.
Defined.

(** ** Random host names *)

Lemma strlen_no_nul l : ~ In 0 l -> strlen l = len l.
Proof.
  induction l as [|c l IH]; intros H; cbn [strlen]; [reflexivity|].
  destruct (Z.eqb_spec c 0) as [->|Hc]; [exfalso; apply H; left; reflexivity|].
  rewrite IH, len_cons; [reflexivity|]. intros Hin. apply H. right. exact Hin.
Qed.

Lemma strlen_app_nul l r : ~ In 0 l -> strlen (l ++ 0 :: r) = len l.
Proof.
  induction l as [|c l IH]; intros H; cbn [app strlen]; [reflexivity|].
  destruct (Z.eqb_spec c 0) as [->|Hc]; [exfalso; apply H; left; reflexivity|].
  rewrite IH, len_cons; [reflexivity|]. intros Hin. apply H. right. exact Hin.
Qed.

Lemma cstring_app_nul l r : ~ In 0 l -> cstring (l ++ 0 :: r) = l.
Proof.
  intros H. unfold cstring. rewrite strlen_app_nul by exact H.
  unfold len. rewrite Nat2Z.id, firstn_app, Nat.sub_diag, firstn_all.
  cbn [firstn]. apply app_nil_r.
Qed.

Lemma in_base32_alphabet_not_nul l :
  forallb in_base32_alphabet l = true -> ~ In 0 l.
Proof.
  intros H Hin. rewrite forallb_forall in H. specialize (H 0 Hin). discriminate H.
Qed.

Lemma hostname_rand_bytes_len_bounds r :
  0 <= r ->
  hostname_rand_bytes_len r mod 5 = 0
  /\ 5 * r <= 8 * hostname_rand_bytes_len r <= 5 * r + 39.
Proof.
  intros Hr. unfold hostname_rand_bytes_len.
  rewrite Z.quot_div_nonneg by lia.
  assert (Hn : 0 <= (r * 5 + 7) / 8) by (apply Z.div_pos; lia).
  rewrite Z.rem_mod_nonneg by lia.
  pose proof (Z.div_mod (r * 5 + 7) 8 ltac:(lia)) as Hd.
  pose proof (Z.mod_pos_bound (r * 5 + 7) 8 ltac:(lia)) as Hb.
  set (n := (r * 5 + 7) / 8) in *.
  pose proof (Z.div_mod n 5 ltac:(lia)) as Hd5.
  pose proof (Z.mod_pos_bound n 5 ltac:(lia)) as Hb5.
  destruct (Z.eqb_spec (n mod 5) 0) as [E|E]; cbn [negb].
  - split; [exact E | lia].
  - split; [|lia].
    replace (n + (5 - n mod 5)) with ((n / 5 + 1) * 5) by lia.
    apply Z.mod_mul. lia.
Qed.

Lemma crypto_rand_int_loop_accepts max cutoff draws :
  Exists (fun v => v < cutoff) draws ->
  exists val, In val draws /\ val < cutoff
              /\ crypto_rand_int_loop max cutoff draws = Some (to_int (val mod max)).
Proof.
  induction draws as [|v draws IH]; intros H; [inversion H|].
  cbn [crypto_rand_int_loop]. destruct (Z.ltb_spec v cutoff) as [Hv|Hv].
  - exists v. split; [left; reflexivity|]. split; [exact Hv | reflexivity].
  - inversion H as [? ? Hhd | ? ? Htl]; subst; [lia|].
    destruct (IH Htl) as [val [Hin [Hlt Hrun]]].
    exists val. split; [right; exact Hin|]. split; assumption.
Qed.

Lemma write_at_ok buf off data :
  0 <= off -> off + len data <= len buf ->
  write_at buf off data
  = Returns (firstn (Z.to_nat off) buf ++ data
             ++ skipn (Z.to_nat (off + len data)) buf).
Proof.
  intros H0 H1. unfold write_at.
  destruct (Z.ltb_spec off 0); [lia|].
  destruct (Z.ltb_spec (len buf) (off + len data)); [lia|]. reflexivity.
Qed.

Lemma write_at_len buf off data :
  0 <= off -> off + len data <= len buf ->
  len (firstn (Z.to_nat off) buf ++ data ++ skipn (Z.to_nat (off + len data)) buf)
  = len buf.
Proof.
  intros H0 H1. pose proof (len_nonneg data).
  rewrite !len_app, len_firstn, len_skipn_Z by lia. lia.
Qed.

Lemma In_firstn_subset (n : nat) (l : list Z) (x : Z) :
  In x (firstn n l) -> In x l.
Proof.
  revert n. induction l as [|a l IH]; intros [|n] H; cbn [firstn] in H;
    try contradiction.
  destruct H as [H|H]; [left; exact H | right; eapply IH; exact H].
Qed.

Lemma firstn_app_exact (l r : list Z) (k : Z) :
  0 <= k -> firstn (Z.to_nat (len l + k)) (l ++ r) = l ++ firstn (Z.to_nat k) r.
Proof.
  intros Hk. rewrite firstn_app. unfold len.
  rewrite firstn_all2 by lia. f_equal. f_equal. lia.
Qed.

(** X3: for [0 <= min_rand_len <= max_rand_len] small enough for the [int]
    arithmetic, NUL-free prefix and suffix, and a draw that
    [crypto_rand_int] accepts, [crypto_random_hostname] passes every
    assertion and stays inside its buffers, and the string it returns is the
    prefix, then between [min_rand_len] and [max_rand_len] characters of the
    base32 alphabet, then the suffix, whatever the allocator left in the
    result buffer. *)
Theorem X3_crypto_random_hostname_shape
        (min_rand_len max_rand_len : Z) (prefix suffix draws : list Z)
        (rand : Z -> list Z) (heap : Z -> Z)
        (Hmin : 0 <= min_rand_len <= max_rand_len)
        (Hint : max_rand_len * 5 + 7 <= INT_MAX)
        (Hsize : len prefix + len suffix < 2 ^ 62)
        (Hprefix : ~ In 0 prefix) (Hsuffix : ~ In 0 suffix)
        (Hrand : forall n, 0 <= n -> len (rand n) = n)
        (Hdraw : Exists (fun v => v < rand_cutoff (max_rand_len - min_rand_len + 1))
                        draws) :
  exists chars,
    crypto_random_hostname min_rand_len max_rand_len prefix suffix draws rand heap
    = Returns (Some (prefix ++ chars ++ suffix))
    /\ min_rand_len <= len chars <= max_rand_len
    /\ forallb in_base32_alphabet chars = true.
Proof.
  assert (HI : INT_MAX = 2 ^ 31 - 1) by reflexivity.
  assert (HU : UINT_MAX = 2 ^ 32 - 1) by reflexivity.
  assert (HC : SIZE_T_CEILING = 2 ^ 63) by reflexivity.
  assert (E31 : 2 ^ 31 = 2147483648) by reflexivity.
  assert (E32 : 2 ^ 32 = 4294967296) by reflexivity.
  assert (E62 : 2 ^ 62 = 4611686018427387904) by reflexivity.
  assert (E63 : 2 ^ 63 = 9223372036854775808) by reflexivity.
  assert (E64 : 2 ^ 64 = 18446744073709551616) by reflexivity.
  pose proof (len_nonneg prefix) as HP. pose proof (len_nonneg suffix) as HS.
  set (span := max_rand_len - min_rand_len + 1).
  unfold crypto_random_hostname, tor_assert.
  destruct (Z.geb_spec max_rand_len min_rand_len); [|lia].
  fold span. unfold to_uint32. rewrite (Z.mod_small span) by (subst span; lia).
  destruct (crypto_rand_int_loop_accepts span (rand_cutoff span) draws Hdraw)
    as [val [_ [_ Hloop]]].
  assert (Hcall : crypto_rand_int span draws = Returns (Some (to_int (val mod span)))).
  { unfold crypto_rand_int, tor_assert.
    destruct (Z.ltb_spec span UINT_MAX); [|subst span; lia].
    destruct (Z.gtb_spec span 0); [|subst span; lia].
    rewrite Hloop. reflexivity. }
  pose proof (crypto_rand_int_in_range span draws _ ltac:(subst span; lia) Hcall) as Hr.
  rewrite Hcall. cbn [bind].
  set (r := to_int (val mod span)) in *.
  set (randlen := min_rand_len + r).
  assert (HR : min_rand_len <= randlen <= max_rand_len) by (subst randlen span; lia).
  rewrite (strlen_no_nul prefix Hprefix), (strlen_no_nul suffix Hsuffix).
  destruct (hostname_rand_bytes_len_bounds randlen ltac:(lia)) as [H5 Hn].
  set (n := hostname_rand_bytes_len randlen) in *.
  assert (Hn0 : 0 <= n) by lia.
  set (resultlen := len prefix + len suffix + randlen + 16).
  rewrite (to_size_t_small resultlen) by (subst resultlen; lia).
  rewrite (to_size_t_small (resultlen - len prefix)) by (subst resultlen; lia).
  rewrite (to_size_t_small (resultlen - (len prefix + randlen))) by (subst resultlen; lia).
  set (result := map _ (seq 0 (Z.to_nat resultlen))).
  assert (Hres : len result = resultlen).
  { subst result. unfold len. rewrite length_map, length_seq. subst resultlen. lia. }
  rewrite firstn_len.
  rewrite write_at_ok by (subst resultlen; lia). cbn [bind].
  (* the random characters *)
  assert (Hbits : (len (rand n) * 8) mod 5 = 0).
  { rewrite (Hrand n Hn0).
    pose proof (Z.div_mod n 5 ltac:(lia)) as Hd. rewrite H5 in Hd.
    replace (n * 8) with (8 * (n / 5) * 5) by lia. apply Z.mod_mul. lia. }
  assert (Hchars : len (rand n) * 8 / 5 <= randlen + 7).
  { rewrite (Hrand n Hn0). apply Z.lt_succ_r. apply Z.div_lt_upper_bound; lia. }
  assert (Hchars' : randlen <= len (rand n) * 8 / 5).
  { rewrite (Hrand n Hn0). apply Z.div_le_lower_bound; lia. }
  assert (Hsz : len (rand n) * 8 <= UINT_MAX).
  { pose proof (Z.div_mod (len (rand n) * 8) 5 ltac:(lia)) as Hd.
    rewrite Hbits in Hd. lia. }
  rewrite (base32_encode_runs (resultlen - len prefix) (rand n) Hbits)
    by (try exact Hsz; subst resultlen; lia).
  cbn [bind].
  set (enc := map _ (seq 0 (Z.to_nat (len (rand n) * 8 / 5)))).
  assert (Hlenc : len enc = len (rand n) * 8 / 5).
  { subst enc. unfold len at 1. rewrite length_map, length_seq. lia. }
  assert (Halpha : forallb in_base32_alphabet enc = true).
  { apply forallb_forall. intros c Hc. subst enc. apply in_map_iff in Hc.
    destruct Hc as [i [<- _]]. unfold base32_char.
    apply BASE32_CHARS_decode. apply base32_u_range. }
  change (firstn (Z.to_nat 0) result) with (@nil Z). cbn [app].
  replace (0 + len prefix) with (len prefix) by lia.
  set (tail1 := skipn (Z.to_nat (len prefix)) result).
  assert (Htail1 : len tail1 = resultlen - len prefix).
  { subst tail1. rewrite len_skipn_Z by lia. lia. }
  assert (Hb1 : len (prefix ++ tail1) = resultlen) by (rewrite len_app; lia).
  rewrite write_at_ok
    by (rewrite ?len_app, ?Hlenc; change (len [0]) with 1; subst resultlen; lia).
  cbn [bind].
  replace (firstn (Z.to_nat (len prefix)) (prefix ++ tail1)) with prefix.
  2:{ replace (len prefix) with (len prefix + 0) at 1 by lia.
      rewrite firstn_app_exact by lia. cbn [firstn]. rewrite app_nil_r. reflexivity. }
  set (tail2 := skipn _ (prefix ++ tail1)).
  set (b2 := prefix ++ (enc ++ [0]) ++ tail2).
  assert (Hb2 : len b2 = resultlen).
  { subst b2 tail2.
    replace prefix with (firstn (Z.to_nat (len prefix)) (prefix ++ tail1)) at 1.
    - rewrite write_at_len; [exact Hb1 | lia |].
      rewrite len_app, Hlenc. change (len [0]) with 1. subst resultlen. lia.
    - replace (len prefix) with (len prefix + 0) at 1 by lia.
      rewrite firstn_app_exact by lia. cbn [firstn]. rewrite app_nil_r. reflexivity. }
  assert (Hcopy : strlcpy suffix (resultlen - (len prefix + randlen)) = suffix ++ [0]).
  { unfold strlcpy. destruct (Z.leb_spec (resultlen - (len prefix + randlen)) 0);
      [subst resultlen; lia|].
    rewrite (strlen_no_nul suffix Hsuffix).
    rewrite Z.min_l by (subst resultlen; lia). rewrite firstn_len. reflexivity. }
  rewrite Hcopy.
  rewrite write_at_ok
    by (rewrite ?len_app, ?Hb2; change (len [0]) with 1; subst resultlen; lia).
  cbn [bind].
  exists (firstn (Z.to_nat randlen) enc).
  split; [|split].
  - f_equal. f_equal.
    assert (Hhead : firstn (Z.to_nat (len prefix + randlen)) b2
                    = prefix ++ firstn (Z.to_nat randlen) enc).
    { subst b2. rewrite firstn_app_exact by lia. f_equal.
      rewrite <- app_assoc. rewrite firstn_app.
      replace (Z.to_nat randlen - length enc)%nat with 0%nat
        by (unfold len in *; lia).
      cbn [firstn]. apply app_nil_r. }
    rewrite Hhead. rewrite <- !app_assoc. cbn [app].
    replace (prefix ++ firstn (Z.to_nat randlen) enc ++ suffix ++ 0 :: skipn
               (Z.to_nat (len prefix + randlen + len (suffix ++ [0]))) b2)
      with ((prefix ++ firstn (Z.to_nat randlen) enc ++ suffix) ++ 0 :: skipn
               (Z.to_nat (len prefix + randlen + len (suffix ++ [0]))) b2)
      by (rewrite <- !app_assoc; reflexivity).
    apply cstring_app_nul.
    intros Hin. apply in_app_or in Hin. destruct Hin as [Hin|Hin]; [auto|].
    apply in_app_or in Hin. destruct Hin as [Hin|Hin]; [|auto].
    apply (in_base32_alphabet_not_nul enc Halpha).
    eapply In_firstn_subset; exact Hin.
  - rewrite len_firstn by lia. exact HR.
  - apply forallb_forall. intros c Hc.
    rewrite forallb_forall in Halpha. apply Halpha.
    eapply In_firstn_subset; exact Hc.
Qed.

Lemma X3_crypto_random_hostname_shape_witness :
  exists chars,
    crypto_random_hostname 8 20 (bytes_of_string "www.") (bytes_of_string ".com")
      [4294967295; 5] (fun n => repeat 7 (Z.to_nat n)) (fun i => i mod 7)
    = Returns (Some (bytes_of_string "www." ++ chars ++ bytes_of_string ".com"))
    /\ 8 <= len chars <= 20
    /\ forallb in_base32_alphabet chars = true.
Proof.
  apply (X3_crypto_random_hostname_shape 8 20 (bytes_of_string "www.")
           (bytes_of_string ".com") [4294967295; 5]
           (fun n => repeat 7 (Z.to_nat n)) (fun i => i mod 7)).
  - lia.
  - vm_compute. discriminate.
  - vm_compute. reflexivity.
  - intros H. cbn in H. repeat (destruct H as [H|H]; [discriminate H|]). exact H.
  - intros H. cbn in H. repeat (destruct H as [H|H]; [discriminate H|]). exact H.
  - intros n Hn. unfold len. rewrite repeat_length. lia.
  - apply Exists_cons_tl. apply Exists_cons_hd. vm_compute. reflexivity.
Defined.

(** ** Base64: whitespace, padding and short digests *)

Lemma b64_sextets_strip src :
  b64_spec_sextets b64_table_ws (b64_strip_ws src)
  = b64_spec_sextets b64_table_ws src.
Proof.
  induction src as [|c rest IH]; [reflexivity|].
  cbn [b64_strip_ws filter b64_spec_sextets]. fold (b64_strip_ws rest).
  destruct (to_uint8 c =? 61) eqn:Hpad.
  - assert (Hws : b64_is_ws b64_table_ws c = false).
    { apply Z.eqb_eq in Hpad. unfold b64_is_ws. rewrite Hpad. reflexivity. }
    rewrite Hws. cbn [negb b64_spec_sextets]. rewrite Hpad. reflexivity.
  - destruct (b64_is_ws b64_table_ws c) eqn:Hws; cbn [negb].
    + exact IH.
    + cbn [b64_spec_sextets]. rewrite Hpad, Hws, IH. reflexivity.
Qed.

Lemma b64_strip_len src : len (b64_strip_ws src) <= len src.
Proof.
  unfold b64_strip_ws, len. pose proof (filter_length_le
    (fun c => negb (b64_is_ws b64_table_ws c)) src). lia.
Qed.

Lemma base64_room_mono destlen (s1 s2 : list Z) :
  len s1 <= len s2 -> len s2 * 3 / 4 <= destlen -> len s1 * 3 / 4 <= destlen.
Proof.
  intros H1 H2. eapply Z.le_trans; [|exact H2]. apply Z.div_le_mono; lia.
Qed.








Lemma b64_spec_bytes_exact : forall (k : nat) vs,
  (length vs <= k)%nat ->
  if len vs mod 4 =? 1 then b64_spec_bytes vs = None
  else exists o, b64_spec_bytes vs = Some o /\ len o = 3 * len vs / 4.
Proof.
  induction k as [|k IH]; intros vs Hk.
  - destruct vs; cbn [length] in Hk; [|lia]. cbn. exists []. split; reflexivity.
  - destruct vs as [|a [|b [|c [|e vs]]]].
    + cbn. exists []. split; reflexivity.
    + reflexivity.
    + cbn. eexists. split; reflexivity.
    + cbn. eexists. split; reflexivity.
    + rewrite b64_spec_bytes_flush.
      assert (Hk' : (length vs <= k)%nat) by (cbn [length] in Hk; lia).
      specialize (IH vs Hk').
      rewrite !len_cons.
      replace (1 + (1 + (1 + (1 + len vs)))) with (len vs + 1 * 4) by lia.
      rewrite Z.mod_add by lia.
      destruct (len vs mod 4 =? 1).
      * rewrite IH. reflexivity.
      * destruct IH as [o [Ho Hlo]]. rewrite Ho. eexists. split; [reflexivity|].
        cbv zeta. rewrite !len_cons, Hlo.
        replace (3 * (len vs + 1 * 4)) with (3 * len vs + 3 * 4) by lia.
        rewrite Z.div_add by lia. lia.
Qed.

(** A character of the alphabet is neither [=] nor whitespace nor NUL. *)
Lemma b64_sextet_plain c :
  b64_sextet c <> None ->
  (to_uint8 c =? 61) = false /\ b64_is_ws b64_table_ws c = false /\ c <> 0.
Proof.
  intros H.
  assert (Hc : c <> 0) by (intros ->; apply H; reflexivity).
  pose proof (to_uint8_range c) as Hu.
  unfold b64_sextet in H. unfold b64_is_ws, b64_table_ws. cbn [existsb].
  set (u := to_uint8 c) in *.
  destruct (Z.leb_spec 65 u), (Z.leb_spec u 90), (Z.leb_spec 97 u), (Z.leb_spec u 122),
           (Z.leb_spec 48 u), (Z.leb_spec u 57), (Z.eqb_spec u 43), (Z.eqb_spec u 47);
    cbn [andb] in H; try (exfalso; apply H; reflexivity);
    (split; [apply Z.eqb_neq; lia|]); (split; [|exact Hc]);
    repeat (apply orb_false_iff; split); try reflexivity; apply Z.eqb_neq; lia.
Qed.

Lemma b64_sextets_plain s :
  (forall c, In c s -> b64_sextet c <> None) ->
  exists vs, b64_spec_sextets b64_table_ws s = Some vs /\ len vs = len s.
Proof.
  induction s as [|c s IH]; intros H.
  - exists []. split; reflexivity.
  - destruct (IH (fun x Hx => H x (or_intror Hx))) as [vs [Hvs Hl]].
    pose proof (H c (or_introl eq_refl)) as Hc.
    destruct (b64_sextet_plain c Hc) as [Hpad [Hws _]].
    cbn [b64_spec_sextets]. rewrite Hpad, Hws, Hvs.
    destruct (b64_sextet c) as [v|]; [|congruence].
    exists (v :: vs). split; [reflexivity|]. rewrite !len_cons. lia.
Qed.

(** X7: the short digest form is exactly 27 characters.  On a string made
    of characters of the base64 alphabet only, [digest_from_base64]
    succeeds and writes 20 bytes if the string has 27 characters, and
    returns -1 for every other length. *)
Theorem X7_digest_from_base64_length (d64 : list Z)
        (Hplain : forall c, In c d64 -> b64_sextet c <> None) :
  (len d64 = 27 ->
   exists digest, digest_from_base64 d64 = Returns digest /\ len digest = 20)
  /\ (len d64 <> 27 -> digest_from_base64 d64 = Fails).
Proof.
  assert (Hnul : ~ In 0 d64).
  { intros Hin. apply (proj2 (proj2 (b64_sextet_plain 0 (Hplain 0 Hin)))). reflexivity. }
  assert (Hstr : cstring d64 = d64).
  { unfold cstring. rewrite strlen_no_nul by exact Hnul. apply firstn_len. }
  unfold digest_from_base64. rewrite Hstr. change DIGEST_LEN with 20.
  pose proof (len_nonneg d64) as HN.
  destruct (b64_sextets_plain d64 Hplain) as [vs [Hvs Hl]].
  pose proof (b64_spec_bytes_exact (length vs) vs (le_n _)) as Hex.
  rewrite Hl in Hex.
  assert (HC : 20 < SIZE_T_CEILING) by reflexivity.
  assert (HI : INT_MAX = 2147483647) by reflexivity.
  destruct (Z.lt_ge_cases 20 (len d64 * 3 / 4)) as [Hbig|Hroom].
  { (* too long for the digest buffer *)
    assert (Hne : len d64 <> 27) by (intros E; rewrite E in Hbig; vm_compute in Hbig; discriminate).
    split; [intros E; contradiction|]. intros _.
    unfold base64_decode. destruct (Z.ltb_spec 20 (len d64 * 3 / 4)); [|lia].
    reflexivity. }
  assert (Hshort : len d64 <= 27).
  { destruct (Z.le_gt_cases (len d64) 27) as [H|H]; [exact H|]. exfalso.
    assert (21 <= len d64 * 3 / 4) by (apply Z.div_le_lower_bound; lia). lia. }
  rewrite base64_decode_refines by (try split; lia).
  unfold base64_spec. rewrite Hvs.
  destruct (Z.eqb_spec (len d64 mod 4) 1) as [H1|H1].
  - rewrite Hex. cbn [bind]. split; [|reflexivity].
    intros E. rewrite E in H1. vm_compute in H1. discriminate.
  - destruct Hex as [o [Ho Hlo]]. rewrite Ho. cbn [bind]. split.
    + intros E. exists o. rewrite Hlo, E. split; reflexivity.
    + intros Hne. rewrite Hlo.
      assert (Hlt : len d64 * 3 / 4 < 20).
      { replace (len d64 * 3) with (3 * len d64) by lia.
        apply Z.div_lt_upper_bound; lia. }
      replace (3 * len d64) with (len d64 * 3) by lia.
      destruct (Z.eqb_spec (len d64 * 3 / 4) 20); [lia | reflexivity].
Qed.

Lemma X7_digest_from_base64_length_witness :
  exists digest,
    digest_from_base64 (bytes_of_string "2jmj7l5rSw0yVb/vlWAYkK/YBwk") = Returns digest
    /\ len digest = 20.
Proof.
  refine (proj1 (X7_digest_from_base64_length
                   (bytes_of_string "2jmj7l5rSw0yVb/vlWAYkK/YBwk") _) _).
  - intros c Hc. cbn in Hc.
    repeat (destruct Hc as [Hc|Hc]; [subst c; discriminate|]). contradiction.
  - reflexivity.
Defined.

(** ** Fingerprints with spaces *)

Lemma char_at_0 c rest : char_at (c :: rest) 0 = c.
Proof. reflexivity. Qed.

Lemma char_at_in s i : 0 <= i < len s -> In (char_at s i) s.
Proof. intros H. unfold char_at. apply nth_In. unfold len in H. lia. Qed.

Lemma char_at_past s i : len s <= i -> char_at s i = 0.
Proof. intros H. unfold char_at. apply nth_overflow. unfold len in H. lia. Qed.

(** Four characters, then a space if more follow: the loop on an input of
    [g + 1] groups of four, given room for them. *)
Lemma add_spaces_groups : forall (g : nat) inp room,
  length inp = (4 * S g)%nat -> ~ In 0 inp -> 5 * (Z.of_nat g + 1) <= room ->
  exists out,
    add_spaces_loop inp 0 room = (out, room - (5 * (Z.of_nat g + 1) - 1))
    /\ len out = 5 * (Z.of_nat g + 1) - 1
    /\ forall i, 0 <= i < 5 * (Z.of_nat g + 1) - 1 ->
         char_at out i = if i mod 5 =? 4 then 32 else char_at inp (i - i / 5).
Proof.
  induction g as [|g IH]; intros inp room Hlen Hnul Hroom.
  - destruct inp as [|a [|b [|c [|d [|e inp]]]]]; cbn [length] in Hlen; try lia.
    assert (Ha : a <> 0) by (intros ->; apply Hnul; cbn; auto).
    assert (Hb : b <> 0) by (intros ->; apply Hnul; cbn; auto).
    assert (Hc : c <> 0) by (intros ->; apply Hnul; cbn; auto).
    assert (Hd : d <> 0) by (intros ->; apply Hnul; cbn; auto).
    exists [a; b; c; d]. cbn [Z.of_nat] in *. split; [|split].
    + cbn [add_spaces_loop]. 
      destruct (Z.eqb_spec a 0), (Z.eqb_spec b 0), (Z.eqb_spec c 0), (Z.eqb_spec d 0);
        try contradiction.
      destruct (Z.leb_spec room 0), (Z.leb_spec (room - 1) 0),
               (Z.leb_spec (room - 1 - 1) 0), (Z.leb_spec (room - 1 - 1 - 1) 0);
        try lia.
      cbn [orb andb negb Z.add Z.eqb Pos.eqb Pos.add Pos.succ char_at nth Z.to_nat].
      cbn. f_equal. lia.
    + reflexivity.
    + intros i Hi. assert (Hcases : i = 0 \/ i = 1 \/ i = 2 \/ i = 3) by lia.
      destruct Hcases as [->|[->|[->| ->]]]; reflexivity.
  - destruct inp as [|a [|b [|c [|d rest]]]]; cbn [length] in Hlen; try lia.
    assert (Ha : a <> 0) by (intros ->; apply Hnul; cbn; auto).
    assert (Hb : b <> 0) by (intros ->; apply Hnul; cbn; auto).
    assert (Hc : c <> 0) by (intros ->; apply Hnul; cbn; auto).
    assert (Hd : d <> 0) by (intros ->; apply Hnul; cbn; auto).
    assert (Hrest : ~ In 0 rest) by (intros H; apply Hnul; cbn; auto).
    assert (Hlrest : length rest = (4 * S g)%nat) by lia.
    assert (Hhead : char_at rest 0 <> 0).
    { destruct rest as [|e rest']; [cbn [length] in Hlrest; lia|].
      rewrite char_at_0. intros ->. apply Hrest. left. reflexivity. }
    destruct (IH rest (room - 5) Hlrest Hrest ltac:(lia))
      as [out' [Hrun [Hlo Hnth]]].
    exists (a :: b :: c :: d :: 32 :: out'). split; [|split].
    + cbn [add_spaces_loop].
      destruct (Z.eqb_spec a 0), (Z.eqb_spec b 0), (Z.eqb_spec c 0), (Z.eqb_spec d 0);
        try contradiction.
      destruct (Z.leb_spec room 0), (Z.leb_spec (room - 1) 0),
               (Z.leb_spec (room - 1 - 1) 0), (Z.leb_spec (room - 1 - 1 - 1) 0);
        try lia.
      cbn [orb]. change (0 + 1 =? 4) with false. change (0 + 1 + 1 =? 4) with false.
      change (0 + 1 + 1 + 1 =? 4) with false. change (0 + 1 + 1 + 1 + 1 =? 4) with true.
      cbn [andb].
      destruct (Z.eqb_spec (char_at rest 0) 0); [contradiction|]. cbn [negb andb].
      destruct (Z.ltb_spec 0 (room - 1 - 1 - 1 - 1)); [|lia].
      replace (room - 1 - 1 - 1 - 2) with (room - 5) by lia.
      rewrite Hrun. f_equal. lia.
    + rewrite !len_cons, Hlo. lia.
    + intros i Hi.
      destruct (Z.lt_ge_cases i 5) as [Hsmall|Hbig].
      * assert (Hcases : i = 0 \/ i = 1 \/ i = 2 \/ i = 3 \/ i = 4) by lia.
        destruct Hcases as [->|[->|[->|[->| ->]]]]; reflexivity.
      * rewrite (char_at_cons a) by lia. rewrite (char_at_cons b) by lia.
        rewrite (char_at_cons c) by lia. rewrite (char_at_cons d) by lia.
        rewrite (char_at_cons 32) by lia.
        replace (i - 1 - 1 - 1 - 1 - 1) with (i - 5) by lia.
        rewrite Hnth by lia.
        assert (Hm : (i - 5) mod 5 = i mod 5).
        { replace i with ((i - 5) + 1 * 5) at 2 by lia. rewrite Z.mod_add; lia. }
        assert (Hq : (i - 5) / 5 = i / 5 - 1).
        { replace i with ((i - 5) + 1 * 5) at 2 by lia. rewrite Z.div_add; lia. }
        rewrite Hm, Hq. destruct (i mod 5 =? 4) eqn:H4; [reflexivity|].
        apply Z.eqb_neq in H4.
        pose proof (Z.div_mod i 5 ltac:(lia)). pose proof (Z.mod_pos_bound i 5 ltac:(lia)).
        rewrite (char_at_cons a) by lia. rewrite (char_at_cons b) by lia.
        rewrite (char_at_cons c) by lia. rewrite (char_at_cons d) by lia.
        f_equal. lia.
Qed.

(** X8: a spaced fingerprint passes the syntax check.  For 40 characters
    that [TOR_ISXDIGIT] accepts (the hexadecimal digest) and the 50-byte
    buffer that [crypto_pk_get_fingerprint] supplies, [add_spaces_to_fp]
    stores 49 characters, a space after every four, which
    [crypto_pk_check_fingerprint_syntax] accepts; the 40-character form
    without spaces is rejected by the same check. *)
Theorem X8_add_spaces_to_fp_checks (TOR_ISSPACE TOR_ISXDIGIT : Z -> bool)
        (hex : list Z)
        (Hlen : len hex = 40)
        (Hspace : TOR_ISSPACE 32 = true)
        (Hspace0 : TOR_ISSPACE 0 = false) (Hxdigit0 : TOR_ISXDIGIT 0 = false)
        (Hhex : forall c, In c hex -> TOR_ISXDIGIT c = true) :
  exists fp,
    add_spaces_to_fp 50 hex = Returns fp
    /\ len fp = 49
    /\ (forall i, 0 <= i < 49 ->
          char_at fp i = if i mod 5 =? 4 then 32 else char_at hex (i - i / 5))
    /\ crypto_pk_check_fingerprint_syntax TOR_ISSPACE TOR_ISXDIGIT fp = true
    /\ crypto_pk_check_fingerprint_syntax TOR_ISSPACE TOR_ISXDIGIT hex = false.
Proof.
  assert (Hnul : ~ In 0 hex).
  { intros Hin. specialize (Hhex 0 Hin). congruence. }
  destruct (add_spaces_groups 9 hex 50 ltac:(unfold len in Hlen; lia) Hnul ltac:(lia))
    as [fp [Hrun [Hlfp Hnth]]].
  change (5 * (Z.of_nat 9 + 1) - 1) with 49 in *.
  exists fp. split; [|split; [exact Hlfp|split; [exact Hnth|split]]].
  - unfold add_spaces_to_fp. rewrite Hrun. reflexivity.
  - unfold crypto_pk_check_fingerprint_syntax. change FINGERPRINT_LEN with 49.
    assert (Hloop : fingerprint_loop TOR_ISSPACE TOR_ISXDIGIT fp 0 (Z.to_nat 49) = true).
    { apply fingerprint_loop_iff. intros j Hj.
      change (0 + Z.of_nat (Z.to_nat 49)) with 49 in Hj.
      unfold fp_position_ok. rewrite (Hnth j Hj).
      destruct (j mod 5 =? 4) eqn:H4; [exact Hspace|].
      apply Hhex. apply char_at_in. apply Z.eqb_neq in H4.
      pose proof (Z.div_mod j 5 ltac:(lia)). pose proof (Z.mod_pos_bound j 5 ltac:(lia)).
      lia. }
    rewrite Hloop, (char_at_past fp 49) by lia. reflexivity.
  - unfold crypto_pk_check_fingerprint_syntax. change FINGERPRINT_LEN with 49.
    destruct (fingerprint_loop TOR_ISSPACE TOR_ISXDIGIT hex 0 (Z.to_nat 49)) eqn:Hloop;
      [|reflexivity].
    exfalso. rewrite fingerprint_loop_iff in Hloop.
    specialize (Hloop 40 ltac:(vm_compute; split; [discriminate | reflexivity])).
    unfold fp_position_ok in Hloop. change (40 mod 5 =? 4) with false in Hloop.
    cbv iota in Hloop. rewrite (char_at_past hex 40) in Hloop by lia. congruence.
Qed.

Lemma X8_add_spaces_to_fp_checks_witness :
  exists fp,
    add_spaces_to_fp 50 (bytes_of_string "0123456789ABCDEF0123456789ABCDEF01234567")
    = Returns fp
    /\ len fp = 49
    /\ (forall i, 0 <= i < 49 ->
          char_at fp i
          = if i mod 5 =? 4 then 32
            else char_at (bytes_of_string "0123456789ABCDEF0123456789ABCDEF01234567")
                         (i - i / 5))
    /\ crypto_pk_check_fingerprint_syntax c_isspace c_isxdigit fp = true
    /\ crypto_pk_check_fingerprint_syntax c_isspace c_isxdigit
         (bytes_of_string "0123456789ABCDEF0123456789ABCDEF01234567") = false.
Proof.
  apply (X8_add_spaces_to_fp_checks c_isspace c_isxdigit
           (bytes_of_string "0123456789ABCDEF0123456789ABCDEF01234567")).
  - reflexivity.
  - reflexivity.
  - reflexivity.
  - reflexivity.
  - intros c Hc. cbn in Hc.
    repeat (destruct Hc as [Hc|Hc]; [subst c; reflexivity|]). contradiction.
Defined.

(** ** Comparing public keys *)

(** X9: [crypto_pk_cmp_keys] orders keys by modulus, then by exponent: on
    keys with a modulus it returns -1, 0 or 1, returns 0 exactly when both
    components agree, changes sign when its arguments are exchanged and is
    transitive; but a NULL handle or a handle without key compares as -1
    with everything, itself included. *)
Theorem X9_crypto_pk_cmp_keys_order :
  (forall n1 e1 n2 e2,
      crypto_pk_cmp_keys (public_key n1 e1) (public_key n2 e2)
      = Returns (if n1 <? n2 then -1 else if n2 <? n1 then 1
                 else if e1 <? e2 then -1 else if e2 <? e1 then 1 else 0))
  /\ (forall n1 e1 n2 e2,
         crypto_pk_cmp_keys (public_key n1 e1) (public_key n2 e2) = Returns 0
         <-> n1 = n2 /\ e1 = e2)
  /\ (forall n1 e1 n2 e2 r,
         crypto_pk_cmp_keys (public_key n1 e1) (public_key n2 e2) = Returns r ->
         crypto_pk_cmp_keys (public_key n2 e2) (public_key n1 e1) = Returns (- r))
  /\ (forall n1 e1 n2 e2 n3 e3,
         crypto_pk_cmp_keys (public_key n1 e1) (public_key n2 e2) = Returns (-1) ->
         crypto_pk_cmp_keys (public_key n2 e2) (public_key n3 e3) = Returns (-1) ->
         crypto_pk_cmp_keys (public_key n1 e1) (public_key n3 e3) = Returns (-1))
  /\ (forall b, crypto_pk_cmp_keys None b = Returns (-1))
  /\ (forall a, crypto_pk_cmp_keys a None = Returns (-1))
  /\ (forall b, crypto_pk_cmp_keys (Some {| handle_key := None |}) b = Returns (-1))
  /\ (forall a ka, a = Some {| handle_key := Some ka |} ->
         crypto_pk_cmp_keys a (Some {| handle_key := None |}) = Returns (-1)).
Proof.
  assert (Hlex : forall n1 e1 n2 e2,
             crypto_pk_cmp_keys (public_key n1 e1) (public_key n2 e2)
             = Returns (if n1 <? n2 then -1 else if n2 <? n1 then 1
                        else if e1 <? e2 then -1 else if e2 <? e1 then 1 else 0)).
  { intros n1 e1 n2 e2. unfold crypto_pk_cmp_keys, public_key, BN_cmp.
    cbn [handle_key pub_n pub_e].
    destruct (Z.ltb_spec n1 n2), (Z.ltb_spec n2 n1), (Z.eqb_spec n1 n2),
             (Z.ltb_spec e1 e2), (Z.ltb_spec e2 e1), (Z.eqb_spec e1 e2);
      try lia; reflexivity. }
  split; [exact Hlex|].
  split; [|split; [|split; [|split; [|split; [|split]]]]].
  - intros n1 e1 n2 e2. rewrite Hlex.
    destruct (Z.ltb_spec n1 n2), (Z.ltb_spec n2 n1),
             (Z.ltb_spec e1 e2), (Z.ltb_spec e2 e1);
      split; intros Heq; try discriminate Heq; try lia; try reflexivity.
  - intros n1 e1 n2 e2 r. rewrite !Hlex.
    destruct (Z.ltb_spec n1 n2), (Z.ltb_spec n2 n1),
             (Z.ltb_spec e1 e2), (Z.ltb_spec e2 e1);
      try lia; intros E; inversion E; subst; reflexivity.
  - intros n1 e1 n2 e2 n3 e3. rewrite !Hlex.
    destruct (Z.ltb_spec n1 n2), (Z.ltb_spec n2 n1), (Z.ltb_spec e1 e2),
             (Z.ltb_spec e2 e1), (Z.ltb_spec n2 n3), (Z.ltb_spec n3 n2),
             (Z.ltb_spec e2 e3), (Z.ltb_spec e3 e2), (Z.ltb_spec n1 n3),
             (Z.ltb_spec n3 n1), (Z.ltb_spec e1 e3), (Z.ltb_spec e3 e1);
      try lia; intros E1 E2; try discriminate E1; try discriminate E2; reflexivity.
  - intros b. reflexivity.
  - intros [a|]; reflexivity.
  - intros [b|]; reflexivity.
  - intros a ka ->. reflexivity.
Qed.

Lemma X9_crypto_pk_cmp_keys_order_witness :
  crypto_pk_cmp_keys (public_key 35 3) (public_key 35 5) = Returns (-1).
Proof.
  refine (proj1 (proj2 (proj2 (proj2 X9_crypto_pk_cmp_keys_order)))
            33 7 35 3 35 5 _ _); reflexivity.
Defined.

(** ** Random integers *)

Lemma rand_cutoff64_multiple max :
  0 < max -> rand_cutoff64 max = max * (UINT64_MAX / max).
Proof.
  intros H. unfold rand_cutoff64.
  pose proof (Z.div_mod UINT64_MAX max ltac:(lia)). lia.
Qed.

Lemma crypto_rand_uint64_loop_first max cutoff rejected val rest :
  Forall (fun v => cutoff <= v) rejected -> val < cutoff ->
  crypto_rand_uint64_loop max cutoff (rejected ++ val :: rest) = Some (val mod max).
Proof.
  intros Hrej Hval.
  induction Hrej as [|v rejected Hv Hrej IH]; cbn [app crypto_rand_uint64_loop].
  - destruct (Z.ltb_spec val cutoff); [reflexivity | lia].
  - destruct (Z.ltb_spec v cutoff); [lia | exact IH].
Qed.

(** X10: [crypto_rand_uint64] is right over its whole asserted domain.  For
    every [max] with [0 < max < UINT64_MAX] it skips the draws at or above
    the cutoff and returns the first draw below it reduced modulo [max], a
    value in [0, max); and the draws below the cutoff that reduce to a given
    [r] are exactly the [cutoff / max] values [r + max * k]. *)
Theorem X10_crypto_rand_uint64_uniform (max : Z) (Hmax : 0 < max < UINT64_MAX) :
  (forall rejected val rest,
      Forall (fun v => rand_cutoff64 max <= v) rejected ->
      val < rand_cutoff64 max ->
      crypto_rand_uint64 max (rejected ++ val :: rest) = Returns (Some (val mod max))
      /\ 0 <= val mod max < max)
  /\ (forall draws r,
         crypto_rand_uint64 max draws = Returns (Some r) -> 0 <= r < max)
  /\ (forall r v, 0 <= r < max ->
         (0 <= v < rand_cutoff64 max /\ v mod max = r)
         <-> exists k, 0 <= k < rand_cutoff64 max / max /\ v = r + max * k).
Proof.
  assert (Hrun : forall draws,
             crypto_rand_uint64 max draws
             = Returns (crypto_rand_uint64_loop max (rand_cutoff64 max) draws)).
  { intros draws. unfold crypto_rand_uint64, tor_assert.
    destruct (Z.ltb_spec max UINT64_MAX); [|lia].
    destruct (Z.gtb_spec max 0); [|lia]. reflexivity. }
  split; [|split].
  - intros rejected val rest Hrej Hval. rewrite Hrun.
    rewrite crypto_rand_uint64_loop_first by assumption.
    split; [reflexivity | apply Z.mod_pos_bound; lia].
  - intros draws r. rewrite Hrun. intros E. inversion E as [E']. clear E.
    induction draws as [|v draws IH]; cbn [crypto_rand_uint64_loop] in E';
      [discriminate|].
    destruct (v <? rand_cutoff64 max).
    + inversion E'; subst. apply Z.mod_pos_bound. lia.
    + apply IH. exact E'.
  - intros r v Hr. rewrite (rand_cutoff64_multiple max ltac:(lia)).
    replace (max * (UINT64_MAX / max) / max) with (UINT64_MAX / max).
    2:{ rewrite Z.mul_comm, Z.div_mul; lia. }
    split.
    + intros [Hv Hmod]. exists (v / max).
      pose proof (Z.div_mod v max ltac:(lia)) as Hdm.
      split; [|lia].
      split; [apply Z.div_pos; lia|].
      apply Z.div_lt_upper_bound; lia.
    + intros [k [Hk ->]]. split; [nia|].
      replace (r + max * k) with (r + k * max) by lia.
      rewrite Z.mod_add by lia. apply Z.mod_small. lia.
Qed.

Lemma X10_crypto_rand_uint64_uniform_witness :
  crypto_rand_uint64 (2 ^ 63 + 5) [2 ^ 64 - 3; 2 ^ 63 + 1; 1]
  = Returns (Some ((2 ^ 63 + 1) mod (2 ^ 63 + 5)))
  /\ 0 <= (2 ^ 63 + 1) mod (2 ^ 63 + 5) < 2 ^ 63 + 5.
Proof.
  refine (proj1 (X10_crypto_rand_uint64_uniform (2 ^ 63 + 5) _)
            [2 ^ 64 - 3] (2 ^ 63 + 1) [1] _ _).
  - vm_compute. split; reflexivity.
  - constructor; [vm_compute; discriminate | constructor].
  - vm_compute. reflexivity.
Defined.

(** X11: for [max] up to [INT_MAX + 1], where the [int] result can hold
    every residue, [crypto_rand_int] skips the draws at or above the cutoff
    and returns the first draw below it reduced modulo [max], a value in
    [0, max); the draws below the cutoff that reduce to a given [r] are
    exactly the [cutoff / max] values [r + max * k], so no residue is
    favoured. *)
Theorem X11_crypto_rand_int_uniform (max : Z) (Hmax : 0 < max <= INT_MAX + 1) :
  (forall rejected val rest,
      Forall (fun v => rand_cutoff max <= v) rejected ->
      val < rand_cutoff max ->
      crypto_rand_int max (rejected ++ val :: rest) = Returns (Some (val mod max))
      /\ 0 <= val mod max < max)
  /\ (forall draws r,
         crypto_rand_int max draws = Returns (Some r) -> 0 <= r < max)
  /\ (forall r v, 0 <= r < max ->
         (0 <= v < rand_cutoff max /\ v mod max = r)
         <-> exists k, 0 <= k < rand_cutoff max / max /\ v = r + max * k).
Proof.
  assert (HI : INT_MAX = 2 ^ 31 - 1) by reflexivity.
  assert (HU : UINT_MAX = 2 ^ 32 - 1) by reflexivity.
  assert (E31 : 2 ^ 31 = 2147483648) by reflexivity.
  assert (E32 : 2 ^ 32 = 4294967296) by reflexivity.
  split; [|split].
  - intros rejected val rest Hrej Hval.
    pose proof (Z.mod_pos_bound val max ltac:(lia)) as Hb.
    split; [|exact Hb].
    unfold crypto_rand_int, tor_assert.
    destruct (Z.ltb_spec max UINT_MAX); [|lia].
    destruct (Z.gtb_spec max 0); [|lia].
    rewrite crypto_rand_int_loop_first by assumption.
    rewrite to_int_small by lia. reflexivity.
  - intros draws r. apply crypto_rand_int_in_range. exact Hmax.
  - intros r v Hr. apply crypto_rand_int_no_bias; lia.
Qed.

Lemma X11_crypto_rand_int_uniform_witness :
  crypto_rand_int 3 [4294967295; 4294967294; 8] = Returns (Some (4294967294 mod 3))
  /\ 0 <= 4294967294 mod 3 < 3.
Proof.
  refine (proj1 (X11_crypto_rand_int_uniform 3 _) [4294967295] 4294967294 [8] _ _).
  - vm_compute. split; [reflexivity | discriminate].
  - constructor; [vm_compute; discriminate | constructor].
  - vm_compute. reflexivity.
Defined.

(** ** Choosing and shuffling *)

Lemma list_set_length {A : Type} (l : list A) : forall i x,
  length (list_set l i x) = length l.
Proof.
  induction l as [|h t IH]; intros [|i] x; cbn [list_set length]; auto.
Qed.

Lemma nth_error_list_set_eq {A : Type} (l : list A) : forall i x,
  (i < length l)%nat -> nth_error (list_set l i x) i = Some x.
Proof.
  induction l as [|h t IH]; intros [|i] x H; cbn [length] in H; try lia.
  - reflexivity.
  - cbn [list_set nth_error]. apply IH. lia.
Qed.

Lemma nth_error_list_set_neq {A : Type} (l : list A) : forall i j x,
  i <> j -> nth_error (list_set l i x) j = nth_error l j.
Proof.
  induction l as [|h t IH]; intros [|i] [|j] x H; cbn [list_set nth_error];
    try reflexivity; try contradiction.
  apply IH. intros E. apply H. f_equal. exact E.
Qed.

Lemma Permutation_list_set {A : Type} (l : list A) : forall i a x,
  nth_error l i = Some a -> Permutation (a :: list_set l i x) (x :: l).
Proof.
  induction l as [|h t IH]; intros [|i] a x H; cbn [nth_error] in H; try discriminate.
  - inversion H; subst. cbn [list_set]. apply perm_swap.
  - cbn [list_set].
    eapply perm_trans; [apply perm_swap|].
    eapply perm_trans; [apply perm_skip; apply (IH i a x H)|].
    apply perm_swap.
Qed.

Lemma smartlist_swap_Permutation {A : Type} (sl : list A) idx1 idx2 :
  Permutation (smartlist_swap sl idx1 idx2) sl.
Proof.
  unfold smartlist_swap, smartlist_get.
  destruct (idx1 <? 0); [apply Permutation_refl|].
  destruct (nth_error sl (Z.to_nat idx1)) as [a|] eqn:Ha; [|apply Permutation_refl].
  destruct (idx2 <? 0); [apply Permutation_refl|].
  destruct (nth_error sl (Z.to_nat idx2)) as [b|] eqn:Hb; [|apply Permutation_refl].
  set (i := Z.to_nat idx1) in *. set (j := Z.to_nat idx2) in *.
  assert (Hj : nth_error (list_set sl i b) j = Some b).
  { destruct (Nat.eq_dec i j) as [E|E].
    - rewrite <- E. apply nth_error_list_set_eq.
      apply nth_error_Some. congruence.
    - rewrite nth_error_list_set_neq by exact E. exact Hb. }
  apply Permutation_cons_inv with b.
  eapply perm_trans; [apply (Permutation_list_set _ j b a Hj)|].
  apply (Permutation_list_set sl i a b Ha).
Qed.

Lemma smartlist_shuffle_from_Permutation {A : Type} : forall i (sl : list A) draws sl',
  smartlist_shuffle_from i sl draws = Returns (Some sl') -> Permutation sl sl'.
Proof.
  induction i as [|i IH]; intros sl draws sl' H.
  - cbn in H. inversion H. apply Permutation_refl.
  - cbn [smartlist_shuffle_from] in H.
    destruct (crypto_rand_int (to_uint32 (Z.of_nat (S i) + 1)) draws)
      as [[j|]| | |]; cbn [bind] in H; try discriminate.
    apply IH in H. eapply perm_trans; [|exact H].
    apply Permutation_sym. apply smartlist_swap_Permutation.
Qed.

(** For [max] up to [2^31] every draw below [2^31] is below the cutoff. *)
Lemma rand_cutoff_covers_int max :
  0 < max <= 2 ^ 31 -> 2 ^ 31 <= rand_cutoff max.
Proof.
  intros H. unfold rand_cutoff.
  pose proof (Z.mod_pos_bound UINT_MAX max ltac:(lia)).
  assert (UINT_MAX = 2 ^ 32 - 1) by reflexivity.
  assert (2 ^ 32 = 2 * 2 ^ 31) by reflexivity. lia.
Qed.

Lemma smartlist_shuffle_from_runs {A : Type} : forall i (sl : list A) draws,
  Z.of_nat i + 1 <= 2 ^ 31 ->
  Forall (fun v => 0 <= v < 2 ^ 31) draws -> (i <= length draws)%nat ->
  exists sl', smartlist_shuffle_from i sl draws = Returns (Some sl').
Proof.
  assert (HU : UINT_MAX = 2 ^ 32 - 1) by reflexivity.
  assert (E31 : 2 ^ 31 = 2147483648) by reflexivity.
  assert (E32 : 2 ^ 32 = 4294967296) by reflexivity.
  induction i as [|i IH]; intros sl draws Hi Hd Hlen.
  - eexists. reflexivity.
  - destruct draws as [|v draws]; [cbn [length] in Hlen; lia|].
    inversion Hd as [|? ? Hv Hd']; subst.
    cbn [smartlist_shuffle_from].
    set (max := to_uint32 (Z.of_nat (S i) + 1)).
    assert (Hmax : max = Z.of_nat (S i) + 1).
    { subst max. unfold to_uint32. apply Z.mod_small. lia. }
    pose proof (rand_cutoff_covers_int max ltac:(lia)) as Hcut.
    unfold crypto_rand_int, tor_assert.
    destruct (Z.ltb_spec max UINT_MAX); [|lia].
    destruct (Z.gtb_spec max 0); [|lia].
    cbn [crypto_rand_int_loop crypto_rand_int_rest bind].
    destruct (Z.ltb_spec v (rand_cutoff max)); [|lia].
    apply IH; [lia | exact Hd' | cbn [length] in Hlen; lia].
Qed.

(** X12: [smartlist_shuffle] only rearranges.  Whatever the random draws,
    a list it returns is a permutation of the list it was given; and when
    there is one draw below [2^31] for each of its [len - 1] steps it does
    return. *)
Theorem X12_smartlist_shuffle_permutes {A : Type} (sl : list A) (draws : list Z) :
  (forall sl', smartlist_shuffle sl draws = Returns (Some sl') -> Permutation sl sl')
  /\ (Z.of_nat (length sl) <= 2 ^ 31 ->
      Forall (fun v => 0 <= v < 2 ^ 31) draws ->
      (length sl - 1 <= length draws)%nat ->
      exists sl', smartlist_shuffle sl draws = Returns (Some sl')
                  /\ Permutation sl sl').
Proof.
  split.
  - intros sl'. apply smartlist_shuffle_from_Permutation.
  - intros Hlen Hd Hn.
    destruct (smartlist_shuffle_from_runs (length sl - 1) sl draws ltac:(lia) Hd Hn)
      as [sl' Hrun].
    exists sl'. split; [exact Hrun|].
    apply (smartlist_shuffle_from_Permutation _ _ _ _ Hrun).
Qed.

Lemma X12_smartlist_shuffle_permutes_witness :
  exists sl', smartlist_shuffle [10; 20; 30; 40] [7; 1; 2] = Returns (Some sl')
              /\ Permutation [10; 20; 30; 40] sl'.
Proof.
  refine (proj2 (X12_smartlist_shuffle_permutes [10; 20; 30; 40] [7; 1; 2]) _ _ _).
  - vm_compute. discriminate.
  - repeat constructor; vm_compute; congruence.
  - cbn. lia.
Defined.

(** X13: [smartlist_choose] returns NULL exactly for the empty list.  On a
    list of at most [2^31] elements, whatever it returns once a draw is
    accepted is an element of the list: the index handed to
    [smartlist_get] is always inside it. *)
Theorem X13_smartlist_choose_member {A : Type} (sl : list A) (draws : list Z) :
  (sl = [] -> smartlist_choose sl draws = Returns (Some None))
  /\ (sl <> [] -> Z.of_nat (length sl) <= 2 ^ 31 ->
      forall picked, smartlist_choose sl draws = Returns (Some picked) ->
                     exists x, picked = Some x /\ In x sl).
Proof.
  split.
  - intros ->. reflexivity.
  - intros Hne Hlen picked.
    assert (E31 : 2 ^ 31 = 2147483648) by reflexivity.
    assert (E32 : 2 ^ 32 = 4294967296) by reflexivity.
    assert (Hpos : 0 < Z.of_nat (length sl)).
    { destruct sl; [contradiction | cbn [length]; lia]. }
    unfold smartlist_choose.
    destruct (Z.eqb_spec (Z.of_nat (length sl)) 0); [lia|]. cbn [negb].
    unfold to_uint32. rewrite Z.mod_small by lia.
    destruct (crypto_rand_int (Z.of_nat (length sl)) draws) as [[idx|]| | |] eqn:Hdraw;
      cbn [bind]; try discriminate.
    intros E. inversion E; subst picked.
    assert (Hmax : 0 < Z.of_nat (length sl) <= INT_MAX + 1).
    { unfold INT_MAX. rewrite E31. lia. }
    pose proof (crypto_rand_int_in_range _ _ _ Hmax Hdraw) as Hr.
    unfold smartlist_get. destruct (Z.ltb_spec idx 0); [lia|].
    destruct (nth_error sl (Z.to_nat idx)) as [x|] eqn:Hx.
    + exists x. split; [reflexivity|]. eapply nth_error_In. exact Hx.
    + apply nth_error_None in Hx. lia.
Qed.

Lemma X13_smartlist_choose_member_witness :
  exists x, Some 20 = Some x /\ In x [10; 20; 30].
Proof.
  refine (proj2 (X13_smartlist_choose_member [10; 20; 30] [4294967295; 7]) _ _
            (Some 20) _).
  - discriminate.
  - vm_compute. discriminate.
  - reflexivity.
Defined.

(** ** Key expansion *)

Lemma flat_map_ext_seq {A : Type} (f g : nat -> list A) : forall r s,
  (forall i, (s <= i < s + r)%nat -> f i = g i) ->
  flat_map f (seq s r) = flat_map g (seq s r).
Proof.
  induction r as [|r IH]; intros s H; [reflexivity|].
  cbn [seq flat_map]. rewrite (H s) by lia. f_equal.
  apply IH. intros i Hi. apply H. lia.
Qed.

Lemma flat_map_blocks_length {A : Type} (f : nat -> list A) (w : nat) :
  (forall i, length (f i) = w) ->
  forall r s, length (flat_map f (seq s r)) = (w * r)%nat.
Proof.
  intros Hf. induction r as [|r IH]; intros s; cbn [seq flat_map length]; [lia|].
  rewrite length_app, Hf, IH. lia.
Qed.

(** Copying [MIN(DIGEST_LEN, key_out_len - offset)] bytes of each block is
    cutting the concatenation of the whole blocks. *)
Lemma flat_map_truncated_blocks (f : nat -> list Z) (n : Z) :
  (forall i, length (f i) = 20%nat) ->
  forall r s,
    flat_map (fun i => firstn (Z.to_nat (Z.min DIGEST_LEN
                                           (n - DIGEST_LEN * Z.of_nat i))) (f i))
             (seq s r)
    = firstn (Z.to_nat (n - DIGEST_LEN * Z.of_nat s)) (flat_map f (seq s r)).
Proof.
  intros Hf. unfold DIGEST_LEN.
  induction r as [|r IH]; intros s; cbn [seq flat_map].
  - now rewrite firstn_nil.
  - rewrite IH, firstn_app, Hf. f_equal.
    + destruct (Z.le_gt_cases 20 (n - 20 * Z.of_nat s)).
      * rewrite !firstn_all2 by (rewrite Hf; lia). reflexivity.
      * f_equal. lia.
    + f_equal. lia.
Qed.

Lemma crypto_digest_length m : length (crypto_digest m) = 20%nat.
Proof. apply SHA1_length. Qed.

Lemma crypto_expand_key_material_stream key_in n :
  0 <= n <= DIGEST_LEN * 256 ->
  crypto_expand_key_material key_in n
  = Returns (firstn (Z.to_nat n) (key_stream key_in)).
Proof.
  intros Hn. unfold crypto_expand_key_material, tor_assert.
  destruct (Z.leb_spec n (DIGEST_LEN * 256)); [|lia].
  f_equal.
  rewrite (flat_map_truncated_blocks
             (fun i => crypto_digest (key_in ++ [to_uint8 (Z.of_nat i)])) n)
    by (intros; apply crypto_digest_length).
  unfold DIGEST_LEN in *. rewrite Z.mul_0_r, Z.sub_0_r.
  set (rounds := Z.to_nat ((n + 20 - 1) / 20)).
  assert (Hr : (rounds <= 256)%nat /\ n <= 20 * Z.of_nat rounds).
  { subst rounds. rewrite Z2Nat.id by (apply Z.div_pos; lia).
    split; [|Z.div_mod_to_equations; lia].
    apply Nat2Z.inj_le. rewrite Z2Nat.id by (apply Z.div_pos; lia).
    change (Z.of_nat 256) with 256. Z.div_mod_to_equations; lia. }
  destruct Hr as [Hr1 Hr2].
  unfold key_stream.
  replace 256%nat with (rounds + (256 - rounds))%nat by lia.
  rewrite seq_app, flat_map_app, firstn_app.
  rewrite (flat_map_blocks_length _ 20) by (intros; apply crypto_digest_length).
  replace (Z.to_nat n - 20 * rounds)%nat with 0%nat by lia.
  rewrite firstn_O, app_nil_r. f_equal.
  apply flat_map_ext_seq. intros i Hi. do 2 f_equal.
  unfold to_uint8. rewrite Z.mod_small; [reflexivity|lia].
Qed.

Lemma key_stream_length key_in : length (key_stream key_in) = (20 * 256)%nat.
Proof.
  unfold key_stream.
  rewrite (flat_map_blocks_length _ 20) by (intros; apply crypto_digest_length).
  reflexivity.
Qed.

(** X14: for every request of up to [DIGEST_LEN*256] bytes,
    [crypto_expand_key_material] writes exactly the first [key_out_len]
    bytes of [H(K | [00]) | H(K | [01]) | ... | H(K | [ff])]: the counter
    byte never wraps, the output has exactly the requested length, and a
    shorter request gives a prefix of a longer one.  A larger request trips
    the assertion. *)
Theorem X14_expand_key_material_stream (key_in : list Z) (n : Z)
  (Hn : 0 <= n <= DIGEST_LEN * 256) :
  (exists out,
      crypto_expand_key_material key_in n = Returns out
      /\ out = firstn (Z.to_nat n) (key_stream key_in)
      /\ len out = n
      /\ forall m, 0 <= m <= n ->
           crypto_expand_key_material key_in m = Returns (firstn (Z.to_nat m) out))
  /\ (forall big, DIGEST_LEN * 256 < big ->
        crypto_expand_key_material key_in big = Aborts).
Proof.
  split.
  - exists (firstn (Z.to_nat n) (key_stream key_in)).
    split; [apply crypto_expand_key_material_stream; exact Hn|].
    split; [reflexivity|]. split.
    + unfold len. rewrite length_firstn, key_stream_length.
      unfold DIGEST_LEN in Hn. lia.
    + intros m Hm. rewrite crypto_expand_key_material_stream by lia.
      f_equal. rewrite firstn_firstn. f_equal. lia.
  - intros big Hbig. unfold crypto_expand_key_material, tor_assert.
    destruct (Z.leb_spec big (DIGEST_LEN * 256)); [lia | reflexivity].
Qed.

Lemma X14_expand_key_material_stream_witness :
  (exists out,
      crypto_expand_key_material [1; 2; 3] 72 = Returns out
      /\ out = firstn (Z.to_nat 72) (key_stream [1; 2; 3])
      /\ len out = 72
      /\ forall m, 0 <= m <= 72 ->
           crypto_expand_key_material [1; 2; 3] m = Returns (firstn (Z.to_nat m) out))
  /\ (forall big, DIGEST_LEN * 256 < big ->
        crypto_expand_key_material [1; 2; 3] big = Aborts).
Proof.
  apply (X14_expand_key_material_stream [1; 2; 3] 72).
  unfold DIGEST_LEN. lia.
Defined.

(** X15: [crypto_dh_compute_secret] with a request that passes its own
    assertions never trips the assertion of [crypto_expand_key_material]:
    it either fails or returns exactly [secret_bytes_out] bytes, and it
    returns exactly when the peer value passes [tor_check_dh_key] and
    [DH_compute_key] succeeds; the bytes are then the expansion of the
    shared secret. *)
Theorem X15_dh_compute_secret_shape (DH_compute_key : Z -> option (list Z))
  (pubkey : list Z) (secret_bytes_out : Z)
  (Hout : 0 <= secret_bytes_out) (Hdiv : secret_bytes_out / DIGEST_LEN <= 255)
  (Hlen : len pubkey < INT_MAX) :
  match crypto_dh_compute_secret DH_compute_key pubkey secret_bytes_out with
  | Returns out =>
      len out = secret_bytes_out
      /\ 0 <= tor_check_dh_key (BN_bin2bn pubkey)
      /\ exists secret, DH_compute_key (BN_bin2bn pubkey) = Some secret
           /\ out = firstn (Z.to_nat secret_bytes_out) (key_stream secret)
  | Fails =>
      tor_check_dh_key (BN_bin2bn pubkey) < 0
      \/ DH_compute_key (BN_bin2bn pubkey) = None
  | Aborts | Undef => False
  end.
Proof.
  assert (Hn : 0 <= secret_bytes_out <= DIGEST_LEN * 256).
  { unfold DIGEST_LEN in *. Z.div_mod_to_equations; lia. }
  unfold crypto_dh_compute_secret, tor_assert.
  destruct (Z.leb_spec (secret_bytes_out / DIGEST_LEN) 255); [|lia].
  destruct (Z.ltb_spec (len pubkey) INT_MAX); [|lia].
  cbv zeta.
  destruct (Z.ltb_spec (tor_check_dh_key (BN_bin2bn pubkey)) 0); [left; assumption|].
  destruct (DH_compute_key (BN_bin2bn pubkey)) as [secret|] eqn:Hs; [|right; reflexivity].
  rewrite crypto_expand_key_material_stream by exact Hn.
  split; [|split; [assumption|]].
  - unfold len. rewrite length_firstn, key_stream_length.
    unfold DIGEST_LEN in Hn. lia.
  - exists secret. split; reflexivity.
Qed.

Lemma X15_dh_compute_secret_shape_witness :
  match crypto_dh_compute_secret (fun _ => Some [1; 2; 3]) [0; 5] 40 with
  | Returns out =>
      len out = 40
      /\ 0 <= tor_check_dh_key (BN_bin2bn [0; 5])
      /\ exists secret, (fun _ : Z => Some [1; 2; 3]) (BN_bin2bn [0; 5]) = Some secret
           /\ out = firstn (Z.to_nat 40) (key_stream secret)
  | Fails =>
      tor_check_dh_key (BN_bin2bn [0; 5]) < 0
      \/ (fun _ : Z => Some [1; 2; 3]) (BN_bin2bn [0; 5]) = None
  | Aborts | Undef => False
  end.
Proof.
  apply (X15_dh_compute_secret_shape (fun _ => Some [1; 2; 3]) [0; 5] 40).
  - lia.
  - vm_compute. discriminate.
  - vm_compute. reflexivity.
Defined.

(** ** Encrypting and decrypting with an IV in front *)




(** ** Signatures *)

Lemma crypto_pk_public_checksig_whole pub env sig :
  len sig < INT_MAX ->
  crypto_pk_public_checksig pub env sig (len sig)
  = match pub (pk_key env) sig RSA_PKCS1_PADDING with
    | None => Fails
    | Some m => Returns m
    end.
Proof.
  intros H. unfold crypto_pk_public_checksig, tor_assert.
  destruct (Z.ltb_spec (len sig) INT_MAX); [|lia].
  destruct (Z.gtb_spec (len sig) (len sig)); [lia|].
  rewrite firstn_len. reflexivity.
Qed.

(** X17: [crypto_pk_public_checksig_digest] returns 0 exactly when the
    signature decrypts, under the public key, to the SHA-1 digest of the
    data and nothing else, and -1 otherwise.  So, when public decryption
    inverts private encryption, a signature made by
    [crypto_pk_private_sign_digest] is accepted for the data it was made
    for and rejected for data with another digest. *)
Theorem X17_checksig_digest_accepts
        (RSA_private_encrypt RSA_public_decrypt
           : RSA -> list Z -> rsa_padding -> option (list Z))
        (env : crypto_pk_env_t) (data sig : list Z)
        (Hsig : len sig < INT_MAX) :
  (crypto_pk_public_checksig_digest RSA_public_decrypt env data sig = Returns tt
   <-> RSA_public_decrypt (pk_key env) sig RSA_PKCS1_PADDING
       = Some (crypto_digest data))
  /\ (crypto_pk_public_checksig_digest RSA_public_decrypt env data sig = Fails
      <-> RSA_public_decrypt (pk_key env) sig RSA_PKCS1_PADDING
          <> Some (crypto_digest data))
  /\ ((forall m s, RSA_private_encrypt (pk_key env) m RSA_PKCS1_PADDING = Some s ->
                   RSA_public_decrypt (pk_key env) s RSA_PKCS1_PADDING = Some m) ->
      forall signed,
        crypto_pk_private_sign_digest RSA_private_encrypt env signed = Returns sig ->
        (crypto_digest data = crypto_digest signed ->
         crypto_pk_public_checksig_digest RSA_public_decrypt env data sig
         = Returns tt)
        /\ (crypto_digest data <> crypto_digest signed ->
            crypto_pk_public_checksig_digest RSA_public_decrypt env data sig
            = Fails)).
Proof.
  assert (Hchar :
    (crypto_pk_public_checksig_digest RSA_public_decrypt env data sig = Returns tt
     <-> RSA_public_decrypt (pk_key env) sig RSA_PKCS1_PADDING
         = Some (crypto_digest data))
    /\ (crypto_pk_public_checksig_digest RSA_public_decrypt env data sig = Fails
        <-> RSA_public_decrypt (pk_key env) sig RSA_PKCS1_PADDING
            <> Some (crypto_digest data))).
  { unfold crypto_pk_public_checksig_digest.
    rewrite crypto_pk_public_checksig_whole by exact Hsig.
    destruct (RSA_public_decrypt (pk_key env) sig RSA_PKCS1_PADDING) as [buf|].
    2:{ split; split; intros; congruence. }
    cbv zeta. change DIGEST_LEN with 20.
    destruct (Z.eqb_spec (len buf) 20) as [Hl|Hl]; cbn [negb].
    - rewrite <- Hl, firstn_len.
      destruct (list_eq_dec Z.eq_dec buf (crypto_digest data)) as [E|E].
      + subst buf. split; split; intros; congruence.
      + split; split; intros; congruence.
    - assert (buf <> crypto_digest data).
      { intros E. apply Hl. subst buf. unfold len.
        rewrite crypto_digest_length. reflexivity. }
      split; split; intros; congruence. }
  destruct Hchar as [Hok Hbad].
  split; [exact Hok|]. split; [exact Hbad|].
  intros Hlaw signed Hsigned.
  assert (Hdec : RSA_public_decrypt (pk_key env) sig RSA_PKCS1_PADDING
                 = Some (crypto_digest signed)).
  { unfold crypto_pk_private_sign_digest, crypto_pk_private_sign, tor_assert in Hsigned.
    cbv zeta in Hsigned.
    destruct (DIGEST_LEN <? INT_MAX); [|discriminate].
    destruct (negb (rsa_p (pk_key env))); [discriminate|].
    destruct (DIGEST_LEN >? len (crypto_digest signed)); [discriminate|].
    replace (firstn (Z.to_nat DIGEST_LEN) (crypto_digest signed))
      with (crypto_digest signed) in Hsigned
      by (symmetry; apply firstn_all2; rewrite crypto_digest_length;
          change DIGEST_LEN with 20; lia).
    destruct (RSA_private_encrypt (pk_key env) (crypto_digest signed) RSA_PKCS1_PADDING)
      as [s|] eqn:Hs; [|discriminate].
    inversion Hsigned; subst s. apply Hlaw. exact Hs. }
  split.
  - intros E. apply Hok. rewrite Hdec, E. reflexivity.
  - intros E. apply Hbad. rewrite Hdec. intros E'. apply E. congruence.
Qed.

Lemma X17_checksig_digest_accepts_witness :
  crypto_pk_public_checksig_digest toy_public_decrypt (toy_pk 64) [97; 98; 99]
    (1 :: crypto_digest [97; 98; 99]) = Returns tt.
Proof.
  refine (proj1 (proj2 (proj2 (X17_checksig_digest_accepts
            toy_private_encrypt toy_public_decrypt (toy_pk 64) [97; 98; 99]
            (1 :: crypto_digest [97; 98; 99]) _)) _ [97; 98; 99] _) _).
  - vm_compute. reflexivity.
  - intros m s H. inversion H. reflexivity.
  - vm_compute. reflexivity.
  - reflexivity.
Defined.

(** X18: a key without its private part never reaches the RSA private
    operations: decrypting, hybrid decrypting, signing and signing a
    digest all return -1, for inputs below the [INT_MAX] assertions. *)
Theorem X18_public_key_cannot_decrypt_or_sign
        (AES_keystream : list Z -> list Z -> Z -> Z)
        (RSA_private_encrypt : RSA -> list Z -> rsa_padding -> option (list Z))
        (env : crypto_pk_env_t) (from : list Z) (padding : pk_padding)
        (Hpub : rsa_p (pk_key env) = false)
        (Hlen : len from < INT_MAX) (Hsize : crypto_pk_keysize env < INT_MAX) :
  crypto_pk_private_decrypt env from (len from) padding = Fails
  /\ crypto_pk_private_hybrid_decrypt AES_keystream env from padding = Fails
  /\ crypto_pk_private_sign RSA_private_encrypt env from (len from) = Fails
  /\ crypto_pk_private_sign_digest RSA_private_encrypt env from = Fails.
Proof.
  assert (Hdec : forall n, n < INT_MAX ->
            crypto_pk_private_decrypt env from n padding = Fails).
  { intros n Hn. unfold crypto_pk_private_decrypt, tor_assert.
    destruct (Z.ltb_spec n INT_MAX); [|lia]. rewrite Hpub. reflexivity. }
  split; [apply Hdec; exact Hlen|]. split; [|split].
  - unfold crypto_pk_private_hybrid_decrypt. cbv zeta.
    destruct (len from <=? crypto_pk_keysize env).
    + apply Hdec; exact Hlen.
    + rewrite Hdec by exact Hsize. reflexivity.
  - unfold crypto_pk_private_sign, tor_assert.
    destruct (Z.ltb_spec (len from) INT_MAX); [|lia]. rewrite Hpub. reflexivity.
  - unfold crypto_pk_private_sign_digest, crypto_pk_private_sign, tor_assert.
    cbv zeta. change (DIGEST_LEN <? INT_MAX) with true. cbv iota.
    rewrite Hpub. reflexivity.
Qed.

Lemma X18_public_key_cannot_decrypt_or_sign_witness :
  let env := {| refs := 1;
                pk_key := {| RSA_size := 64; rsa_n := 2 ^ 512 - 1; rsa_p := false;
                             RSA_public_encrypt := toy_encrypt 64 (2 ^ 512 - 1);
                             RSA_private_decrypt := toy_decrypt 64 |} |} in
  crypto_pk_private_decrypt env (repeat 5 100) (len (repeat 5 100)) PK_PKCS1_PADDING
    = Fails
  /\ crypto_pk_private_hybrid_decrypt toy_keystream env (repeat 5 100) PK_PKCS1_PADDING
     = Fails
  /\ crypto_pk_private_sign toy_private_encrypt env (repeat 5 100)
       (len (repeat 5 100)) = Fails
  /\ crypto_pk_private_sign_digest toy_private_encrypt env (repeat 5 100) = Fails.
Proof.
  intros env.
  apply (X18_public_key_cannot_decrypt_or_sign toy_keystream toy_private_encrypt
           env (repeat 5 100) PK_PKCS1_PADDING).
  - reflexivity.
  - vm_compute. reflexivity.
  - vm_compute. reflexivity.
Defined.

(** ** The public value on the wire *)

Lemma big_endian_length : forall n bn, length (big_endian n bn) = n.
Proof.
  induction n as [|n IH]; intros bn; cbn [big_endian]; [reflexivity|].
  rewrite length_app, IH. cbn [length]. lia.
Qed.

Lemma BN_bin2bn_app a b :
  BN_bin2bn (a ++ b) = BN_bin2bn a * 256 ^ len b + BN_bin2bn b.
Proof.
  unfold BN_bin2bn at 1. rewrite fold_left_app. fold (BN_bin2bn a).
  apply BN_bin2bn_acc.
Qed.

Lemma BN_bin2bn_big_endian : forall n bn,
  0 <= bn -> BN_bin2bn (big_endian n bn) = bn mod 256 ^ Z.of_nat n.
Proof.
  induction n as [|n IH]; intros bn Hbn; cbn [big_endian].
  - cbn. rewrite Z.mod_1_r. reflexivity.
  - rewrite BN_bin2bn_app, IH by (apply Z.div_pos; lia).
    change (len [bn mod 256]) with 1. rewrite Z.pow_1_r.
    change (BN_bin2bn [bn mod 256]) with (0 * 256 + to_uint8 (bn mod 256)).
    rewrite to_uint8_small by (apply Z.mod_pos_bound; lia).
    rewrite Nat2Z.inj_succ, Z.pow_succ_r by lia.
    rewrite Z.rem_mul_r by lia. lia.
Qed.

Lemma BN_bin2bn_zeros : forall n l, BN_bin2bn (repeat 0 n ++ l) = BN_bin2bn l.
Proof.
  induction n as [|n IH]; intros l; cbn [repeat app]; [reflexivity|].
  rewrite BN_bin2bn_cons, IH. reflexivity.
Qed.

Lemma BN_num_bytes_nonneg bn : 0 <= BN_num_bytes bn.
Proof.
  unfold BN_num_bytes. destruct (bn <=? 0); [lia|].
  pose proof (Z.log2_nonneg bn). apply Z.div_pos; lia.
Qed.

Lemma BN_num_bytes_covers bn : 0 <= bn -> bn < 256 ^ BN_num_bytes bn.
Proof.
  intros Hbn. unfold BN_num_bytes.
  destruct (Z.leb_spec bn 0) as [H0|Hpos]; [cbn; lia|].
  pose proof (Z.log2_nonneg bn) as Hl.
  pose proof (Z.log2_spec bn Hpos) as [_ Hup].
  eapply Z.lt_le_trans; [exact Hup|].
  change 256 with (2 ^ 8). rewrite <- Z.pow_mul_r by (try apply Z.div_pos; lia).
  apply Z.pow_le_mono_r; [lia|].
  Z.div_mod_to_equations; lia.
Qed.

Lemma BN_bn2bin_round_trip bn : 0 <= bn -> BN_bin2bn (BN_bn2bin bn) = bn.
Proof.
  intros Hbn. unfold BN_bn2bin. rewrite BN_bin2bn_big_endian by exact Hbn.
  rewrite Z2Nat.id by apply BN_num_bytes_nonneg.
  apply Z.mod_small. split; [exact Hbn | apply BN_num_bytes_covers; exact Hbn].
Qed.

Lemma dh_param_p_bits : dh_param_p < 2 ^ 1024.
Proof. apply Z.ltb_lt. vm_compute. reflexivity. Qed.

Lemma BN_num_bytes_dh bn : tor_check_dh_key bn = 0 -> BN_num_bytes bn <= DH_BYTES.
Proof.
  intros H. apply tor_check_dh_key_iff in H.
  pose proof dh_param_p_bits as Hp.
  unfold BN_num_bytes. destruct (Z.leb_spec bn 0); [lia|].
  assert (Hl : Z.log2 bn < 1024) by (apply Z.log2_lt_pow2; lia).
  pose proof (Z.log2_nonneg bn).
  change DH_BYTES with 128. Z.div_mod_to_equations; lia.
Qed.

Lemma crypto_dh_generate_public_checked : forall gens r,
  crypto_dh_generate_public gens = Some r ->
  r = Fails \/ exists k, r = Returns k /\ tor_check_dh_key k = 0.
Proof.
  induction gens as [|g gens IH]; intros r; cbn [crypto_dh_generate_public].
  - discriminate.
  - destruct g as [k|]; [|intros E; inversion E; left; reflexivity].
    destruct (Z.ltb_spec (tor_check_dh_key k) 0) as [Hbad|Hok]; [apply IH|].
    intros E. inversion E. right. exists k. split; [reflexivity|].
    unfold tor_check_dh_key in *.
    destruct (k <=? 1); [lia|]. destruct (k >=? dh_param_p - 1); [lia | reflexivity].
Qed.

(** X19: with a buffer of at least [DH_BYTES] bytes, and a stored key that
    came from [crypto_dh_generate_public], [crypto_dh_get_public] fails
    only when key generation fails and never trips an assertion.  What it
    writes fills the whole buffer, left-padded with zeros, reads back with
    [BN_bin2bn] as the public value itself, and so passes the check that
    [crypto_dh_compute_secret] makes on the other side. *)
Theorem X19_dh_get_public_wire (pub_key : option Z) (gens : list (option Z))
        (pubkey_len : Z)
        (Hlen : DH_BYTES <= pubkey_len)
        (Hkey : forall k, pub_key = Some k -> tor_check_dh_key k = 0) :
  match crypto_dh_get_public pub_key gens pubkey_len with
  | Some (Returns out) =>
      len out = pubkey_len
      /\ tor_check_dh_key (BN_bin2bn out) = 0
      /\ (pub_key = Some (BN_bin2bn out)
          \/ pub_key = None
             /\ crypto_dh_generate_public gens = Some (Returns (BN_bin2bn out)))
  | Some Fails => pub_key = None /\ crypto_dh_generate_public gens = Some Fails
  | Some Aborts | Some Undef => False
  | None => pub_key = None /\ crypto_dh_generate_public gens = None
  end.
Proof.
  assert (Hwrite : forall k, tor_check_dh_key k = 0 ->
    exists out,
      tor_assert (BN_num_bytes k >=? 0)
        (if pubkey_len <? BN_num_bytes k then Fails
         else Returns (repeat 0 (Z.to_nat (pubkey_len - BN_num_bytes k))
                         ++ BN_bn2bin k)) = Returns out
      /\ len out = pubkey_len /\ BN_bin2bn out = k).
  { intros k Hk. pose proof (BN_num_bytes_dh k Hk) as Hb.
    pose proof (BN_num_bytes_nonneg k) as Hnn.
    assert (0 <= k) by (apply tor_check_dh_key_iff in Hk; lia).
    unfold tor_assert.
    destruct (Z.geb_spec (BN_num_bytes k) 0); [|lia].
    destruct (Z.ltb_spec pubkey_len (BN_num_bytes k)); [lia|].
    eexists. split; [reflexivity|]. split.
    - rewrite len_app. unfold len, BN_bn2bin.
      rewrite repeat_length, big_endian_length. lia.
    - rewrite BN_bin2bn_zeros. apply BN_bn2bin_round_trip. assumption. }
  unfold crypto_dh_get_public. cbv zeta.
  destruct pub_key as [k|].
  - destruct (Hwrite k (Hkey k eq_refl)) as [out [-> [Hl Hv]]].
    split; [exact Hl|]. rewrite Hv. split; [apply Hkey; reflexivity|].
    left. reflexivity.
  - destruct (crypto_dh_generate_public gens) as [r|] eqn:Hgen; [|split; reflexivity].
    destruct (crypto_dh_generate_public_checked gens r Hgen) as [->|[k [-> Hk]]].
    + split; reflexivity.
    + destruct (Hwrite k Hk) as [out [-> [Hl Hv]]].
      split; [exact Hl|]. rewrite Hv. split; [exact Hk|].
      right. split; reflexivity.
Qed.

Lemma X19_dh_get_public_wire_witness :
  match crypto_dh_get_public (Some 258) [] 128 with
  | Some (Returns out) =>
      len out = 128
      /\ tor_check_dh_key (BN_bin2bn out) = 0
      /\ (Some 258 = Some (BN_bin2bn out)
          \/ Some 258 = None
             /\ crypto_dh_generate_public [] = Some (Returns (BN_bin2bn out)))
  | Some Fails => Some 258 = None /\ crypto_dh_generate_public [] = Some Fails
  | Some Aborts | Some Undef => False
  | None => Some 258 = None /\ crypto_dh_generate_public [] = None
  end.
Proof.
  apply (X19_dh_get_public_wire (Some 258) [] 128).
  - vm_compute. discriminate.
  - intros k H. inversion H. reflexivity.
Defined.

(** ** Seeding the generator *)

Lemma seedings_app t1 t2 : seedings (t1 ++ t2) = (seedings t1 + seedings t2)%nat.
Proof. unfold seedings. rewrite filter_app, length_app. reflexivity. Qed.

Lemma seed_from_files_result : forall files poll st,
  let r := seed_from_files files poll st in
  (fst r = 0 \/ fst r = -1)
  /\ (fst r = 0 <-> first_opened files = Some ADD_ENTROPY
                    \/ first_opened files = None /\ poll <> 0)
  /\ seedings (trace (snd r))
     = (seedings (trace st)
        + match first_opened files with
          | Some n => if Z.eqb n ADD_ENTROPY then 1 else 0
          | None => 0
          end)%nat.
Proof.
  induction files as [|f files IH]; intros poll st; cbn [seed_from_files first_opened].
  - cbv zeta. destruct (Z.eqb_spec poll 0); cbn [fst snd].
    + split; [right; reflexivity|]. split; [|lia].
      split; [discriminate | intros [H|[_ H]]; [discriminate | contradiction]].
    + split; [left; reflexivity|]. split; [|lia].
      split; [intros _; right; split; [reflexivity | assumption] | reflexivity].
  - destruct f as [|n].
    + specialize (IH poll (emit open_entropy_file st)). cbv zeta in IH.
      destruct IH as [H1 [H2 H3]]. cbv zeta.
      split; [exact H1|]. split; [exact H2|].
      rewrite H3. cbn [emit trace]. rewrite seedings_app. cbn. lia.
    + cbv zeta. destruct (Z.eqb_spec n ADD_ENTROPY) as [->|Hn]; cbn [negb fst snd].
      * split; [left; reflexivity|].
        split; [split; [intros _; left; reflexivity | reflexivity]|].
        cbn [emit trace]. rewrite !seedings_app. cbn. lia.
      * split; [right; reflexivity|].
        split; [split; [discriminate | intros [H|[H _]]; [congruence | discriminate]]|].
        cbn [emit trace]. rewrite seedings_app. cbn. lia.
Qed.

(** X20: [crypto_seed_rng] returns 0 or -1, and 0 in exactly two cases:
    the first entropy file that opens delivers all [ADD_ENTROPY] bytes, or
    no file opens and [RAND_poll] was called and succeeded.  A short read
    from the first file that opens gives -1 even after a successful
    [RAND_poll], and later files are not tried.  [RAND_seed] is called
    once in the first case and not at all otherwise. *)
Theorem X20_crypto_seed_rng_result (startup poll_safe : bool)
        (ans : init_answers) (st : global_state) :
  let r := crypto_seed_rng startup poll_safe ans st in
  (fst r = 0 \/ fst r = -1)
  /\ (fst r = 0 <->
      first_opened (entropy_files ans) = Some ADD_ENTROPY
      \/ first_opened (entropy_files ans) = None
         /\ startup || poll_safe = true /\ rand_poll_status ans <> 0)
  /\ (forall n, first_opened (entropy_files ans) = Some n -> n <> ADD_ENTROPY ->
                fst r = -1)
  /\ seedings (trace (snd r))
     = (seedings (trace st)
        + if Z.eqb (fst r) 0 then
            match first_opened (entropy_files ans) with Some _ => 1 | None => 0 end
          else 0)%nat.
Proof.
  cbv zeta. unfold crypto_seed_rng.
  destruct (startup || poll_safe) eqn:Hcall.
  - pose proof (seed_from_files_result (entropy_files ans) (rand_poll_status ans)
                  (emit RAND_poll st)) as H.
    cbv zeta in H. destruct H as [H1 [H2 H3]].
    set (r := seed_from_files (entropy_files ans) (rand_poll_status ans)
                (emit RAND_poll st)) in *.
    split; [exact H1|]. split; [|split].
    + rewrite H2. intuition congruence.
    + intros n Hn Hne. destruct H1 as [H0|Hm]; [|exact Hm].
      apply H2 in H0. destruct H0 as [H0|[H0 _]]; congruence.
    + rewrite H3. cbn [emit trace]. rewrite seedings_app.
      change (seedings [(RAND_poll, _crypto_global_initialized st)]) with 0%nat.
      destruct (first_opened (entropy_files ans)) as [n|] eqn:Hf.
      * destruct (Z.eqb_spec n ADD_ENTROPY) as [->|Hn].
        -- replace (fst r) with 0 by (symmetry; apply H2; left; reflexivity).
           cbn. lia.
        -- destruct H1 as [H0|Hm].
           ++ apply H2 in H0. destruct H0 as [H0|[H0 _]]; congruence.
           ++ rewrite Hm. cbn. lia.
      * destruct (Z.eqb (fst r) 0); lia.
  - pose proof (seed_from_files_result (entropy_files ans) 0 st) as H.
    cbv zeta in H. destruct H as [H1 [H2 H3]].
    set (r := seed_from_files (entropy_files ans) 0 st) in *.
    split; [exact H1|]. split; [|split].
    + rewrite H2. intuition congruence.
    + intros n Hn Hne. destruct H1 as [H0|Hm]; [|exact Hm].
      apply H2 in H0. destruct H0 as [H0|[H0 _]]; congruence.
    + rewrite H3.
      destruct (first_opened (entropy_files ans)) as [n|] eqn:Hf.
      * destruct (Z.eqb_spec n ADD_ENTROPY) as [->|Hn].
        -- replace (fst r) with 0 by (symmetry; apply H2; left; reflexivity).
           cbn. lia.
        -- destruct H1 as [H0|Hm].
           ++ apply H2 in H0. destruct H0 as [H0|[H0 _]]; congruence.
           ++ rewrite Hm. cbn. lia.
      * destruct (Z.eqb (fst r) 0); lia.
Qed.

(** ** Decoding what RFC 4648 encodes *)

Lemma b64_sextet_char v : 0 <= v < 64 -> b64_sextet (b64_char v) = Some v.
Proof.
  intros Hv. unfold b64_char, b64_sextet, to_uint8.
  destruct (Z.ltb_spec v 26); [|destruct (Z.ltb_spec v 52);
    [|destruct (Z.ltb_spec v 62); [|destruct (Z.eqb_spec v 62)]]].
  - rewrite Z.mod_small by lia.
    destruct (Z.leb_spec 65 (v + 65)); [|lia].
    destruct (Z.leb_spec (v + 65) 90); [|lia]. cbn [andb]. f_equal. lia.
  - rewrite Z.mod_small by lia.
    destruct (Z.leb_spec 65 (v + 71)); [|lia].
    destruct (Z.leb_spec (v + 71) 90); [lia|]. cbn [andb].
    destruct (Z.leb_spec 97 (v + 71)); [|lia].
    destruct (Z.leb_spec (v + 71) 122); [|lia]. cbn [andb]. f_equal. lia.
  - rewrite Z.mod_small by lia.
    destruct (Z.leb_spec 65 (v - 4)); [lia|]. cbn [andb].
    destruct (Z.leb_spec 97 (v - 4)); [lia|]. cbn [andb].
    destruct (Z.leb_spec 48 (v - 4)); [|lia].
    destruct (Z.leb_spec (v - 4) 57); [|lia]. cbn [andb]. f_equal. lia.
  - subst v. reflexivity.
  - assert (v = 63) by lia. subst v. reflexivity.
Qed.

Lemma b64_sextets_of_range : forall (k : nat) bytes,
  (length bytes <= k)%nat -> Forall is_byte bytes ->
  Forall (fun v => 0 <= v < 64) (b64_sextets_of bytes).
Proof.
  unfold is_byte.
  induction k as [|k IH]; intros bytes Hk Hb.
  - destruct bytes; [constructor | cbn [length] in Hk; lia].
  - destruct bytes as [|a [|b [|c rest]]]; cbn [b64_sextets_of].
    + constructor.
    + inversion Hb; subst. repeat constructor; Z.div_mod_to_equations; lia.
    + inversion Hb as [|? ? Ha Hb1]; subst. inversion Hb1; subst.
      repeat constructor; Z.div_mod_to_equations; lia.
    + inversion Hb as [|? ? Ha Hb1]; subst. inversion Hb1 as [|? ? Hbb Hb2]; subst.
      inversion Hb2 as [|? ? Hc Hb3]; subst.
      repeat (apply Forall_cons; [Z.div_mod_to_equations; lia|]).
      apply IH; [cbn [length] in Hk; lia | exact Hb3].
Qed.

Lemma b64_spec_bytes_of : forall (k : nat) bytes,
  (length bytes <= k)%nat -> Forall is_byte bytes ->
  b64_spec_bytes (b64_sextets_of bytes) = Some bytes.
Proof.
  unfold is_byte.
  induction k as [|k IH]; intros bytes Hk Hb.
  - destruct bytes; [reflexivity | cbn [length] in Hk; lia].
  - destruct bytes as [|a [|b [|c rest]]]; cbn [b64_sextets_of].
    + reflexivity.
    + inversion Hb; subst. cbn [b64_spec_bytes]. do 2 f_equal.
      Z.div_mod_to_equations; lia.
    + inversion Hb as [|? ? Ha Hb1]; subst. inversion Hb1; subst.
      cbn [b64_spec_bytes]. cbv zeta.
      replace ((a / 4 * 64 + (a mod 4 * 16 + b / 16)) * 64 + b mod 16 * 4)
        with (a * 1024 + b * 4) by (Z.div_mod_to_equations; lia).
      f_equal. f_equal; [|f_equal]; Z.div_mod_to_equations; lia.
    + inversion Hb as [|? ? Ha Hb1]; subst. inversion Hb1 as [|? ? Hbb Hb2]; subst.
      inversion Hb2 as [|? ? Hc Hb3]; subst.
      rewrite b64_spec_bytes_flush.
      rewrite (IH rest) by (try exact Hb3; cbn [length] in Hk; lia).
      cbv zeta.
      replace (((a / 4 * 64 + (a mod 4 * 16 + b / 16)) * 64
                + (b mod 16 * 4 + c / 64)) * 64 + c mod 64)
        with (a * 65536 + b * 256 + c) by (Z.div_mod_to_equations; lia).
      f_equal. f_equal; [|f_equal; [|f_equal]]; Z.div_mod_to_equations; lia.
Qed.

Lemma b64_sextets_unpadded : forall vs tail,
  Forall (fun v => 0 <= v < 64) vs ->
  tail = [] \/ (exists t, tail = 61 :: t) ->
  b64_spec_sextets b64_table_ws (map b64_char vs ++ tail) = Some vs.
Proof.
  induction vs as [|v vs IH]; intros tail Hvs Htail; cbn [map app].
  - destruct Htail as [->|[t ->]]; reflexivity.
  - inversion Hvs as [|? ? Hv Hrest]; subst.
    pose proof (b64_sextet_char v Hv) as Hc.
    assert (Hn : b64_sextet (b64_char v) <> None) by congruence.
    destruct (b64_sextet_plain _ Hn) as [Hpad [Hws _]].
    cbn [b64_spec_sextets]. rewrite Hpad, Hws, Hc, (IH tail Hrest Htail).
    reflexivity.
Qed.

Lemma base64_spec_rfc4648 bytes tail :
  Forall is_byte bytes ->
  tail = [] \/ (exists t, tail = 61 :: t) ->
  base64_spec b64_table_ws (rfc4648_unpadded bytes ++ tail) = Returns bytes.
Proof.
  intros Hb Htail. unfold base64_spec, rfc4648_unpadded.
  rewrite b64_sextets_unpadded;
    [| apply (b64_sextets_of_range (length bytes)); [lia | exact Hb] | exact Htail].
  rewrite (b64_spec_bytes_of (length bytes)); [reflexivity | lia | exact Hb].
Qed.

Lemma rfc4648_padding_tail n :
  repeat 61 n = [] \/ exists t, repeat 61 n = 61 :: t.
Proof. destruct n; [left; reflexivity | right; eexists; reflexivity]. Qed.

(** X21: [base64_decode] inverts the base64 of RFC 4648.  A text that,
    once TAB, LF, VT, CR and SP are removed, is the encoding of a byte
    string, with its [=] padding or without it, decodes to exactly that
    byte string whenever the destination passes the length check and has
    fewer than [SIZE_T_CEILING] bytes. *)
Theorem X21_base64_decode_inverts_rfc4648 (destlen : Z) (text bytes : list Z)
        (Hbytes : Forall is_byte bytes)
        (Htext : b64_strip_ws text = rfc4648_encode bytes
                 \/ b64_strip_ws text = rfc4648_unpadded bytes)
        (Hroom : len text * 3 / 4 <= destlen < SIZE_T_CEILING)
        (Hlen : len text <= INT_MAX) :
  base64_decode destlen text = Returns bytes.
Proof.
  rewrite base64_decode_refines by assumption.
  unfold base64_spec. rewrite <- b64_sextets_strip. fold (base64_spec b64_table_ws (b64_strip_ws text)).
  destruct Htext as [-> | ->].
  - apply base64_spec_rfc4648; [exact Hbytes | apply rfc4648_padding_tail].
  - rewrite <- (app_nil_r (rfc4648_unpadded bytes)).
    apply base64_spec_rfc4648; [exact Hbytes | left; reflexivity].
Qed.

Lemma X21_base64_decode_inverts_rfc4648_witness :
  base64_decode 20 (bytes_of_string "aGVs bG8g d29y bGQ=")
  = Returns (bytes_of_string "hello world").
Proof.
  apply (X21_base64_decode_inverts_rfc4648 20
           (bytes_of_string "aGVs bG8g d29y bGQ=") (bytes_of_string "hello world")).
  - repeat constructor; vm_compute; congruence.
  - left. vm_compute. reflexivity.
  - vm_compute. split; [discriminate | reflexivity].
  - vm_compute. discriminate.
Defined.

Lemma b64_sextets_of_len : forall (k : nat) bytes,
  (length bytes <= k)%nat ->
  len (b64_sextets_of bytes) = (4 * len bytes + 2) / 3.
Proof.
  induction k as [|k IH]; intros bytes Hk.
  - destruct bytes; [reflexivity | cbn [length] in Hk; lia].
  - destruct bytes as [|a [|b [|c rest]]]; cbn [b64_sextets_of]; try reflexivity.
    rewrite !len_cons, (IH rest) by (cbn [length] in Hk; lia).
    pose proof (len_nonneg rest). Z.div_mod_to_equations; lia.
Qed.

Lemma rfc4648_unpadded_no_nul bytes :
  Forall is_byte bytes -> ~ In 0 (rfc4648_unpadded bytes).
Proof.
  intros Hb Hin. unfold rfc4648_unpadded in Hin.
  apply in_map_iff in Hin. destruct Hin as [v [Hv Hin]].
  pose proof (b64_sextets_of_range (length bytes) bytes (le_n _) Hb) as Hr.
  rewrite Forall_forall in Hr. specialize (Hr v Hin).
  pose proof (b64_sextet_char v Hr) as Hc. rewrite Hv in Hc.
  discriminate Hc.
Qed.

(** X22: [digest_from_base64] reads back the short form of a digest: on
    the 27 characters that encode a 20-byte digest in base64 without the
    trailing [=], the form that [digest_to_base64] is documented to
    store, it returns that digest. *)
Theorem X22_digest_from_base64_round_trip (digest : list Z)
        (Hbytes : Forall is_byte digest) (Hlen : len digest = DIGEST_LEN) :
  len (rfc4648_unpadded digest) = 27
  /\ digest_from_base64 (rfc4648_unpadded digest) = Returns digest.
Proof.
  change DIGEST_LEN with 20 in Hlen.
  assert (H27 : len (rfc4648_unpadded digest) = 27).
  { unfold rfc4648_unpadded, len. rewrite length_map.
    fold (len (b64_sextets_of digest)).
    rewrite (b64_sextets_of_len (length digest)) by lia. rewrite Hlen. reflexivity. }
  split; [exact H27|].
  unfold digest_from_base64.
  assert (Hstr : cstring (rfc4648_unpadded digest) = rfc4648_unpadded digest).
  { unfold cstring. rewrite strlen_no_nul by (apply rfc4648_unpadded_no_nul; exact Hbytes).
    apply firstn_len. }
  rewrite Hstr. change DIGEST_LEN with 20.
  rewrite base64_decode_refines.
  2:{ rewrite H27. vm_compute. split; [discriminate | reflexivity]. }
  2:{ rewrite H27. vm_compute. discriminate. }
  rewrite <- (app_nil_r (rfc4648_unpadded digest)).
  rewrite base64_spec_rfc4648 by (try exact Hbytes; left; reflexivity).
  cbn [bind]. rewrite Hlen. reflexivity.
Qed.

Lemma X22_digest_from_base64_round_trip_witness :
  len (rfc4648_unpadded
     [169; 153; 62; 54; 71; 6; 129; 106; 186; 62; 37; 113; 120; 80; 194; 108;
      156; 208; 216; 157]) = 27
  /\ digest_from_base64 (rfc4648_unpadded
     [169; 153; 62; 54; 71; 6; 129; 106; 186; 62; 37; 113; 120; 80; 194; 108;
      156; 208; 216; 157])
     = Returns
     [169; 153; 62; 54; 71; 6; 129; 106; 186; 62; 37; 113; 120; 80; 194; 108;
      156; 208; 216; 157].
Proof.
  apply (X22_digest_from_base64_round_trip
     [169; 153; 62; 54; 71; 6; 129; 106; 186; 62; 37; 113; 120; 80; 194; 108;
      156; 208; 216; 157]).
  - repeat (apply Forall_cons; [unfold is_byte; lia|]). apply Forall_nil.
  - reflexivity.
Defined.

(** ** Reference counting *)




